(** * merge-core-phrases.py: a shallow embedding and its verified properties

    The script reads eight fixed JSON files in order, appends every parsed
    document to the list [merged], writes that list with
    [json.dump(merged, f, ensure_ascii=False, indent=2)] to
    [core-phrase-list-all.json] and prints one summary line.

    The script itself is thirty lines; everything it does goes through
    [open], [json.load], [json.dump] and [print].  Those are modelled here
    after CPython 3.11 (text files opened with [encoding="utf-8"], the
    [json] package with its default decoder and the pure-Python
    [_make_iterencode] generator that [json.dump] uses when [indent] is
    given).  Outside the model: interpreter resource limits (recursion depth,
    memory, disk space), file permissions, and hosts whose [os.linesep] is
    not a single line feed. *)

From Stdlib Require Import ZArith List Bool Lia String Ascii.
From Stdlib Require Import SpecFloat DecimalFacts DecimalPos DecimalZ.
From stdpp Require Import gmap strings.

Local Open Scope Z_scope.

(** ** Python values of the text layer *)

(** A Python [str] is a sequence of code points (0 .. 0x10FFFF, surrogates
    included); a [bytes] object is a sequence of 8-bit integers. *)
Definition pystr := list Z.
Definition bytes := list Z.

Definition ord (a : ascii) : Z := Z.of_nat (nat_of_ascii a).

(** [lit "null"] is the Python literal ['null']. *)
Definition lit (s : string) : pystr := map ord (list_ascii_of_string s).

(** The double quote and the backslash, which a Rocq string literal cannot
    spell conveniently. *)
Definition QUOTE : Z := 34.
Definition BSLASH : Z := 92.

Fixpoint str_eqb (a b : pystr) : bool :=
  match a, b with
  | [], [] => true
  | x :: a', y :: b' => (x =? y) && str_eqb a' b'
  | _, _ => false
  end.

(** [s.startswith(p)], with the rest of [s] after the prefix. *)
Fixpoint strip_prefix (p s : pystr) : option pystr :=
  match p, s with
  | [], _ => Some s
  | x :: p', y :: s' => if x =? y then strip_prefix p' s' else None
  | _ :: _, [] => None
  end.

(** Test inputs are written with an apostrophe where the JSON text has a
    double quote: [js "['a']"] is the text [["a"]]. *)
Definition js (s : string) : pystr :=
  map (fun c => if c =? 39 then QUOTE else c) (lit s).

(** The exceptions the script can end with.  None is caught anywhere in
    the script.  [ValueError] stands for the plain [ValueError] of an
    integer literal beyond the digit limit; [JSONDecodeError] (a subclass
    of [ValueError] in Python) is kept apart from it. *)
Inductive exn : Type :=
| FileNotFoundError
| UnicodeDecodeError
| JSONDecodeError
| ValueError
| UnicodeEncodeError.

Inductive result (A : Type) : Type :=
| Ok (a : A)
| Raise (e : exn).
Arguments Ok {A} a.
Arguments Raise {A} e.

(** ** The UTF-8 codec, [errors="strict"] *)

Module Utf8.

Definition is_surrogate (c : Z) : bool := (0xD800 <=? c) && (c <=? 0xDFFF).

(** [str.encode("utf-8")] of one code point; [None] where the codec raises
    (a surrogate, or a value that is no code point). *)
Definition encode_char (c : Z) : option bytes :=
  if c <? 0 then None
  else if c <? 0x80 then Some [c]
  else if c <? 0x800 then Some [0xC0 + c / 64; 0x80 + c mod 64]
  else if is_surrogate c then None
  else if c <? 0x10000 then
    Some [0xE0 + c / 4096; 0x80 + (c / 64) mod 64; 0x80 + c mod 64]
  else if c <? 0x110000 then
    Some [0xF0 + c / 262144; 0x80 + (c / 4096) mod 64;
          0x80 + (c / 64) mod 64; 0x80 + c mod 64]
  else None.

Fixpoint encode (s : pystr) : option bytes :=
  match s with
  | [] => Some []
  | c :: r =>
      match encode_char c, encode r with
      | Some b, Some br => Some (b ++ br)
      | _, _ => None
      end
  end.

Definition cont (b : Z) : bool := (0x80 <=? b) && (b <=? 0xBF).
Definition between (lo b hi : Z) : bool := (lo <=? b) && (b <=? hi).

(** [bytes.decode("utf-8")]: well-formed sequences only (no overlong forms,
    no encoded surrogates, nothing above U+10FFFF). *)
Fixpoint decode (b : bytes) : option pystr :=
  match b with
  | [] => Some []
  | b0 :: r =>
      if between 0 b0 0x7F then option_map (cons b0) (decode r)
      else if between 0xC2 b0 0xDF then
        match r with
        | b1 :: r1 =>
            if cont b1
            then option_map (cons ((b0 - 0xC0) * 64 + (b1 - 0x80))) (decode r1)
            else None
        | _ => None
        end
      else if between 0xE0 b0 0xEF then
        match r with
        | b1 :: b2 :: r2 =>
            if between (if b0 =? 0xE0 then 0xA0 else 0x80) b1
                       (if b0 =? 0xED then 0x9F else 0xBF) && cont b2
            then option_map
                   (cons ((b0 - 0xE0) * 4096 + (b1 - 0x80) * 64 + (b2 - 0x80)))
                   (decode r2)
            else None
        | _ => None
        end
      else if between 0xF0 b0 0xF4 then
        match r with
        | b1 :: b2 :: b3 :: r3 =>
            if between (if b0 =? 0xF0 then 0x90 else 0x80) b1
                       (if b0 =? 0xF4 then 0x8F else 0xBF) && cont b2 && cont b3
            then option_map
                   (cons ((b0 - 0xF0) * 262144 + (b1 - 0x80) * 4096
                          + (b2 - 0x80) * 64 + (b3 - 0x80)))
                   (decode r3)
            else None
        | _ => None
        end
      else None
  end.

End Utf8.

(** Reading a text file opened with [newline=None]: [\r\n] and a lone [\r]
    both arrive as [\n]. *)
Fixpoint universal_newlines (s : pystr) : pystr :=
  match s with
  | [] => []
  | c :: r =>
      if c =? 13 then
        match r with
        | d :: r' => if d =? 10 then 10 :: universal_newlines r'
                     else 10 :: universal_newlines r
        | [] => [10]
        end
      else c :: universal_newlines r
  end.

(** ** Numbers: [int] and [float] *)

Module PyInt.

(** [sys.get_int_max_str_digits()], CPython's default: converting between
    [int] and a decimal [str] of more digits raises [ValueError]. *)
Definition int_max_str_digits : nat := 4300.

Definition is_digit (c : Z) : bool := (48 <=? c) && (c <=? 57).

Fixpoint uint_chars (u : Decimal.uint) : pystr :=
  match u with
  | Decimal.Nil => []
  | Decimal.D0 r => 48 :: uint_chars r
  | Decimal.D1 r => 49 :: uint_chars r
  | Decimal.D2 r => 50 :: uint_chars r
  | Decimal.D3 r => 51 :: uint_chars r
  | Decimal.D4 r => 52 :: uint_chars r
  | Decimal.D5 r => 53 :: uint_chars r
  | Decimal.D6 r => 54 :: uint_chars r
  | Decimal.D7 r => 55 :: uint_chars r
  | Decimal.D8 r => 56 :: uint_chars r
  | Decimal.D9 r => 57 :: uint_chars r
  end.

(** The digits of a run of ASCII digit characters. *)
Fixpoint chars_uint (s : pystr) : Decimal.uint :=
  match s with
  | [] => Decimal.Nil
  | c :: r =>
      let u := chars_uint r in
      match c - 48 with
      | 0 => Decimal.D0 u
      | 1 => Decimal.D1 u
      | 2 => Decimal.D2 u
      | 3 => Decimal.D3 u
      | 4 => Decimal.D4 u
      | 5 => Decimal.D5 u
      | 6 => Decimal.D6 u
      | 7 => Decimal.D7 u
      | 8 => Decimal.D8 u
      | _ => Decimal.D9 u
      end
  end.

(** The value of a run of digit characters (base 10). *)
Definition digits_value (s : pystr) : Z := Z.of_uint (chars_uint s).

(** [int(text)] for the text shapes the JSON scanner hands over: an
    optional minus sign and a run of digits. *)
Definition of_literal (neg : bool) (ds : pystr) : result Z :=
  if (int_max_str_digits <? length ds)%nat then Raise ValueError
  else Ok (if neg then - digits_value ds else digits_value ds).

(** The decimal digits of [|z|], most significant first. *)
Definition abs_uint (z : Z) : Decimal.uint :=
  match Z.to_int z with
  | Decimal.Pos u => u
  | Decimal.Neg u => u
  end.

(** The decimal text of [z]. *)
Definition to_str (z : Z) : pystr :=
  (if z <? 0 then [45] else []) ++ uint_chars (abs_uint z).

(** [int.__repr__]: the decimal text, refused beyond the digit limit. *)
Definition repr (z : Z) : result pystr :=
  if (int_max_str_digits <? Decimal.nb_digits (abs_uint z))%nat
  then Raise ValueError
  else Ok (to_str z).

End PyInt.

Module PyFloat.

(** A Python [float] is an IEEE 754 binary64 value: Rocq's [spec_float] at
    precision 53 and [emax] 1024. *)
Definition prec : Z := 53.
Definition emax : Z := 1024.

Definition eqb (a b : spec_float) : bool :=
  match a, b with
  | S754_zero s, S754_zero t => Bool.eqb s t
  | S754_infinity s, S754_infinity t => Bool.eqb s t
  | S754_nan, S754_nan => true
  | S754_finite s m e, S754_finite t n f => Bool.eqb s t && Pos.eqb m n && (e =? f)
  | _, _ => false
  end.

(** The double nearest to [m * 10^e10] (ties to even), the value [float]
    gives to a decimal literal of mantissa [m] and exponent [e10].  The two
    range tests only keep the powers of ten below small: beyond them the
    result is an infinity or a zero whatever the digits are. *)
Definition of_decimal (neg : bool) (m : Z) (e10 : Z) : spec_float :=
  match m with
  | Zpos p =>
      let nd := Z.of_nat (Decimal.nb_digits (Pos.to_uint p)) in
      if 310 <? nd + e10 then S754_infinity neg
      else if nd + e10 <? -330 then S754_zero neg
      else if 0 <=? e10 then
        match m * 10 ^ e10 with
        | Zpos n => binary_round prec emax neg n 0
        | _ => S754_zero neg
        end
      else
        let den := 10 ^ (- e10) in
        let s := Z.max 0 (Z.log2 den - Z.log2 m + 60) in
        let num := Z.shiftl m s in
        let q := num / den in
        let r := num mod den in
        let loc := if r =? 0 then loc_Exact else loc_Inexact (2 * r ?= den) in
        binary_round_aux prec emax neg q (- s) loc
  | _ => S754_zero neg
  end.

(** [float(text)] for a JSON number with a fraction or an exponent:
    integer digits, fraction digits, and the exponent (sign and digits). *)
Definition of_literal (neg : bool) (int_digits frac_digits : pystr)
    (exp : option (bool * pystr)) : spec_float :=
  let e := match exp with
           | Some (eneg, ed) =>
               if eneg then - PyInt.digits_value ed else PyInt.digits_value ed
           | None => 0
           end in
  of_decimal neg (PyInt.digits_value (int_digits ++ frac_digits))
             (e - Z.of_nat (length frac_digits)).

(** Is [num / den >= 10^c] ? *)
Definition ge_pow10 (num den c : Z) : bool :=
  if 0 <=? c then den * 10 ^ c <=? num else den <=? num * 10 ^ (- c).

Fixpoint climb (fuel : nat) (num den c : Z) : Z :=
  match fuel with
  | O => c
  | S fuel' => if ge_pow10 num den (c + 1) then climb fuel' num den (c + 1) else c
  end.

(** [floor (log10 (num / den))], for a positive double [num / den]. *)
Definition floor_log10 (num den : Z) : Z :=
  let est := ((Z.log2 num - Z.log2 den) * 1233) / 4096 in
  climb 6 num den (est - 2).

Fixpoint strip_zeros (fuel : nat) (d p : Z) : Z * Z :=
  match fuel with
  | O => (d, p)
  | S fuel' => if (d mod 10 =? 0) && negb (d =? 0)
               then strip_zeros fuel' (d / 10) (p + 1) else (d, p)
  end.

(** The shortest decimal [d * 10^p] that reads back as the double
    [m * 2^e]; of two such decimals of that length the nearer one, and the
    even one on a tie (the digits [float.__repr__] prints). *)
Fixpoint shortest (todo : nat) (n : Z) (m : positive) (e : Z)
    (num den e10 : Z) : Z * Z :=
  let p := e10 - (n - 1) in
  let N := if p <? 0 then num * 10 ^ (- p) else num in
  let D := if p <? 0 then den else den * 10 ^ p in
  let lo := N / D in
  let rem := N mod D in
  let hi := lo + 1 in
  let x := S754_finite false m e in
  let lo_ok := eqb (of_decimal false lo p) x in
  let hi_ok := eqb (of_decimal false hi p) x in
  match todo with
  | O => (lo, p)
  | S todo' =>
      if rem =? 0 then (lo, p)
      else if lo_ok && hi_ok then
        match 2 * rem ?= D with
        | Lt => (lo, p)
        | Gt => (hi, p)
        | Eq => if Z.even lo then (lo, p) else (hi, p)
        end
      else if lo_ok then (lo, p)
      else if hi_ok then (hi, p)
      else shortest todo' (n + 1) m e num den e10
  end.

Definition repeat0 (n : Z) : pystr := repeat 48 (Z.to_nat n).

(** [float.__repr__] of a finite non-zero double: the shortest digits,
    in positional notation when the decimal point falls within
    [-4 < decpt <= 16], in exponent notation otherwise. *)
Definition repr_finite (neg : bool) (m : positive) (e : Z) : pystr :=
  let num := if 0 <=? e then Zpos m * 2 ^ e else Zpos m in
  let den := if 0 <=? e then 1 else 2 ^ (- e) in
  let e10 := floor_log10 num den in
  let '(dd, pp) := shortest 17 1 m e num den e10 in
  let '(d, p) := strip_zeros 20 dd pp in
  let ds := PyInt.uint_chars (PyInt.abs_uint d) in
  let n := Z.of_nat (length ds) in
  let decpt := p + n in
  let sign := if neg then [45] else [] in
  let body :=
    if (decpt <=? -4) || (16 <? decpt) then
      let x := decpt - 1 in
      let xd := PyInt.uint_chars (PyInt.abs_uint x) in
      firstn 1 ds
        ++ (if 1 <? n then 46 :: skipn 1 ds else [])
        ++ [101; if x <? 0 then 45 else 43]
        ++ (if (length xd <? 2)%nat then 48 :: xd else xd)
    else if decpt <=? 0 then
      [48; 46] ++ repeat0 (- decpt) ++ ds
    else if n <=? decpt then
      ds ++ repeat0 (decpt - n) ++ [46; 48]
    else
      firstn (Z.to_nat decpt) ds ++ 46 :: skipn (Z.to_nat decpt) ds
  in sign ++ body.

(** The text [json] writes for a float with [allow_nan=True]. *)
Definition floatstr (f : spec_float) : pystr :=
  match f with
  | S754_nan => lit "NaN"
  | S754_infinity false => lit "Infinity"
  | S754_infinity true => lit "-Infinity"
  | S754_zero false => lit "0.0"
  | S754_zero true => lit "-0.0"
  | S754_finite s m e => repr_finite s m e
  end.

End PyFloat.

(** ** JSON documents as Python objects *)

(** What [json.load] can return: [None], [bool], [int], [float], [str],
    [list] and [dict] with [str] keys (insertion-ordered, keys unique). *)
#[warnings="-register-all"]
Inductive py : Type :=
| PNone
| PBool (b : bool)
| PInt (z : Z)
| PFloat (f : spec_float)
| PStr (s : pystr)
| PList (l : list py)
| PDict (d : list (pystr * py)).

(** [d[k] = v]: an existing key keeps its place and takes the new value. *)
Fixpoint dict_setitem (d : list (pystr * py)) (k : pystr) (v : py)
    : list (pystr * py) :=
  match d with
  | [] => [(k, v)]
  | (k', v') :: r =>
      if str_eqb k' k then (k', v) :: r else (k', v') :: dict_setitem r k v
  end.

(** [dict(pairs)]. *)
Definition dict_of_pairs (pairs : list (pystr * py)) : list (pystr * py) :=
  fold_left (fun d kv => dict_setitem d (fst kv) (snd kv)) pairs [].

(** ** [json.decoder] and [json.scanner] *)

Module Decoder.

Definition is_ws (c : Z) : bool :=
  (c =? 32) || (c =? 9) || (c =? 10) || (c =? 13).

(** [WHITESPACE.match(s, idx).end()]: what is left after the blanks. *)
Fixpoint skip_ws (s : pystr) : pystr :=
  match s with
  | c :: r => if is_ws c then skip_ws r else s
  | [] => []
  end.

Definition hex_digit (c : Z) : option Z :=
  if (48 <=? c) && (c <=? 57) then Some (c - 48)
  else if (97 <=? c) && (c <=? 102) then Some (c - 87)
  else if (65 <=? c) && (c <=? 70) then Some (c - 55)
  else None.

(** The four hexadecimal digits after a backslash-u. *)
Definition decode_uXXXX (a b c d : Z) : option Z :=
  match hex_digit a, hex_digit b, hex_digit c, hex_digit d with
  | Some x, Some y, Some z, Some w => Some (((x * 16 + y) * 16 + z) * 16 + w)
  | _, _, _, _ => None
  end.

(** The table [BACKSLASH] of one-letter escapes. *)
Definition BACKSLASH (esc : Z) : option Z :=
  if esc =? QUOTE then Some QUOTE
  else if esc =? BSLASH then Some BSLASH
  else if esc =? 47 then Some 47
  else if esc =? 98 then Some 8
  else if esc =? 102 then Some 12
  else if esc =? 110 then Some 10
  else if esc =? 114 then Some 13
  else if esc =? 116 then Some 9
  else None.

(** [scanstring(s, end, strict=True)], entered after the opening quote:
    the decoded string and the text after the closing quote.  A high
    surrogate escape directly followed by a low surrogate escape is joined
    into one code point; any other surrogate escape is kept as it is. *)
Fixpoint scanstring (s : pystr) (chunks : pystr) : result (pystr * pystr) :=
  match s with
  | [] => Raise JSONDecodeError
  | c :: r =>
      if c =? QUOTE then Ok (chunks, r)
      else if c =? BSLASH then
        match r with
        | [] => Raise JSONDecodeError
        | esc :: r1 =>
            if esc =? 117 then
              match r1 with
              | h1 :: h2 :: h3 :: h4 :: r5 =>
                  match decode_uXXXX h1 h2 h3 h4 with
                  | None => Raise JSONDecodeError
                  | Some uni =>
                      if (0xD800 <=? uni) && (uni <=? 0xDBFF) then
                        match r5 with
                        | b :: u :: g1 :: g2 :: g3 :: g4 :: r11 =>
                            if (b =? BSLASH) && (u =? 117) then
                              match decode_uXXXX g1 g2 g3 g4 with
                              | None => Raise JSONDecodeError
                              | Some uni2 =>
                                  if (0xDC00 <=? uni2) && (uni2 <=? 0xDFFF)
                                  then scanstring r11
                                         (chunks ++ [0x10000 + ((uni - 0xD800) * 1024
                                                                + (uni2 - 0xDC00))])
                                  else scanstring r5 (chunks ++ [uni])
                              end
                            else scanstring r5 (chunks ++ [uni])
                        | _ => scanstring r5 (chunks ++ [uni])
                        end
                      else scanstring r5 (chunks ++ [uni])
                  end
              | _ => Raise JSONDecodeError
              end
            else
              match BACKSLASH esc with
              | Some ch => scanstring r1 (chunks ++ [ch])
              | None => Raise JSONDecodeError
              end
        end
      else if c <? 32 then Raise JSONDecodeError
      else scanstring r (chunks ++ [c])
  end.

(** The longest run of ASCII digits at the head of [s], and the rest. *)
Fixpoint span_digits (s : pystr) : pystr * pystr :=
  match s with
  | c :: r =>
      if PyInt.is_digit c
      then let '(d, t) := span_digits r in (c :: d, t)
      else ([], s)
  | [] => ([], [])
  end.

(** A match of [NUMBER_RE]: sign, integer digits, fraction digits,
    exponent (its sign and digits). *)
Record number : Type := Number {
  n_neg : bool;
  n_int : pystr;
  n_frac : option pystr;
  n_exp : option (bool * pystr)
}.

Definition match_integer (s : pystr) : option (bool * pystr * pystr) :=
  let '(neg, s1) := match s with
                    | c :: r => if c =? 45 then (true, r) else (false, s)
                    | [] => (false, s)
                    end in
  match s1 with
  | c :: r =>
      if c =? 48 then Some (neg, [48], r)
      else if (49 <=? c) && (c <=? 57)
      then let '(d, t) := span_digits r in Some (neg, c :: d, t)
      else None
  | [] => None
  end.

Definition match_frac (s : pystr) : option pystr * pystr :=
  match s with
  | c :: r =>
      if c =? 46 then
        match span_digits r with
        | ([], _) => (None, s)
        | (fd, t) => (Some fd, t)
        end
      else (None, s)
  | [] => (None, s)
  end.

Definition match_exp (s : pystr) : option (bool * pystr) * pystr :=
  match s with
  | c :: r =>
      if (c =? 101) || (c =? 69) then
        let '(eneg, r1) := match r with
                           | sg :: t => if sg =? 45 then (true, t)
                                        else if sg =? 43 then (false, t)
                                        else (false, r)
                           | [] => (false, r)
                           end in
        match span_digits r1 with
        | ([], _) => (None, s)
        | (ed, t) => (Some (eneg, ed), t)
        end
      else (None, s)
  | [] => (None, s)
  end.

(** [NUMBER_RE.match(s, idx)] with the C scanner's ASCII digits: an
    optional minus sign and either a single 0 or a digit 1-9 followed by
    any digits; then, optionally, a point and one or more digits; then,
    optionally, e or E, an optional sign and one or more digits. *)
Definition match_number (s : pystr) : option (number * pystr) :=
  match match_integer s with
  | None => None
  | Some (neg, ds, s2) =>
      let '(frac, s3) := match_frac s2 in
      let '(exp, s4) := match_exp s3 in
      Some (Number neg ds frac exp, s4)
  end.

(** [parse_float(integer + frac + exp)] when there is a fraction or an
    exponent, [parse_int(integer)] otherwise. *)
Definition number_value (n : number) : result py :=
  match n_frac n, n_exp n with
  | None, None =>
      match PyInt.of_literal (n_neg n) (n_int n) with
      | Ok z => Ok (PInt z)
      | Raise e => Raise e
      end
  | frac, exp =>
      Ok (PFloat (PyFloat.of_literal (n_neg n) (n_int n)
                    (match frac with Some fd => fd | None => [] end) exp))
  end.

Definition scanner := pystr -> option (result (py * pystr)).

(** The [while True] loop of [JSONArray], entered at the first character of
    a value; [fuel] bounds its iterations. *)
Fixpoint array_loop (scan_once : scanner) (fuel : nat) (s : pystr)
    (values : list py) : option (result (py * pystr)) :=
  match fuel with
  | O => None
  | S fuel' =>
      match scan_once s with
      | None => None
      | Some (Raise e) => Some (Raise e)
      | Some (Ok (value, s1)) =>
          let values := values ++ [value] in
          match skip_ws s1 with
          | c :: s2 =>
              if c =? 93 then Some (Ok (PList values, s2))
              else if c =? 44 then array_loop scan_once fuel' (skip_ws s2) values
              else Some (Raise JSONDecodeError)
          | [] => Some (Raise JSONDecodeError)
          end
      end
  end.

(** [JSONArray((s, end), scan_once)], entered after the opening bracket. *)
Definition JSONArray (scan_once : scanner) (s : pystr)
    : option (result (py * pystr)) :=
  match skip_ws s with
  | c :: r =>
      if c =? 93 then Some (Ok (PList [], r))
      else array_loop scan_once (S (length s)) (skip_ws s) []
  | [] => array_loop scan_once (S (length s)) [] []
  end.

(** The [while True] loop of [JSONObject], entered after the opening quote
    of a key. *)
Fixpoint object_loop (scan_once : scanner) (fuel : nat) (s : pystr)
    (pairs : list (pystr * py)) : option (result (py * pystr)) :=
  match fuel with
  | O => None
  | S fuel' =>
      match scanstring s [] with
      | Raise e => Some (Raise e)
      | Ok (key, s1) =>
          match skip_ws s1 with
          | c :: s2 =>
              if c =? 58 then
                match scan_once (skip_ws s2) with
                | None => None
                | Some (Raise e) => Some (Raise e)
                | Some (Ok (value, s3)) =>
                    let pairs := pairs ++ [(key, value)] in
                    match skip_ws s3 with
                    | d :: s4 =>
                        if d =? 125
                        then Some (Ok (PDict (dict_of_pairs pairs), s4))
                        else if d =? 44 then
                          match skip_ws s4 with
                          | q :: s5 =>
                              if q =? QUOTE
                              then object_loop scan_once fuel' s5 pairs
                              else Some (Raise JSONDecodeError)
                          | [] => Some (Raise JSONDecodeError)
                          end
                        else Some (Raise JSONDecodeError)
                    | [] => Some (Raise JSONDecodeError)
                    end
                end
              else Some (Raise JSONDecodeError)
          | [] => Some (Raise JSONDecodeError)
          end
      end
  end.

(** [JSONObject((s, end), strict, scan_once, ...)], entered after the
    opening brace. *)
Definition JSONObject (scan_once : scanner) (s : pystr)
    : option (result (py * pystr)) :=
  match skip_ws s with
  | c :: r =>
      if c =? 125 then Some (Ok (PDict [], r))
      else if c =? QUOTE then object_loop scan_once (S (length s)) r []
      else Some (Raise JSONDecodeError)
  | [] => Some (Raise JSONDecodeError)
  end.

Definition constant (name : string) (v : py) (s : pystr)
    : option (result (py * pystr)) :=
  match strip_prefix (lit name) s with
  | Some r => Some (Ok (v, r))
  | None => None
  end.

(** [scan_once(string, idx)]; [fuel] bounds the nesting depth, and [None]
    is the answer of a scanner that ran out of it.  A value that cannot
    start here ([StopIteration] in Python) is reported by the callers as
    "Expecting value". *)
Fixpoint scan_once (fuel : nat) (s : pystr) : option (result (py * pystr)) :=
  match fuel with
  | O => None
  | S fuel' =>
      match s with
      | [] => Some (Raise JSONDecodeError)
      | c :: r =>
          if c =? QUOTE then
            Some (match scanstring r [] with
                  | Ok (str, t) => Ok (PStr str, t)
                  | Raise e => Raise e
                  end)
          else if c =? 123 then JSONObject (scan_once fuel') r
          else if c =? 91 then JSONArray (scan_once fuel') r
          else
            match constant "null" PNone s with
            | Some v => Some v
            | None =>
            match constant "true" (PBool true) s with
            | Some v => Some v
            | None =>
            match constant "false" (PBool false) s with
            | Some v => Some v
            | None =>
            match match_number s with
            | Some (n, t) =>
                Some (match number_value n with
                      | Ok v => Ok (v, t)
                      | Raise e => Raise e
                      end)
            | None =>
            match constant "NaN" (PFloat S754_nan) s with
            | Some v => Some v
            | None =>
            match constant "Infinity" (PFloat (S754_infinity false)) s with
            | Some v => Some v
            | None =>
            match constant "-Infinity" (PFloat (S754_infinity true)) s with
            | Some v => Some v
            | None => Some (Raise JSONDecodeError)
            end end end end end end end
      end
  end.

(** [JSONDecoder.decode(s)]: one value between optional blanks and nothing
    after it ("Extra data" otherwise).  The nesting depth of a text is
    below its length, so the fuel given here never runs out
    (lemma [scan_once_fuel]). *)
Definition decode (s : pystr) : result py :=
  match scan_once (S (length s)) (skip_ws s) with
  | Some (Ok (obj, rest)) =>
      match skip_ws rest with
      | [] => Ok obj
      | _ :: _ => Raise JSONDecodeError
      end
  | Some (Raise e) => Raise e
  | None => Raise JSONDecodeError
  end.

(** [json.loads(s)] for a [str]: a leading U+FEFF is refused. *)
Definition loads (s : pystr) : result py :=
  match s with
  | c :: _ => if c =? 0xFEFF then Raise JSONDecodeError else decode s
  | [] => decode s
  end.

End Decoder.

(** ** [json.encoder], as [json.dump(..., ensure_ascii=False, indent=2)]
       configures it *)

Module Encoder.

Definition hex_char (d : Z) : Z := if d <? 10 then 48 + d else 87 + d.

(** [ESCAPE_DCT]: the replacement of a character that [ESCAPE] matches. *)
Definition ESCAPE_DCT (c : Z) : pystr :=
  if c =? BSLASH then [BSLASH; BSLASH]
  else if c =? QUOTE then [BSLASH; QUOTE]
  else if c =? 8 then [BSLASH; 98]
  else if c =? 12 then [BSLASH; 102]
  else if c =? 10 then [BSLASH; 110]
  else if c =? 13 then [BSLASH; 114]
  else if c =? 9 then [BSLASH; 116]
  else [BSLASH; 117; 48; 48; hex_char (c / 16); hex_char (c mod 16)].

(** The characters [ESCAPE] matches: controls below U+0020, the backslash
    and the double quote.  Nothing else is touched, whatever its code
    point. *)
Definition ESCAPE (c : Z) : bool :=
  ((0 <=? c) && (c <=? 0x1F)) || (c =? BSLASH) || (c =? QUOTE).

Definition replace (c : Z) : pystr := if ESCAPE c then ESCAPE_DCT c else [c].

(** [encode_basestring(s)], the string encoder under [ensure_ascii=False]. *)
Definition encode_basestring (s : pystr) : pystr :=
  QUOTE :: flat_map replace s ++ [QUOTE].

(** [indent=2]: [_indent = ' ' * 2]. *)
Definition _indent : pystr := repeat 32 2%nat.

(** ['\n' + _indent * _current_indent_level] *)
Definition newline_indent (level : nat) : pystr :=
  10 :: concat (repeat _indent level).

(** [_item_separator] and [_key_separator] when [indent] is given. *)
Definition _item_separator : pystr := [44].
Definition _key_separator : pystr := [58; 32].

(** A generator's output: the chunks it yields, or the exception raised
    where the next chunk was due (what follows is never produced). *)
Definition chunks := list (result pystr).

(** The text of a value that is written as a single chunk; [None] for a
    list or a dict.  This is the chain of [isinstance] tests that opens
    [_iterencode] and sits in both loops. *)
Definition scalar (o : py) : option (result pystr) :=
  match o with
  | PStr s => Some (Ok (encode_basestring s))
  | PNone => Some (Ok (lit "null"))
  | PBool true => Some (Ok (lit "true"))
  | PBool false => Some (Ok (lit "false"))
  | PInt z => Some (PyInt.repr z)
  | PFloat f => Some (Ok (PyFloat.floatstr f))
  | PList _ | PDict _ => None
  end.

Definition prepend (buf : pystr) (r : result pystr) : result pystr :=
  match r with
  | Ok t => Ok (buf ++ t)
  | Raise e => Raise e
  end.

Section Loops.

(** The generator a nested list or dict is handed to ([_iterencode_list]
    or [_iterencode_dict], one level deeper), and the separator of this
    level: [_item_separator + newline_indent]. *)
Variable nested : py -> chunks.
Variable separator : pystr.

(** What one round of the list loop yields: the text of a scalar straight
    after [buf], or [buf] and then the chunks of the nested container. *)
Definition value_chunks (buf : pystr) (value : py) : chunks :=
  match scalar value with
  | Some r => [prepend buf r]
  | None => Ok buf :: nested value
  end.

(** The loop [for value in lst] of [_iterencode_list]; [buf] holds the
    opening bracket and the first indentation, then the separator. *)
Fixpoint for_value (lst : list py) (buf : pystr) : chunks :=
  match lst with
  | [] => []
  | value :: rest => value_chunks buf value ++ for_value rest separator
  end.

(** What the dict loop yields for the value of a member. *)
Definition member_chunks (value : py) : chunks :=
  match scalar value with
  | Some r => [r]
  | None => nested value
  end.

(** The loop [for key, value in items] of [_iterencode_dict]. *)
Fixpoint for_item (items : list (pystr * py)) (first : bool) : chunks :=
  match items with
  | [] => []
  | (key, value) :: rest =>
      (if first then [] else [Ok separator])
      ++ [Ok (encode_basestring key); Ok _key_separator]
      ++ member_chunks value
      ++ for_item rest false
  end.

End Loops.

(** [_iterencode(o, _current_indent_level)] with its two local generators
    [_iterencode_list] and [_iterencode_dict]. *)
Fixpoint _iterencode (o : py) (level : nat) {struct o} : chunks :=
  match o with
  | PList [] => [Ok (lit "[]")]
  | PList lst =>
      for_value (fun value => _iterencode value (S level))
                (_item_separator ++ newline_indent (S level))
                lst (91 :: newline_indent (S level))
      ++ [Ok (newline_indent level); Ok [93]]
  | PDict [] => [Ok (lit "{}")]
  | PDict dct =>
      [Ok [123]; Ok (newline_indent (S level))]
      ++ for_item (fun value => _iterencode value (S level))
                  (_item_separator ++ newline_indent (S level))
                  dct true
      ++ [Ok (newline_indent level); Ok [125]]
  | _ =>
      match scalar o with
      | Some r => [r]
      | None => []
      end
  end.

(** [JSONEncoder(...).iterencode(o)] *)
Definition iterencode (o : py) : chunks := _iterencode o 0.

End Encoder.

(** ** Files, the console and the order of events *)

Inductive mode : Type := RD | WR.

Inductive event : Type :=
| Open (path : string) (m : mode)
| Close (path : string)
| Print (line : pystr).

(** The directory the script runs in (file name to content) and what has
    happened so far, oldest event first. *)
Record world : Type := World {
  disk : gmap string bytes;
  trace : list event
}.

Definition log (ev : event) (w : world) : world :=
  World (disk w) (trace w ++ [ev]).

(** A Python statement: it runs in a world, changes it, and completes with
    a value or with an exception. *)
Definition M (A : Type) : Type := world -> result A * world.

Definition ret {A} (a : A) : M A := fun w => (Ok a, w).
Definition raise {A} (e : exn) : M A := fun w => (Raise e, w).
Definition bind {A B} (c : M A) (k : A -> M B) : M B :=
  fun w => match c w with
           | (Ok a, w') => k a w'
           | (Raise e, w') => (Raise e, w')
           end.

Notation "'do' x <- c ; k" := (bind c (fun x => k))
  (at level 10, x name, c at level 100, k at level 200).
Notation "'run' c ; k" := (bind c (fun _ => k))
  (at level 10, c at level 100, k at level 200).

(** [open(path, "r", encoding="utf-8")] needs the file to exist;
    [open(path, "w", encoding="utf-8")] creates it or empties it. *)
Definition open (path : string) (m : mode) : M unit :=
  fun w =>
    match m with
    | RD =>
        match disk w !! path with
        | Some _ => (Ok tt, log (Open path RD) w)
        | None => (Raise FileNotFoundError, w)
        end
    | WR => (Ok tt, log (Open path WR) (World (<[path := []]> (disk w)) (trace w)))
    end.

Definition close (path : string) : M unit :=
  fun w => (Ok tt, log (Close path) w).

(** [with open(path, mode, encoding="utf-8") as f: body]: the file is
    closed when the body completes, also when it raises. *)
Definition with_open {A} (path : string) (m : mode) (body : M A) : M A :=
  fun w =>
    match open path m w with
    | (Raise e, w1) => (Raise e, w1)
    | (Ok _, w1) =>
        let '(r, w2) := body w1 in
        (r, snd (close path w2))
    end.

(** [f.read()] on a text file: the bytes decoded as UTF-8, line ends
    normalised. *)
Definition read (path : string) : M pystr :=
  fun w =>
    match disk w !! path with
    | None => (Raise FileNotFoundError, w)
    | Some b =>
        match Utf8.decode b with
        | Some s => (Ok (universal_newlines s), w)
        | None => (Raise UnicodeDecodeError, w)
        end
    end.

(** [f.write(chunk)] on a text file: the chunk is encoded as UTF-8 and
    joins the content; a chunk the codec refuses leaves the content as it
    was.  (The bytes reach the disk when the file is closed, which [with]
    does on every path.) *)
Definition write (path : string) (chunk : pystr) : M unit :=
  fun w =>
    match Utf8.encode chunk with
    | Some b =>
        (Ok tt, World (<[path := default [] (disk w !! path) ++ b]> (disk w))
                      (trace w))
    | None => (Raise UnicodeEncodeError, w)
    end.

Definition print (line : pystr) : M unit :=
  fun w => (Ok tt, log (Print line) w).

(** [json.load(f)] is [json.loads(f.read())]. *)
Definition json_load (f : string) : M py :=
  do s <- read f;
  match Decoder.loads s with
  | Ok v => ret v
  | Raise e => raise e
  end.

(** [for chunk in iterable: fp.write(chunk)] *)
Fixpoint write_chunks (f : string) (iterable : Encoder.chunks) : M unit :=
  match iterable with
  | [] => ret tt
  | Ok chunk :: rest => run write f chunk; write_chunks f rest
  | Raise e :: _ => raise e
  end.

(** [json.dump(obj, f, ensure_ascii=False, indent=2)] *)
Definition json_dump (obj : py) (f : string) : M unit :=
  write_chunks f (Encoder.iterencode obj).

(** ** The script *)

Local Open Scope string_scope.

Definition files : list string := [
  "core-phrase-list-01-request.json";
  "core-phrase-list-02-reject.json";
  "core-phrase-list-03-direct.json";
  "core-phrase-list-04-accept.json";
  "core-phrase-list-05-interact.json";
  "core-phrase-list-06-express.json";
  "core-phrase-list-07-comment.json";
  "core-phrase-list-08-ask.json"
].

Definition output_file : string := "core-phrase-list-all.json".

(** The loop [for file in files], with the list [merged] it appends to. *)
Fixpoint for_file_in (todo : list string) (merged : list py) : M (list py) :=
  match todo with
  | [] => ret merged
  | file :: rest =>
      do data <- with_open file RD (json_load file);
      for_file_in rest (merged ++ [data])
  end.

(** [f"Merged {len(files)} JSON files into {output_file}"] *)
Definition message : pystr :=
  (lit "Merged " ++ PyInt.to_str (Z.of_nat (length files))
   ++ lit " JSON files into " ++ lit output_file)%list.

Definition main : M unit :=
  do merged <- for_file_in files [];
  run with_open output_file WR (json_dump (PList merged) output_file);
  print message.

(** One run of the script in a directory holding [fs]. *)
Definition exec (fs : gmap string bytes) : result unit * world :=
  main (World fs []).

Local Close Scope string_scope.

(** ** Notions the statements are written in *)

(** What [with open(file, "r", encoding="utf-8") as f: data = json.load(f)]
    binds [data] to, or raises, in a directory holding [fs]. *)
Definition load (fs : gmap string bytes) (file : string) : result py :=
  match fs !! file with
  | None => Raise FileNotFoundError
  | Some b =>
      match Utf8.decode b with
      | None => Raise UnicodeDecodeError
      | Some s => Decoder.loads (universal_newlines s)
      end
  end.

(** Every file of [todo] is there and parses; [vs] are the documents. *)
Definition loaded (fs : gmap string bytes) (todo : list string)
    (vs : list py) : Prop :=
  Forall2 (fun f v => load fs f = Ok v) todo vs.

(** The events of reading the files of [todo] one after the other. *)
Definition reads (todo : list string) : list event :=
  flat_map (fun f => [Open f RD; Close f]) todo.

(** What consuming a generator with [fp.write] leaves in the file, and the
    exception that ended it, if any. *)
Fixpoint written (cs : Encoder.chunks) : bytes * option exn :=
  match cs with
  | [] => ([], None)
  | Ok c :: rest =>
      match Utf8.encode c with
      | Some b => let '(bs, e) := written rest in (b ++ bs, e)
      | None => ([], Some UnicodeEncodeError)
      end
  | Raise e :: _ => ([], Some e)
  end.

(** No surrogate code point (U+D800 .. U+DFFF) in any string or key. *)
Definition str_surrogate_free (s : pystr) : bool :=
  forallb (fun c => negb (Utf8.is_surrogate c)) s.

Fixpoint surrogate_free (o : py) : bool :=
  match o with
  | PStr s => str_surrogate_free s
  | PList l => forallb surrogate_free l
  | PDict d =>
      forallb (fun kv => str_surrogate_free (fst kv) && surrogate_free (snd kv)) d
  | _ => true
  end.

(** What the decoder guarantees of its results: strings made of code
    points, integers within the digit limit. *)
Definition is_code_point (c : Z) : bool := (0 <=? c) && (c <? 0x110000).

Definition int_ok (z : Z) : bool :=
  (Decimal.nb_digits (PyInt.abs_uint z) <=? PyInt.int_max_str_digits)%nat.

Fixpoint well_formed (o : py) : bool :=
  match o with
  | PInt z => int_ok z
  | PStr s => forallb is_code_point s
  | PList l => forallb well_formed l
  | PDict d =>
      forallb (fun kv => forallb is_code_point (fst kv) && well_formed (snd kv)) d
  | _ => true
  end.

(** [sep.join(parts)] *)
Fixpoint join (sep : pystr) (parts : list pystr) : pystr :=
  match parts with
  | [] => []
  | [x] => x
  | x :: rest => x ++ sep ++ join sep rest
  end.

(** The indented text of a document, written the way the documentation of
    [indent] describes it: every array element and object member on a line
    of its own, two spaces deeper per nesting level, a comma after each but
    the last, and the closing bracket back at the level of the opening
    line; empty containers as [[]] and [{}]. *)
Fixpoint pretty (o : py) (level : nat) : pystr :=
  match o with
  | PNone => lit "null"
  | PBool true => lit "true"
  | PBool false => lit "false"
  | PInt z => PyInt.to_str z
  | PFloat f => PyFloat.floatstr f
  | PStr s => Encoder.encode_basestring s
  | PList [] => lit "[]"
  | PList l =>
      [91] ++ Encoder.newline_indent (S level)
      ++ join (44 :: Encoder.newline_indent (S level))
              (map (fun v => pretty v (S level)) l)
      ++ Encoder.newline_indent level ++ [93]
  | PDict [] => lit "{}"
  | PDict d =>
      [123] ++ Encoder.newline_indent (S level)
      ++ join (44 :: Encoder.newline_indent (S level))
              (map (fun kv => Encoder.encode_basestring (fst kv) ++ [58; 32]
                              ++ pretty (snd kv) (S level)) d)
      ++ Encoder.newline_indent level ++ [125]
  end.

(** The text of the chunks a generator yields. *)
Fixpoint text_of (cs : Encoder.chunks) : pystr :=
  match cs with
  | [] => []
  | Ok c :: rest => c ++ text_of rest
  | Raise _ :: _ => []
  end.

Definition yields (r : result pystr) : Prop :=
  match r with
  | Ok _ => True
  | Raise _ => False
  end.

Definition failed {A} (r : result A) : Prop :=
  match r with
  | Ok _ => False
  | Raise _ => True
  end.

(** The events of the attempt to read [f]: it is opened (and closed) only
    if it exists. *)
Definition attempt (fs : gmap string bytes) (f : string) : list event :=
  match fs !! f with
  | Some _ => [Open f RD; Close f]
  | None => []
  end.

(** How a statement ends, given the exception that stopped it, if any. *)
Definition outcome (e : option exn) : result unit :=
  match e with
  | None => Ok tt
  | Some x => Raise x
  end.

(** ** Invariants used in the proofs *)

(** A text made of code points. *)
Definition cps (s : pystr) : Prop := Forall (fun c => 0 <= c < 0x110000) s.

Definition pair_wf (kv : pystr * py) : bool :=
  forallb is_code_point (fst kv) && well_formed (snd kv).

(** A scanner consumes at least one character of its input and returns
    well-formed documents. *)
Definition scan_sound (scan : Decoder.scanner) : Prop :=
  forall s v t, scan s = Some (Ok (v, t)) ->
    t `suffix_of` s /\ (length t < length s)%nat /\ (cps s -> well_formed v = true).

(** A scanner has fuel enough for every input shorter than [b]. *)
Definition scan_total (scan : Decoder.scanner) (b : nat) : Prop :=
  forall s, (length s < b)%nat -> scan s <> None.



(** A code point the UTF-8 codec accepts. *)
Definition encodable (c : Z) : Prop := Utf8.encode_char c <> None.

Definition ascii_text (s : pystr) : Prop := Forall (fun c => 0 <= c < 128) s.

(** The chunks of the element [v], produced by [nested] when it is a
    container, yield the text [P v]. *)
Definition item_ok (nested : py -> Encoder.chunks) (P : py -> pystr) (v : py)
    : Prop :=
  match Encoder.scalar v with
  | Some r => r = Ok (P v)
  | None => Forall yields (nested v) /\ text_of (nested v) = P v
  end.

(** The text of an object member: key, colon, space, value. *)
Definition member_text (P : py -> pystr) (kv : pystr * py) : pystr :=
  Encoder.encode_basestring (fst kv) ++ [58; 32] ++ P (snd kv).

(** ** Directories used as examples *)

(** A directory holding the eight input files with the given contents. *)
Definition directory (contents : list bytes) : gmap string bytes :=
  list_to_map (zip files contents).

Definition dir_a_to_h : gmap string bytes :=
  directory (map js ["['a']"; "['b']"; "['c']"; "['d']"; "['e']"; "['f']";
                     "['g']"; "['h']"]%string).

Definition docs_a_to_h : list py :=
  map (fun c => PList [PStr [c]]) [97; 98; 99; 100; 101; 102; 103; 104].









(** Phrases with characters outside ASCII, as UTF-8 bytes: "caf" and
    U+00E9; U+4F60 U+597D; U+1F600. *)
Definition bytes_accents : bytes :=
  js "['caf" ++ [0xC3; 0xA9] ++ js "', '" ++ [0xE4; 0xBD; 0xA0; 0xE5; 0xA5; 0xBD]
  ++ js "', '" ++ [0xF0; 0x9F; 0x98; 0x80] ++ js "']".

Definition dir_accents : gmap string bytes :=
  directory (bytes_accents
             :: map js ["['b']"; "['c']"; "['d']"; "['e']"; "['f']"; "['g']";
                        "['h']"]%string).

(** The bytes a run leaves in the output file once every input is read. *)
Definition dumped (vs : list py) : bytes :=
  fst (written (Encoder.iterencode (PList vs))).

(** Documents that are no lists of strings: an object, a number, a string,
    null, a boolean, a nested list, a float and an empty object. *)
Definition dir_any_shape : gmap string bytes :=
  directory (map js ["{'k': [1, null]}"; "42"; "'text'"; "null"; "true";
                     "[[], [0]]"; "-1.5e3"; "{}"]%string).

Definition docs_any_shape : list py :=
  [PDict [([107], PList [PInt 1; PNone])]; PInt 42; PStr [116; 101; 120; 116];
   PNone; PBool true; PList [PList []; PList [PInt 0]];
   PFloat (S754_finite true 6597069766656000 (-42)); PDict []].

(** Seven empty lists and, last, a document that is one string: an escaped
    lone low surrogate. *)
Definition dir_surrogate_last : gmap string bytes :=
  directory (map js ["[]"; "[]"; "[]"; "[]"; "[]"; "[]"; "[]"; "'\udfff'"]%string).

Definition docs_surrogate_last : list py :=
  [PList []; PList []; PList []; PList []; PList []; PList []; PList [];
   PStr [0xDFFF]].

(** What that run leaves in the output file: the opening bracket and the
    first seven elements, no closing bracket. *)
Definition text_cut_short : pystr := js "[
  [],
  [],
  [],
  [],
  [],
  [],
  []".

(** The output for [dir_accents]: the bytes of the three phrases stand in
    it as they stood in the input, nothing is escaped. *)
Definition text_accents : bytes :=
  js "[
  [
    'caf" ++ [0xC3; 0xA9] ++ js "',
    '" ++ [0xE4; 0xBD; 0xA0; 0xE5; 0xA5; 0xBD] ++ js "',
    '" ++ [0xF0; 0x9F; 0x98; 0x80] ++ js "'
  ],
  [
    'b'
  ],
  [
    'c'
  ],
  [
    'd'
  ],
  [
    'e'
  ],
  [
    'f'
  ],
  [
    'g'
  ],
  [
    'h'
  ]
]".

(** ** Notions for reading the output back and for the further properties *)

(** The character after a number in indented text: a line feed or a comma,
    or the end of the text. *)
Definition delimited (rest : pystr) : bool :=
  match rest with
  | [] => true
  | c :: _ => (c =? 10) || (c =? 44)
  end.

(** No [float] anywhere in the document. *)
Fixpoint float_free (o : py) : bool :=
  match o with
  | PFloat _ => false
  | PList l => forallb float_free l
  | PDict d => forallb (fun kv => float_free (snd kv)) d
  | _ => true
  end.

Definition has_key (d : list (pystr * py)) (k : pystr) : bool :=
  existsb (fun kv => str_eqb (fst kv) k) d.

Fixpoint unique_keys (d : list (pystr * py)) : bool :=
  match d with
  | [] => true
  | kv :: r => negb (has_key r (fst kv)) && unique_keys r
  end.

(** No [dict] of the document has a key twice. *)
Fixpoint keys_unique (o : py) : bool :=
  match o with
  | PList l => forallb keys_unique l
  | PDict d => unique_keys d && forallb (fun kv => keys_unique (snd kv)) d
  | _ => true
  end.


(** The first character of the text of a document is no blank, no closing
    bracket and no byte order mark. *)
Definition starts_a_value (s : pystr) : Prop :=
  exists c t, s = c :: t /\ Decoder.is_ws c = false /\ (c =? 93) = false /\
              (c =? 0xFEFF) = false.

(** What the loops need of an element [v] at nesting level [level]: its
    text starts a value, and the scanner reads it back whatever delimiter
    follows. *)
Definition reads_back (scan : Decoder.scanner) (level : nat) (v : py) : Prop :=
  starts_a_value (pretty v (S level)) /\
  forall rest, delimited rest = true ->
    scan (pretty v (S level) ++ rest) = Some (Ok (v, rest)).

Definition member_reads_back (scan : Decoder.scanner) (level : nat)
    (kv : pystr * py) : Prop :=
  Forall (fun c => 0 <= c) (fst kv) /\ reads_back scan level (snd kv).

(** A scanner returns documents whose objects have no key twice. *)
Definition scan_keys (scan : Decoder.scanner) : Prop :=
  forall s v t, scan s = Some (Ok (v, t)) -> keys_unique v = true.

(** A text without a carriage return. *)
Definition no_cr (s : pystr) : Prop := Forall (fun c => c <> 13) s.

(** The files a trace opens are closed again, in order and one at a time:
    [opened] is the file that is open before the trace starts, if any; no
    file is opened while another is open, a file is closed only while it is
    the open one, and none is left open at the end. *)
Fixpoint one_file_at_a_time (opened : option string) (tr : list event) : bool :=
  match tr, opened with
  | [], None => true
  | [], Some _ => false
  | Open p _ :: r, None => one_file_at_a_time (Some p) r
  | Open _ _ :: _, Some _ => false
  | Close q :: r, Some p => String.eqb p q && one_file_at_a_time None r
  | Close _ :: _, None => false
  | Print _ :: r, _ => one_file_at_a_time opened r
  end.

(** A text without backslash and without surrogate: nothing in it is an
    escape, and every character can be encoded. *)
Definition unescaped (s : pystr) : Prop :=
  Forall (fun c => c <> BSLASH /\ Utf8.is_surrogate c = false) s.

(** A scanner returns documents without surrogates when the text has no
    escape. *)
Definition scan_unescaped (scan : Decoder.scanner) : Prop :=
  forall s v t, unescaped s -> scan s = Some (Ok (v, t)) -> surrogate_free v = true.

Definition pair_surrogate_free (kv : pystr * py) : bool :=
  str_surrogate_free (fst kv) && surrogate_free (snd kv).

(** No backslash among the bytes of a file, and none in any of the input
    files that exist. *)
Definition no_backslash (bs : bytes) : bool :=
  forallb (fun b => negb (b =? BSLASH)) bs.

Definition inputs_unescaped (fs : gmap string bytes) : bool :=
  forallb (fun f => match fs !! f with
                    | Some bs => no_backslash bs
                    | None => true
                    end) files.

(** A text with every line feed turned into carriage return and line feed,
    the line ends of a file saved on Windows. *)
Definition crlf (s : pystr) : pystr :=
  flat_map (fun c => if c =? 10 then [13; 10] else [c]) s.

(** Records with an integer and a list of phrases, and documents of other
    shapes; no float among them. *)
Definition dir_phrase_records : gmap string bytes :=
  directory (map js ["{'id': 1, 'phrases': ['hola', 'adios']}";
                     "{'id': 2, 'phrases': []}"; "[]"; "{}";
                     "[-7, 0, 12345678901234567890]"; "'text'"; "null";
                     "[true, false]"]%string).

Definition docs_phrase_records : list py :=
  [PDict [(lit "id", PInt 1);
          (lit "phrases", PList [PStr (lit "hola"); PStr (lit "adios")])];
   PDict [(lit "id", PInt 2); (lit "phrases", PList [])];
   PList []; PDict [];
   PList [PInt (-7); PInt 0; PInt 12345678901234567890];
   PStr (lit "text"); PNone; PList [PBool true; PBool false]].

(** The phrases, the first file saved with a byte order mark. *)
Definition dir_byte_order_mark : gmap string bytes :=
  directory ((0xEF :: 0xBB :: 0xBF :: js "['a']")
             :: map js ["['b']"; "['c']"; "['d']"; "['e']"; "['f']"; "['g']";
                        "['h']"]%string).

(** The phrases, the third file empty. *)
Definition dir_empty_file : gmap string bytes :=
  directory (map js ["['a']"; "['b']"]%string
             ++ [] :: map js ["['d']"; "['e']"; "['f']"; "['g']"; "['h']"]%string).

(** The phrases, the first file an object that gives the key a twice. *)
Definition dir_key_twice : gmap string bytes :=
  directory (map js ["{'a': 1, 'b': 2, 'a': 3}"; "['b']"; "['c']"; "['d']";
                     "['e']"; "['f']"; "['g']"; "['h']"]%string).

(** An object with a nested list, an astral character, a line feed and a
    quote in a string, and an empty key. *)
Definition doc_nested : py :=
  PDict [(lit "k", PList [PInt (-12); PNone; PStr [0x1F600; 10; 34]]);
         ([], PDict [])].

(** A string with a lone surrogate, a quote, a backslash, a line feed, a
    NUL, an astral character and an accented letter. *)
Definition str_awkward : pystr := [0xD83D; 34; 92; 10; 0; 0x1F600; 233].



(** The phrases of [dir_a_to_h] spelled otherwise: blanks and line breaks
    around the brackets, a letter written as an escape. *)
Definition dir_a_to_h_spaced : gmap string bytes :=
  directory (map js ["[ '\u0061' ]"; " ['b']"; "['c'] "; "[
'd'
]"; "['e']"; "[  'f']"; "['g']"; "['h']"]%string).

(** * Proofs *)

(** ** The decoder: what it consumes, what it returns, what it raises *)

Ltac break_hyp H :=
  repeat match type of H with
         | context [match ?x with _ => _ end] =>
             let E := fresh "E" in destruct x eqn:E; try discriminate H
         end.

Ltac peel H := first [exact H | apply suffix_cons_r; peel H].
Ltac peel_refl := first [reflexivity | apply suffix_cons_r; peel_refl].


Lemma skip_ws_suffix s : Decoder.skip_ws s `suffix_of` s.
Proof.
  induction s as [|c r IH]; simpl; [done|].
  destruct (Decoder.is_ws c); [by apply suffix_cons_r | done].
Qed.

Lemma hex_digit_range c x : Decoder.hex_digit c = Some x -> 0 <= x < 16.
Proof.
  unfold Decoder.hex_digit. intros H. break_hyp H; inversion H; subst; lia.
Qed.

Lemma decode_uXXXX_range a b c d x :
  Decoder.decode_uXXXX a b c d = Some x -> 0 <= x < 65536.
Proof.
  unfold Decoder.decode_uXXXX. intros H. break_hyp H. inversion H; subst.
  repeat match goal with
         | E : Decoder.hex_digit _ = Some _ |- _ => apply hex_digit_range in E
         end.
  lia.
Qed.

Lemma BACKSLASH_range esc ch : Decoder.BACKSLASH esc = Some ch -> 0 <= ch < 128.
Proof.
  unfold Decoder.BACKSLASH, QUOTE, BSLASH. intros H.
  break_hyp H; inversion H; subst; lia.
Qed.

Lemma cps_tail_n s t : t `suffix_of` s -> cps s -> cps t.
Proof. intros [pre ->] H. unfold cps in *. by apply Forall_app in H as [_ H]. Qed.

Lemma cps_snoc s c : cps s -> 0 <= c < 0x110000 -> cps (s ++ [c]).
Proof. intros. apply Forall_app. split; [done | by constructor]. Qed.

Lemma cps_head c s : cps (c :: s) -> 0 <= c < 0x110000.
Proof. intros H. by inversion H. Qed.

Lemma scanstring_spec n : forall s chunks str t,
  (length s <= n)%nat ->
  Decoder.scanstring s chunks = Ok (str, t) ->
  t `suffix_of` s /\ (length t < length s)%nat /\ (cps s -> cps chunks -> cps str).
Proof.
  induction n as [|n IH]; intros s chunks str t Hn H.
  - destruct s; [discriminate | simpl in Hn; lia].
  - destruct s as [|c r]; [discriminate|].
    simpl in H.
    break_hyp H; subst; simpl in Hn.
    all: try (injection H as <- <-; split; [by apply suffix_cons_r|split; [simpl; lia|done]]).
    all: apply IH in H; [|simpl; lia]; destruct H as (Hs & Hl & Hc).
    all: split; [peel Hs|split; [simpl in *; lia|]].
    all: intros Hcs Hch; apply Hc; [eapply cps_tail_n; [|exact Hcs]; peel_refl|].
    all: apply cps_snoc; [done|].
    all: repeat match goal with
         | E : Decoder.decode_uXXXX _ _ _ _ = Some _ |- _ => apply decode_uXXXX_range in E
         | E : Decoder.BACKSLASH _ = Some _ |- _ => apply BACKSLASH_range in E
         | E : (_ && _) = true |- _ => apply andb_prop in E as [? ?]
         end; try lia.
    all: try (apply cps_head in Hcs; lia).
Qed.

Lemma span_digits_app s : forall d t, Decoder.span_digits s = (d, t) -> s = d ++ t.
Proof.
  induction s as [|c r IH]; simpl; intros d t H.
  - by injection H as <- <-.
  - destruct (PyInt.is_digit c).
    + destruct (Decoder.span_digits r) as [d' t'] eqn:E.
      injection H as <- <-. simpl. f_equal. by apply IH.
    + by injection H as <- <-.
Qed.

Lemma span_digits_suffix s d t : Decoder.span_digits s = (d, t) -> t `suffix_of` s.
Proof. intros H. apply span_digits_app in H. by exists d. Qed.

Lemma suffix_length_le (t s : pystr) : t `suffix_of` s -> (length t <= length s)%nat.
Proof. intros [pre ->]. rewrite length_app. lia. Qed.

Lemma match_integer_spec s neg ds t :
  Decoder.match_integer s = Some (neg, ds, t) ->
  t `suffix_of` s /\ (length t < length s)%nat.
Proof.
  unfold Decoder.match_integer. intros H.
  destruct s as [|c r]; [discriminate|].
  destruct (c =? 45).
  - destruct r as [|c' r']; [discriminate|].
    destruct (c' =? 48).
    + injection H as <- <- <-. split; [by do 2 apply suffix_cons_r | simpl; lia].
    + destruct ((49 <=? c') && (c' <=? 57)); [|discriminate].
      destruct (Decoder.span_digits r') as [d t'] eqn:E.
      injection H as <- <- <-. apply span_digits_suffix in E.
      split; [by do 2 apply suffix_cons_r|].
      apply suffix_length_le in E. simpl. lia.
  - destruct (c =? 48).
    + injection H as <- <- <-. split; [by apply suffix_cons_r | simpl; lia].
    + destruct ((49 <=? c) && (c <=? 57)); [|discriminate].
      destruct (Decoder.span_digits r) as [d t'] eqn:E.
      injection H as <- <- <-. apply span_digits_suffix in E.
      split; [by apply suffix_cons_r|].
      apply suffix_length_le in E. simpl. lia.
Qed.

Lemma match_frac_suffix s f t : Decoder.match_frac s = (f, t) -> t `suffix_of` s.
Proof.
  unfold Decoder.match_frac. intros H.
  destruct s as [|c r]; [by injection H as <- <-|].
  destruct (c =? 46); [|by injection H as <- <-].
  destruct (Decoder.span_digits r) as [d t'] eqn:E.
  apply span_digits_suffix in E.
  destruct d; injection H as <- <-; [done | by apply suffix_cons_r].
Qed.

Lemma match_exp_suffix s x t : Decoder.match_exp s = (x, t) -> t `suffix_of` s.
Proof.
  unfold Decoder.match_exp. intros H.
  destruct s as [|c r]; [by injection H as <- <-|].
  destruct ((c =? 101) || (c =? 69)); [|by injection H as <- <-].
  destruct r as [|sg r'].
  - simpl in H. by injection H as <- <-.
  - destruct (sg =? 45).
    + destruct (Decoder.span_digits r') as [d t'] eqn:E.
      apply span_digits_suffix in E.
      destruct d; injection H as <- <-; [done | by do 2 apply suffix_cons_r].
    + destruct (sg =? 43).
      * destruct (Decoder.span_digits r') as [d t'] eqn:E.
        apply span_digits_suffix in E.
        destruct d; injection H as <- <-; [done | by do 2 apply suffix_cons_r].
      * destruct (Decoder.span_digits (sg :: r')) as [d t'] eqn:E.
        apply span_digits_suffix in E.
        destruct d; injection H as <- <-; [done | by apply suffix_cons_r].
Qed.

Lemma match_number_spec s n t :
  Decoder.match_number s = Some (n, t) ->
  t `suffix_of` s /\ (length t < length s)%nat.
Proof.
  unfold Decoder.match_number. intros H.
  destruct (Decoder.match_integer s) as [[[neg ds] s2]|] eqn:E1; [|discriminate].
  destruct (Decoder.match_frac s2) as [frac s3] eqn:E2.
  destruct (Decoder.match_exp s3) as [exp s4] eqn:E3.
  injection H as <- <-.
  apply match_integer_spec in E1 as [Hs Hl].
  apply match_frac_suffix in E2. apply match_exp_suffix in E3.
  split; [by etrans; [|etrans]|].
  apply suffix_length_le in E2, E3. lia.
Qed.

Lemma nb_digits_chars_uint s : Decimal.nb_digits (PyInt.chars_uint s) = length s.
Proof.
  induction s as [|c r IH]; [done|]. simpl.
  destruct (c - 48) as [|p|p]; simpl; try (by rewrite IH).
  do 4 (destruct p as [p|p|]; simpl; try (by rewrite IH)).
Qed.

Lemma nb_digits_nzhead_le u : (Decimal.nb_digits (Decimal.nzhead u) <= Decimal.nb_digits u)%nat.
Proof. apply nb_digits_nzhead. Qed.

Lemma int_ok_of_literal neg ds z :
  PyInt.of_literal neg ds = Ok z -> int_ok z = true.
Proof.
  unfold PyInt.of_literal, int_ok, PyInt.abs_uint, PyInt.digits_value.
  destruct (PyInt.int_max_str_digits <? length ds)%nat eqn:E; [discriminate|].
  apply Nat.ltb_ge in E. intros [= <-]. apply Nat.leb_le.
  rewrite <- (nb_digits_chars_uint ds) in E.
  set (u := PyInt.chars_uint ds) in *.
  assert (H1 : (1 <= PyInt.int_max_str_digits)%nat) by (unfold PyInt.int_max_str_digits; lia).
  pose proof (nb_digits_nzhead u) as Hnz.
  destruct neg.
  - change (- Z.of_uint u) with (Z.of_int (Decimal.Neg u)).
    rewrite DecimalZ.to_of. simpl.
    destruct (Decimal.nzhead u) eqn:En; simpl in *; lia.
  - change (Z.of_uint u) with (Z.of_int (Decimal.Pos u)).
    rewrite DecimalZ.to_of. simpl. unfold Decimal.unorm.
    destruct (Decimal.nzhead u) eqn:En; simpl in *; lia.
Qed.

Lemma number_value_wf n v : Decoder.number_value n = Ok v -> well_formed v = true.
Proof.
  unfold Decoder.number_value. intros H.
  destruct (Decoder.n_frac n), (Decoder.n_exp n); try (by injection H as <-).
  destruct (PyInt.of_literal (Decoder.n_neg n) (Decoder.n_int n)) eqn:E; [|discriminate].
  injection H as <-. simpl. by eapply int_ok_of_literal.
Qed.

Lemma strip_prefix_app p : forall s r, strip_prefix p s = Some r -> s = p ++ r.
Proof.
  induction p as [|x p IH]; intros s r H; simpl in *.
  - by injection H as <-.
  - destruct s as [|y s]; [discriminate|].
    destruct (x =? y) eqn:E; [|discriminate].
    apply Z.eqb_eq in E as ->. f_equal. by apply IH.
Qed.

Lemma constant_spec name v s r :
  name <> EmptyString ->
  Decoder.constant name v s = Some r ->
  exists t, r = Ok (v, t) /\ t `suffix_of` s /\ (length t < length s)%nat.
Proof.
  unfold Decoder.constant. intros Hne H.
  destruct (strip_prefix (lit name) s) as [t|] eqn:E; [|discriminate].
  injection H as <-. exists t. split; [done|].
  apply strip_prefix_app in E. subst s.
  split; [by eexists|].
  rewrite length_app. destruct name; [done|]. simpl. lia.
Qed.

Lemma cps_forallb s : cps s -> forallb is_code_point s = true.
Proof.
  intros H. apply forallb_forall. intros c Hc.
  unfold cps in H. rewrite Forall_forall in H.
  apply list_elem_of_In, H in Hc. unfold is_code_point.
  apply andb_true_intro. split; [apply Z.leb_le | apply Z.ltb_lt]; lia.
Qed.

Lemma dict_setitem_wf d k v :
  forallb pair_wf d = true -> pair_wf (k, v) = true ->
  forallb pair_wf (dict_setitem d k v) = true.
Proof.
  intros Hd Hkv. induction d as [|[k' v'] r IH]; simpl in *.
  - by rewrite Hkv.
  - apply andb_prop in Hd as [H1 H2]. destruct (str_eqb k' k); simpl.
    + unfold pair_wf in *. simpl in *.
      apply andb_prop in H1 as [H1 _]. apply andb_prop in Hkv as [_ Hv].
      by rewrite H1, Hv, H2.
    + by rewrite H1, IH.
Qed.

Lemma dict_of_pairs_wf pairs :
  forallb pair_wf pairs = true -> forallb pair_wf (dict_of_pairs pairs) = true.
Proof.
  unfold dict_of_pairs.
  assert (G : forall acc, forallb pair_wf acc = true -> forallb pair_wf pairs = true ->
              forallb pair_wf (fold_left (fun d kv => dict_setitem d (fst kv) (snd kv)) pairs acc) = true).
  { induction pairs as [|[k v] r IH]; intros acc Ha Hp; simpl in *; [done|].
    apply andb_prop in Hp as [H1 H2]. apply IH; [|done]. by apply dict_setitem_wf. }
  by apply G.
Qed.

Section DecoderLoops.
Variable scan : Decoder.scanner.
Hypothesis sound : scan_sound scan.

Lemma array_loop_sound n : forall s vals v t,
  Decoder.array_loop scan n s vals = Some (Ok (v, t)) ->
  t `suffix_of` s /\ (length t < length s)%nat /\
  (cps s -> forallb well_formed vals = true -> well_formed v = true).
Proof.
  induction n as [|n IH]; intros s vals v t H; [discriminate|].
  simpl in H.
  destruct (scan s) as [[[value s1]|e]|] eqn:E; try discriminate.
  apply sound in E as (Hs1 & Hl1 & Hw1).
  pose proof (skip_ws_suffix s1) as Hws.
  destruct (Decoder.skip_ws s1) as [|c s2] eqn:E2; [discriminate|].
  assert (Hs2 : s2 `suffix_of` s) by (etrans; [by apply suffix_cons_r|by etrans]).
  assert (Hl2 : (length s2 < length s)%nat).
  { apply suffix_length_le in Hws. simpl in Hws. lia. }
  assert (Hv : cps s -> forallb well_formed vals = true ->
               forallb well_formed (vals ++ [value]) = true).
  { intros Hc Hf. rewrite forallb_app, Hf. simpl. by rewrite Hw1. }
  destruct (c =? 93).
  - injection H as <- <-. repeat split; [done..|]. simpl. auto.
  - destruct (c =? 44); [|discriminate].
    apply IH in H as (Hs & Hl & Hw).
    pose proof (skip_ws_suffix s2) as Hws2.
    split; [by etrans; [|etrans]|].
    split; [apply suffix_length_le in Hws2; lia|].
    intros Hc Hf. apply Hw; [|by apply Hv].
    eapply cps_tail_n; [|exact Hc]. by etrans.
Qed.

Lemma object_loop_sound n : forall s pairs v t,
  Decoder.object_loop scan n s pairs = Some (Ok (v, t)) ->
  t `suffix_of` s /\ (length t < length s)%nat /\
  (cps s -> forallb pair_wf pairs = true -> well_formed v = true).
Proof.
  induction n as [|n IH]; intros s pairs v t H; [discriminate|].
  simpl in H.
  destruct (Decoder.scanstring s []) as [[key s1]|e] eqn:Ek; [|discriminate].
  apply (scanstring_spec (length s)) in Ek as (Hs1 & Hl1 & Hk); [|done].
  pose proof (skip_ws_suffix s1) as Hws1.
  destruct (Decoder.skip_ws s1) as [|c s2] eqn:E2; [discriminate|].
  destruct (c =? 58); [|discriminate].
  pose proof (skip_ws_suffix s2) as Hws2.
  destruct (scan (Decoder.skip_ws s2)) as [[[value s3]|e]|] eqn:E; try discriminate.
  apply sound in E as (Hs3 & Hl3 & Hw3).
  pose proof (skip_ws_suffix s3) as Hws3.
  destruct (Decoder.skip_ws s3) as [|d s4] eqn:E4; [discriminate|].
  assert (Hs2 : s2 `suffix_of` s) by (etrans; [by apply suffix_cons_r|by etrans]).
  assert (Hs4 : s4 `suffix_of` s).
  { etrans; [by apply suffix_cons_r|]. etrans; [exact Hws3|].
    etrans; [exact Hs3|]. by etrans. }
  assert (Hl4 : (length s4 < length s)%nat).
  { apply suffix_length_le in Hws1, Hws2, Hws3. simpl in *. lia. }
  assert (Hp : cps s -> forallb pair_wf pairs = true ->
               forallb pair_wf (pairs ++ [(key, value)]) = true).
  { intros Hc Hf. rewrite forallb_app, Hf. simpl. unfold pair_wf at 1. simpl.
    rewrite cps_forallb; [|by apply Hk; [|constructor]].
    rewrite Hw3; [done|]. eapply cps_tail_n; [|exact Hc]. by etrans. }
  destruct (d =? 125).
  - injection H as <- <-. repeat split; [done..|].
    intros Hc Hf. simpl. by apply dict_of_pairs_wf, Hp.
  - destruct (d =? 44); [|discriminate].
    pose proof (skip_ws_suffix s4) as Hws4.
    destruct (Decoder.skip_ws s4) as [|q s5] eqn:E5; [discriminate|].
    destruct (q =? QUOTE); [|discriminate].
    apply IH in H as (Hs & Hl & Hw).
    assert (Hs5 : s5 `suffix_of` s).
    { etrans; [by apply suffix_cons_r|]. by etrans. }
    split; [by etrans|].
    split; [apply suffix_length_le in Hws4; simpl in *; lia|].
    intros Hc Hf. apply Hw; [|by apply Hp].
    eapply cps_tail_n; [|exact Hc]. done.
Qed.

Lemma JSONArray_sound s v t :
  Decoder.JSONArray scan s = Some (Ok (v, t)) ->
  t `suffix_of` s /\ (length t < length s)%nat /\ (cps s -> well_formed v = true).
Proof.
  unfold Decoder.JSONArray. intros H.
  pose proof (skip_ws_suffix s) as Hws.
  destruct (Decoder.skip_ws s) as [|c r] eqn:E.
  - apply array_loop_sound in H as (_ & Hl & _). simpl in Hl. lia.
  - destruct (c =? 93).
    + injection H as <- <-. apply suffix_length_le in Hws as Hl. simpl in Hl.
      split; [etrans; [by apply suffix_cons_r|done]|]. split; [lia|done].
    + apply array_loop_sound in H as (Hs & Hl & Hw).
      split; [by etrans|]. split; [apply suffix_length_le in Hws; lia|].
      intros Hc. apply Hw; [|done]. by eapply cps_tail_n.
Qed.

Lemma JSONObject_sound s v t :
  Decoder.JSONObject scan s = Some (Ok (v, t)) ->
  t `suffix_of` s /\ (length t < length s)%nat /\ (cps s -> well_formed v = true).
Proof.
  unfold Decoder.JSONObject. intros H.
  pose proof (skip_ws_suffix s) as Hws.
  destruct (Decoder.skip_ws s) as [|c r] eqn:E; [discriminate|].
  apply suffix_length_le in Hws as Hl. simpl in Hl.
  assert (Hr : r `suffix_of` s) by (etrans; [by apply suffix_cons_r|done]).
  destruct (c =? 125).
  - injection H as <- <-. split; [done|]. split; [lia|done].
  - destruct (c =? QUOTE); [|discriminate].
    apply object_loop_sound in H as (Hs & Hl' & Hw).
    split; [by etrans|]. split; [lia|].
    intros Hc. apply Hw; [|done]. by eapply cps_tail_n.
Qed.

Variable b : nat.
Hypothesis total : scan_total scan b.

Lemma array_loop_total n : forall s vals,
  (length s < n)%nat -> (length s < b)%nat ->
  Decoder.array_loop scan n s vals <> None.
Proof.
  induction n as [|n IH]; intros s vals Hn Hb; [lia|].
  simpl.
  destruct (scan s) as [[[value s1]|e]|] eqn:E; [| done | by apply total in E].
  apply sound in E as (Hs1 & Hl1 & _).
  pose proof (skip_ws_suffix s1) as Hws.
  destruct (Decoder.skip_ws s1) as [|c s2] eqn:E2; [done|].
  destruct (c =? 93); [done|]. destruct (c =? 44); [|done].
  pose proof (skip_ws_suffix s2) as Hws2.
  apply suffix_length_le in Hws, Hws2. simpl in Hws.
  apply IH; lia.
Qed.

Lemma object_loop_total n : forall s pairs,
  (length s < n)%nat -> (length s < b)%nat ->
  Decoder.object_loop scan n s pairs <> None.
Proof.
  induction n as [|n IH]; intros s pairs Hn Hb; [lia|].
  simpl.
  destruct (Decoder.scanstring s []) as [[key s1]|e] eqn:Ek; [|done].
  apply (scanstring_spec (length s)) in Ek as (Hs1 & Hl1 & _); [|done].
  pose proof (skip_ws_suffix s1) as Hws1. apply suffix_length_le in Hws1.
  destruct (Decoder.skip_ws s1) as [|c s2] eqn:E2; [done|]. simpl in Hws1.
  destruct (c =? 58); [|done].
  pose proof (skip_ws_suffix s2) as Hws2. apply suffix_length_le in Hws2.
  destruct (scan (Decoder.skip_ws s2)) as [[[value s3]|e]|] eqn:E;
    [| done | apply total in E; [done | lia]].
  apply sound in E as (Hs3 & Hl3 & _).
  pose proof (skip_ws_suffix s3) as Hws3. apply suffix_length_le in Hws3.
  destruct (Decoder.skip_ws s3) as [|d s4] eqn:E4; [done|]. simpl in Hws3.
  destruct (d =? 125); [done|]. destruct (d =? 44); [|done].
  pose proof (skip_ws_suffix s4) as Hws4. apply suffix_length_le in Hws4.
  destruct (Decoder.skip_ws s4) as [|q s5] eqn:E5; [done|]. simpl in Hws4.
  destruct (q =? QUOTE); [|done].
  apply IH; lia.
Qed.

Lemma JSONArray_total s : (length s < b)%nat -> Decoder.JSONArray scan s <> None.
Proof.
  unfold Decoder.JSONArray. intros Hb.
  pose proof (skip_ws_suffix s) as Hws. apply suffix_length_le in Hws.
  destruct (Decoder.skip_ws s) as [|c r] eqn:E.
  - apply array_loop_total; simpl; lia.
  - destruct (c =? 93); [done|]. apply array_loop_total; lia.
Qed.

Lemma JSONObject_total s : (length s < b)%nat -> Decoder.JSONObject scan s <> None.
Proof.
  unfold Decoder.JSONObject. intros Hb.
  pose proof (skip_ws_suffix s) as Hws. apply suffix_length_le in Hws.
  destruct (Decoder.skip_ws s) as [|c r] eqn:E; [done|]. simpl in Hws.
  destruct (c =? 125); [done|]. destruct (c =? QUOTE); [|done].
  apply object_loop_total; lia.
Qed.
End DecoderLoops.

Lemma scan_once_sound fuel : scan_sound (Decoder.scan_once fuel).
Proof.
  induction fuel as [|fuel IH]; intros s v t H; [discriminate|].
  simpl in H. destruct s as [|c r]; [discriminate|].
  destruct (c =? QUOTE).
  { destruct (Decoder.scanstring r []) as [[str t']|e] eqn:E; [|discriminate].
    injection H as <- <-.
    apply (scanstring_spec (length r)) in E as (Hs & Hl & Hc); [|done].
    split; [by apply suffix_cons_r|]. split; [simpl; lia|].
    intros Hcs. simpl. apply cps_forallb, Hc; [|constructor].
    eapply cps_tail_n; [|exact Hcs]. by apply suffix_cons_r. }
  destruct (c =? 123).
  { apply (JSONObject_sound _ IH) in H as (Hs & Hl & Hw).
    split; [by apply suffix_cons_r|]. split; [simpl; lia|].
    intros Hcs. apply Hw. eapply cps_tail_n; [|exact Hcs]. by apply suffix_cons_r. }
  destruct (c =? 91).
  { apply (JSONArray_sound _ IH) in H as (Hs & Hl & Hw).
    split; [by apply suffix_cons_r|]. split; [simpl; lia|].
    intros Hcs. apply Hw. eapply cps_tail_n; [|exact Hcs]. by apply suffix_cons_r. }
  repeat match type of H with
  | match Decoder.constant ?n ?x ?s with _ => _ end = _ =>
      let E := fresh "E" in
      destruct (Decoder.constant n x s) eqn:E;
      [ apply constant_spec in E as (t' & -> & Hs & Hl); [|done];
        injection H as <- <-; by repeat split
      | clear E ]
  | match Decoder.match_number ?s with _ => _ end = _ =>
      let E := fresh "E" in
      destruct (Decoder.match_number s) as [[n t']|] eqn:E;
      [ apply match_number_spec in E as (Hs & Hl);
        destruct (Decoder.number_value n) eqn:En; [|discriminate];
        injection H as <- <-; repeat split; [done..|];
        intros _; by eapply number_value_wf
      | clear E ]
  end.
  discriminate.
Qed.

Lemma scan_once_fuel fuel : scan_total (Decoder.scan_once fuel) fuel.
Proof.
  induction fuel as [|fuel IH]; intros s Hl; [lia|].
  simpl. destruct s as [|c r]; [done|]. simpl in Hl.
  destruct (c =? QUOTE); [done|].
  destruct (c =? 123).
  { eapply JSONObject_total; [apply scan_once_sound | exact IH | lia]. }
  destruct (c =? 91).
  { eapply JSONArray_total; [apply scan_once_sound | exact IH | lia]. }
  repeat match goal with
  | |- match ?x with _ => _ end <> None => destruct x; try done
  end.
Qed.

Lemma utf8_decode_cps n : forall b s,
  (length b <= n)%nat -> Utf8.decode b = Some s -> cps s.
Proof.
  induction n as [|n IH]; intros b s Hn H.
  - destruct b; [|simpl in Hn; lia]. injection H as <-. constructor.
  - destruct b as [|b0 r]; [injection H as <-; constructor|].
    simpl in H. unfold Utf8.between, Utf8.cont in H.
    break_hyp H; subst; simpl in Hn;
      match type of H with
      | option_map _ ?d = _ =>
          let E := fresh "E" in
          destruct d eqn:E; [|discriminate H];
          apply IH in E; [|simpl; lia];
          injection H as <-; constructor; [|exact E]
      end.
    all: repeat match goal with
         | E : (_ && _) = true |- _ => apply andb_prop in E as [? ?]
         | E : (_ <=? _) = true |- _ => apply Z.leb_le in E
         | E : (_ =? _) = true |- _ => apply Z.eqb_eq in E
         | E : (_ =? _) = false |- _ => apply Z.eqb_neq in E
         end; try lia.
    all: repeat match goal with
         | H : context [if ?b then _ else _] |- _ => destruct b eqn:?
         end;
         repeat match goal with
         | E : (_ =? _) = true |- _ => apply Z.eqb_eq in E
         | E : (_ =? _) = false |- _ => apply Z.eqb_neq in E
         end; lia.
Qed.

Lemma universal_newlines_cps n : forall s,
  (length s <= n)%nat -> cps s -> cps (universal_newlines s).
Proof.
  induction n as [|n IH]; intros s Hn H.
  - destruct s; [constructor | simpl in Hn; lia].
  - destruct s as [|c r]; [constructor|]. simpl.
    inversion H as [|? ? Hc Hr]; subst. simpl in Hn.
    destruct (c =? 13).
    + destruct r as [|d r']; [by repeat constructor|].
      inversion Hr; subst.
      destruct (d =? 10); (constructor; [lia|]); apply IH; simpl in *; try lia; done.
    + constructor; [done|]. apply IH; [lia | done].
Qed.

Lemma decode_well_formed s v :
  cps s -> Decoder.decode s = Ok v -> well_formed v = true.
Proof.
  unfold Decoder.decode. intros Hc H.
  destruct (Decoder.scan_once (S (length s)) (Decoder.skip_ws s))
    as [[[obj rest]|e]|] eqn:E; try discriminate.
  destruct (Decoder.skip_ws rest); [|discriminate]. injection H as <-.
  apply scan_once_sound in E as (_ & _ & Hw). apply Hw.
  eapply cps_tail_n; [apply skip_ws_suffix | done].
Qed.

Lemma loads_well_formed s v :
  cps s -> Decoder.loads s = Ok v -> well_formed v = true.
Proof.
  unfold Decoder.loads. intros Hc H.
  destruct s as [|c r]; [by eapply decode_well_formed|].
  destruct (c =? 65279); [discriminate|]. by eapply decode_well_formed.
Qed.

Lemma load_well_formed fs f v : load fs f = Ok v -> well_formed v = true.
Proof.
  unfold load. intros H.
  destruct (fs !! f) as [b|]; [|discriminate].
  destruct (Utf8.decode b) as [s|] eqn:E; [|discriminate].
  eapply loads_well_formed; [|exact H].
  eapply universal_newlines_cps; [done|]. by eapply utf8_decode_cps.
Qed.

(** The fuel [decode] gives the scanner is never used up. *)
Lemma decode_fuel s :
  Decoder.scan_once (S (length s)) (Decoder.skip_ws s) <> None.
Proof.
  apply scan_once_fuel.
  pose proof (skip_ws_suffix s) as H. apply suffix_length_le in H. lia.
Qed.

(** *** Which exceptions the decoder raises *)








(** *** Encoding *)

Lemma encodable_iff c :
  encodable c <-> 0 <= c < 0x110000 /\ Utf8.is_surrogate c = false.
Proof.
  unfold encodable, Utf8.encode_char, Utf8.is_surrogate.
  repeat match goal with
  | |- context [if ?b then _ else _] => destruct b eqn:?
  end;
  repeat match goal with
  | E : (_ && _) = true |- _ => apply andb_prop in E as [? ?]
  | E : (_ && _) = false |- _ => apply andb_false_iff in E as [?|?]
  | E : (_ <=? _) = true |- _ => apply Z.leb_le in E
  | E : (_ <=? _) = false |- _ => apply Z.leb_gt in E
  | E : (_ <? _) = true |- _ => apply Z.ltb_lt in E
  | E : (_ <? _) = false |- _ => apply Z.ltb_ge in E
  end; split; try done; try lia; intros [? ?]; try lia; try done.
Qed.

Lemma encode_Some s : Forall encodable s <-> Utf8.encode s <> None.
Proof.
  induction s as [|c r IH]; simpl; [split; [done | constructor]|].
  split.
  - intros H. inversion H as [|? ? Hc Hr]; subst. apply IH in Hr.
    unfold encodable in Hc.
    destruct (Utf8.encode_char c); [|done]. by destruct (Utf8.encode r).
  - intros H. constructor.
    + unfold encodable. by destruct (Utf8.encode_char c).
    + apply IH. destruct (Utf8.encode_char c); [|done]. by destruct (Utf8.encode r).
Qed.

Lemma encode_app a b :
  Utf8.encode (a ++ b) =
  match Utf8.encode a, Utf8.encode b with
  | Some x, Some y => Some (x ++ y)
  | _, _ => None
  end.
Proof.
  induction a as [|c r IH]; simpl.
  - by destruct (Utf8.encode b).
  - rewrite IH. destruct (Utf8.encode_char c); [|done].
    destruct (Utf8.encode r); [|done]. destruct (Utf8.encode b); [|done].
    by rewrite app_assoc.
Qed.

Lemma text_of_app a b :
  Forall yields a -> text_of (a ++ b) = text_of a ++ text_of b.
Proof.
  induction 1 as [|r a Hr Ha IH]; [done|]. simpl.
  destruct r; [|done]. by rewrite IH, app_assoc.
Qed.

Lemma written_yields cs :
  Forall yields cs ->
  written cs = match Utf8.encode (text_of cs) with
               | Some bs => (bs, None)
               | None => (fst (written cs), Some UnicodeEncodeError)
               end.
Proof.
  induction 1 as [|r cs Hr Hcs IH]; [done|].
  destruct r as [c|]; [|done]. simpl. rewrite encode_app.
  destruct (Utf8.encode c) as [b|]; [|done].
  rewrite IH. by destruct (Utf8.encode (text_of cs)).
Qed.

Lemma py_ind' (P : py -> Prop) :
  P PNone -> (forall b, P (PBool b)) -> (forall z, P (PInt z)) ->
  (forall f, P (PFloat f)) -> (forall s, P (PStr s)) ->
  (forall l, Forall P l -> P (PList l)) ->
  (forall d, Forall (fun kv => P (snd kv)) d -> P (PDict d)) ->
  forall o, P o.
Proof.
  intros HN HB HI HF HS HL HD. fix IH 1.
  intros [|b|z|f|s|l|d];
    [apply HN | apply HB | apply HI | apply HF | apply HS | apply HL | apply HD].
  - induction l as [|x l IHl]; constructor; [apply IH | exact IHl].
  - induction d as [|[k v] d IHd]; constructor; [apply IH | exact IHd].
Qed.

Lemma repr_int_ok z : int_ok z = true -> PyInt.repr z = Ok (PyInt.to_str z).
Proof.
  unfold int_ok, PyInt.repr. intros H. apply Nat.leb_le in H.
  destruct (Nat.ltb_spec PyInt.int_max_str_digits
              (Decimal.nb_digits (PyInt.abs_uint z))); [lia | done].
Qed.

Lemma scalar_pretty v r level :
  well_formed v = true -> Encoder.scalar v = Some r -> r = Ok (pretty v level).
Proof.
  destruct v as [|[]|z|f|s|l|d]; simpl; intros Hw [= <-]; try done.
  by apply repr_int_ok.
Qed.

Section EncoderLoops.
Variable nested : py -> Encoder.chunks.
Variable P : py -> pystr.
Variable sep : pystr.

Lemma for_value_cons v rest buf :
  Encoder.for_value nested sep (v :: rest) buf =
  Encoder.value_chunks nested buf v ++ Encoder.for_value nested sep rest sep.
Proof. reflexivity. Qed.

Lemma for_item_cons k v rest first :
  Encoder.for_item nested sep ((k, v) :: rest) first =
  (if first then [] else [Ok sep])
  ++ [Ok (Encoder.encode_basestring k); Ok Encoder._key_separator]
  ++ Encoder.member_chunks nested v ++ Encoder.for_item nested sep rest false.
Proof. reflexivity. Qed.

Lemma value_chunks_text buf v :
  item_ok nested P v ->
  Forall yields (Encoder.value_chunks nested buf v) /\ text_of (Encoder.value_chunks nested buf v) = buf ++ P v.
Proof.
  unfold item_ok, Encoder.value_chunks. destruct (Encoder.scalar v) as [r|].
  - intros ->. simpl. split; [by repeat constructor | by rewrite app_nil_r].
  - intros [Hy Ht]. simpl. split; [by constructor | by rewrite Ht].
Qed.

Lemma member_chunks_text v :
  item_ok nested P v ->
  Forall yields (Encoder.member_chunks nested v) /\ text_of (Encoder.member_chunks nested v) = P v.
Proof.
  unfold item_ok, Encoder.member_chunks. destruct (Encoder.scalar v) as [r|].
  - intros ->. simpl. split; [by repeat constructor | by rewrite app_nil_r].
  - done.
Qed.

Lemma for_value_text l : Forall (item_ok nested P) l -> forall buf,
  Forall yields (Encoder.for_value nested sep l buf) /\
  text_of (Encoder.for_value nested sep l buf) =
    match l with [] => [] | _ => buf ++ join sep (map P l) end.
Proof.
  induction 1 as [|v rest Hv Hrest IH]; intros buf; [by split|].
  destruct (IH sep) as [Hy Ht].
  destruct (value_chunks_text buf v Hv) as [Hy1 Ht1].
  rewrite for_value_cons.
  split; [by apply Forall_app|].
  rewrite text_of_app, Ht1, Ht by done.
  destruct rest as [|v' rest']; simpl; [by rewrite app_nil_r|].
  by rewrite <- !app_assoc.
Qed.

Lemma for_item_text d : Forall (fun kv => item_ok nested P (snd kv)) d -> forall first,
  Forall yields (Encoder.for_item nested sep d first) /\
  text_of (Encoder.for_item nested sep d first) =
    match d with
    | [] => []
    | _ => (if first then [] else sep) ++ join sep (map (member_text P) d)
    end.
Proof.
  induction 1 as [|[k v] rest Hv Hrest IH]; intros first; [by split|].
  destruct (IH false) as [Hy Ht]. simpl in Hv.
  destruct (member_chunks_text v Hv) as [Hy1 Ht1].
  rewrite for_item_cons.
  assert (Hk : forall x, Forall yields x ->
            text_of ([Ok (Encoder.encode_basestring k); Ok Encoder._key_separator] ++ x)
            = Encoder.encode_basestring k ++ Encoder._key_separator ++ text_of x)
    by done.
  assert (Hm : Forall yields (Encoder.member_chunks nested v ++ Encoder.for_item nested sep rest false))
    by (by apply Forall_app).
  assert (Hb : text_of ([Ok (Encoder.encode_basestring k); Ok Encoder._key_separator]
                        ++ Encoder.member_chunks nested v ++ Encoder.for_item nested sep rest false)
               = join sep (map (member_text P) ((k, v) :: rest))).
  { rewrite Hk, text_of_app, Ht1, Ht by done.
    unfold member_text, Encoder._key_separator. simpl fst. simpl snd.
    destruct rest as [|kv' rest']; simpl; [by rewrite !app_nil_r|].
    by rewrite <- !app_assoc. }
  destruct first.
  - split; [|exact Hb]. simpl. do 2 (constructor; [done|]). exact Hm.
  - split.
    + simpl. do 3 (constructor; [done|]). exact Hm.
    + change (text_of ([Ok sep] ++ ?x)) with (sep ++ text_of x). by rewrite Hb.
Qed.
End EncoderLoops.

Lemma text_of_two a b : text_of [Ok a; Ok b] = a ++ b.
Proof. simpl. by rewrite app_nil_r. Qed.

Lemma iterencode_pretty o : forall level,
  well_formed o = true ->
  Forall yields (Encoder._iterencode o level) /\
  text_of (Encoder._iterencode o level) = pretty o level.
Proof.
  induction o as [|b|z|f|s|l IH|d IH] using py_ind'; intros level Hw;
    try (simpl; split; [by repeat constructor | by rewrite ?app_nil_r]).
  - destruct b; simpl; split; by repeat constructor.
  - simpl in *. rewrite repr_int_ok by done. split; [by repeat constructor|].
    simpl. by rewrite ?app_nil_r.
  - destruct l as [|v l']; [simpl; split; by repeat constructor|].
    assert (Hl : Forall (item_ok (fun x => Encoder._iterencode x (S level))
                                 (fun x => pretty x (S level))) (v :: l')).
    { simpl in Hw. change (forallb well_formed (v :: l') = true) in Hw.
      rewrite forallb_forall in Hw. rewrite Forall_forall in IH |- *.
      intros x Hx. unfold item_ok.
      destruct (Encoder.scalar x) as [r|] eqn:E.
      - eapply scalar_pretty; [|done]. by apply Hw, list_elem_of_In.
      - apply IH; [done|]. by apply Hw, list_elem_of_In. }
    eapply for_value_text in Hl as [Hy Ht].
    change (Encoder._iterencode (PList (v :: l')) level) with
      (Encoder.for_value (fun value => Encoder._iterencode value (S level))
         (Encoder._item_separator ++ Encoder.newline_indent (S level))
         (v :: l') (91 :: Encoder.newline_indent (S level))
       ++ [Ok (Encoder.newline_indent level); Ok [93]]).
    split; [apply Forall_app; split; [exact Hy | by repeat constructor]|].
    rewrite text_of_app, Ht by exact Hy.
    change (pretty (PList (v :: l')) level) with
      ([91] ++ Encoder.newline_indent (S level)
       ++ join (44 :: Encoder.newline_indent (S level))
               (map (fun x => pretty x (S level)) (v :: l'))
       ++ Encoder.newline_indent level ++ [93]).
    rewrite text_of_two. unfold Encoder._item_separator.
    by rewrite <- app_assoc.
  - destruct d as [|kv d']; [simpl; split; by repeat constructor|].
    assert (Hl : Forall (fun kv => item_ok (fun x => Encoder._iterencode x (S level))
                                 (fun x => pretty x (S level)) (snd kv)) (kv :: d')).
    { simpl in Hw.
      change (forallb (fun kv => forallb is_code_point (fst kv) && well_formed (snd kv))
                (kv :: d') = true) in Hw.
      rewrite forallb_forall in Hw. rewrite Forall_forall in IH |- *.
      intros x Hx. unfold item_ok.
      apply list_elem_of_In in Hx as Hx'. apply Hw in Hx'.
      apply andb_prop in Hx' as [_ Hx'].
      destruct (Encoder.scalar (snd x)) as [r|] eqn:E.
      - by eapply scalar_pretty.
      - by apply IH. }
    eapply for_item_text in Hl as [Hy Ht].
    change (Encoder._iterencode (PDict (kv :: d')) level) with
      ([Ok [123]; Ok (Encoder.newline_indent (S level))]
       ++ Encoder.for_item (fun value => Encoder._iterencode value (S level))
            (Encoder._item_separator ++ Encoder.newline_indent (S level))
            (kv :: d') true
       ++ [Ok (Encoder.newline_indent level); Ok [125]]).
    split.
    { apply Forall_app; split; [by repeat constructor|].
      apply Forall_app; split; [exact Hy | by repeat constructor]. }
    change (text_of ([Ok [123]; Ok (Encoder.newline_indent (S level))] ++ ?x)) with
      ([123] ++ Encoder.newline_indent (S level) ++ text_of x).
    rewrite text_of_app, Ht by exact Hy.
    change (pretty (PDict (kv :: d')) level) with
      ([123] ++ Encoder.newline_indent (S level)
       ++ join (44 :: Encoder.newline_indent (S level))
               (map (fun kv => Encoder.encode_basestring (fst kv) ++ [58; 32]
                               ++ pretty (snd kv) (S level)) (kv :: d'))
       ++ Encoder.newline_indent level ++ [125]).
    rewrite text_of_two. unfold Encoder._item_separator, member_text.
    reflexivity.
Qed.

Lemma ascii_char_encodable c : 0 <= c < 128 -> encodable c.
Proof.
  intros Hc. apply encodable_iff. split; [lia|]. unfold Utf8.is_surrogate.
  apply andb_false_iff. left. apply Z.leb_gt. lia.
Qed.

Lemma ascii_encodable s : ascii_text s -> Forall encodable s.
Proof.
  intros H. eapply Forall_impl; [exact H|]. intros c Hc.
  by apply ascii_char_encodable.
Qed.

Lemma uint_chars_ascii u : ascii_text (PyInt.uint_chars u).
Proof. induction u; simpl; constructor; (lia || done). Qed.

Lemma to_str_ascii z : ascii_text (PyInt.to_str z).
Proof.
  unfold PyInt.to_str. apply Forall_app. split; [|apply uint_chars_ascii].
  destruct (z <? 0); repeat constructor; lia.
Qed.

Lemma repeat_ascii c n : 0 <= c < 128 -> ascii_text (repeat c n).
Proof. intros Hc. induction n; simpl; constructor; done. Qed.

Lemma newline_indent_ascii level : ascii_text (Encoder.newline_indent level).
Proof.
  unfold Encoder.newline_indent. constructor; [lia|].
  induction level; simpl; [constructor|].
  repeat (constructor; [lia|]). exact IHlevel.
Qed.

Ltac ascii_tac :=
  repeat first
    [ apply Forall_nil
    | apply uint_chars_ascii
    | apply repeat_ascii; lia
    | apply Forall_take
    | apply Forall_drop
    | apply Forall_app; split
    | apply Forall_cons; split; [try lia|] ].

Lemma repr_finite_ascii neg m e : ascii_text (PyFloat.repr_finite neg m e).
Proof.
  unfold PyFloat.repr_finite, PyFloat.repeat0.
  destruct (PyFloat.shortest _ _ _ _ _ _ _) as [dd pp].
  destruct (PyFloat.strip_zeros _ _ _) as [d p].
  unfold ascii_text.
  repeat match goal with
         | |- context [if ?b then _ else _] => destruct b
         end; ascii_tac; done.
Qed.

Lemma floatstr_ascii f : ascii_text (PyFloat.floatstr f).
Proof.
  destruct f as [[]|[]| |s m e]; simpl;
    try (unfold ascii_text; ascii_tac; done).
  apply repr_finite_ascii.
Qed.

Lemma ESCAPE_DCT_ascii c : Encoder.ESCAPE c = true -> ascii_text (Encoder.ESCAPE_DCT c).
Proof.
  unfold Encoder.ESCAPE, Encoder.ESCAPE_DCT, Encoder.hex_char, BSLASH, QUOTE.
  intros H.
  repeat match goal with
         | |- context [if ?b then _ else _] => destruct b eqn:?
         end; unfold ascii_text; ascii_tac; try done.
  all: repeat match goal with
         | E : (_ || _) = true |- _ => apply orb_prop in E as [E|E]
         | E : (_ && _) = true |- _ => apply andb_prop in E as [? ?]
         | E : (_ <=? _) = true |- _ => apply Z.leb_le in E
         | E : (_ <? _) = true |- _ => apply Z.ltb_lt in E
         | E : (_ <? _) = false |- _ => apply Z.ltb_ge in E
         | E : (_ =? _) = true |- _ => apply Z.eqb_eq in E
         | E : (_ =? _) = false |- _ => apply Z.eqb_neq in E
         end; try lia.
  all: try (assert (0 <= c / 16 < 2) by (split; [apply Z.div_pos; lia | apply Z.div_lt_upper_bound; lia]); lia).
  all: try (pose proof (Z.mod_pos_bound c 16 ltac:(lia)); lia).
Qed.

Lemma replace_encodable c :
  0 <= c < 0x110000 ->
  Forall encodable (Encoder.replace c) <-> Utf8.is_surrogate c = false.
Proof.
  intros Hc. unfold Encoder.replace.
  destruct (Encoder.ESCAPE c) eqn:E.
  - split.
    + intros _. unfold Encoder.ESCAPE, Utf8.is_surrogate, BSLASH, QUOTE in *.
      apply andb_false_iff. left. apply Z.leb_gt.
      repeat match goal with
         | E : (_ || _) = true |- _ => apply orb_prop in E as [E|E]
         | E : (_ && _) = true |- _ => apply andb_prop in E as [? ?]
         | E : (_ <=? _) = true |- _ => apply Z.leb_le in E
         | E : (_ =? _) = true |- _ => apply Z.eqb_eq in E
         end; lia.
    + intros _. by apply ascii_encodable, ESCAPE_DCT_ascii.
  - split.
    + intros H. inversion H as [|? ? H1 _]; subst. by apply encodable_iff in H1 as [_ ?].
    + intros H. constructor; [|constructor]. by apply encodable_iff.
Qed.

Lemma flat_map_replace_encodable s :
  cps s ->
  Forall encodable (flat_map Encoder.replace s) <-> str_surrogate_free s = true.
Proof.
  induction 1 as [|c r Hc Hr IH]; simpl; [done|].
  rewrite Forall_app, IH, replace_encodable, andb_true_iff, negb_true_iff by done.
  done.
Qed.

Lemma encode_basestring_encodable s :
  cps s ->
  Forall encodable (Encoder.encode_basestring s) <-> str_surrogate_free s = true.
Proof.
  intros Hc. unfold Encoder.encode_basestring.
  rewrite Forall_cons, Forall_app, flat_map_replace_encodable by done.
  assert (Hq : encodable QUOTE) by (apply encodable_iff; done).
  split; [by intros (_ & ? & _) | intros ?; repeat split; [done..|by repeat constructor]].
Qed.

Lemma join_Forall (Q : Z -> Prop) sep parts :
  Forall Q sep ->
  Forall Q (join sep parts) <-> Forall (Forall Q) parts.
Proof.
  intros Hsep. induction parts as [|x rest IH]; [done|].
  destruct rest as [|y rest'].
  - simpl. rewrite Forall_cons. split; [by intros ?; split | by intros [? _]].
  - change (join sep (x :: y :: rest')) with (x ++ sep ++ join sep (y :: rest')).
    rewrite !Forall_app, IH, (Forall_cons _ x). tauto.
Qed.

Lemma cps_of_forallb s : forallb is_code_point s = true -> cps s.
Proof.
  intros H. rewrite forallb_forall in H. apply Forall_forall. intros c Hc.
  apply list_elem_of_In, H in Hc. unfold is_code_point in Hc.
  apply andb_prop in Hc as [H1 H2]. apply Z.leb_le in H1. apply Z.ltb_lt in H2. lia.
Qed.

Lemma forallb_Forall {A} (f : A -> bool) l :
  forallb f l = true <-> Forall (fun x => f x = true) l.
Proof.
  rewrite forallb_forall, Forall_forall.
  split; intros H x Hx; apply H; by apply list_elem_of_In.
Qed.

Lemma pretty_encodable o : forall level,
  well_formed o = true ->
  Forall encodable (pretty o level) <-> surrogate_free o = true.
Proof.
  induction o as [|b|z|f|s|l IH|d IH] using py_ind'; intros level Hw.
  - split; [done|]. intros _. apply ascii_encodable. unfold ascii_text. simpl. ascii_tac; done.
  - split; [done|]. intros _. apply ascii_encodable. unfold ascii_text.
    destruct b; simpl; ascii_tac; done.
  - split; [done|]. intros _. apply ascii_encodable, to_str_ascii.
  - split; [done|]. intros _. apply ascii_encodable, floatstr_ascii.
  - simpl in *. apply encode_basestring_encodable. by apply cps_of_forallb.
  - destruct l as [|v l']; [split; [done|]; intros _; apply ascii_encodable;
                            unfold ascii_text; simpl; ascii_tac; done|].
    change (pretty (PList (v :: l')) level) with
      ([91] ++ Encoder.newline_indent (S level)
       ++ join (44 :: Encoder.newline_indent (S level))
               (map (fun x => pretty x (S level)) (v :: l'))
       ++ Encoder.newline_indent level ++ [93]).
    change (surrogate_free (PList (v :: l'))) with (forallb surrogate_free (v :: l')).
    change (well_formed (PList (v :: l'))) with (forallb well_formed (v :: l')) in Hw.
    pose proof (ascii_encodable _ (newline_indent_ascii level)) as Hn0.
    pose proof (ascii_encodable _ (newline_indent_ascii (S level))) as Hn1.
    pose proof ascii_char_encodable as Hc.
    rewrite !Forall_app, join_Forall by (constructor; [apply Hc; lia | done]).
    rewrite Forall_map, forallb_Forall.
    rewrite forallb_Forall in Hw.
    assert (Hiff : Forall (fun x => Forall encodable (pretty x (S level))) (v :: l')
                   <-> Forall (fun x => surrogate_free x = true) (v :: l')).
    { rewrite !Forall_forall. rewrite Forall_forall in IH, Hw.
      split; intros H x Hx; specialize (IH x Hx (S level) (Hw x Hx));
        specialize (H x Hx); tauto. }
    rewrite Hiff. split; [tauto|]. intros H. repeat split; try done.
    all: repeat constructor; apply Hc; lia.
  - destruct d as [|kv d']; [split; [done|]; intros _; apply ascii_encodable;
                             unfold ascii_text; simpl; ascii_tac; done|].
    change (pretty (PDict (kv :: d')) level) with
      ([123] ++ Encoder.newline_indent (S level)
       ++ join (44 :: Encoder.newline_indent (S level))
               (map (fun kv => Encoder.encode_basestring (fst kv) ++ [58; 32]
                               ++ pretty (snd kv) (S level)) (kv :: d'))
       ++ Encoder.newline_indent level ++ [125]).
    change (surrogate_free (PDict (kv :: d'))) with
      (forallb (fun kv => str_surrogate_free (fst kv) && surrogate_free (snd kv)) (kv :: d')).
    change (well_formed (PDict (kv :: d'))) with
      (forallb (fun kv => forallb is_code_point (fst kv) && well_formed (snd kv)) (kv :: d')) in Hw.
    pose proof (ascii_encodable _ (newline_indent_ascii level)) as Hn0.
    pose proof (ascii_encodable _ (newline_indent_ascii (S level))) as Hn1.
    pose proof ascii_char_encodable as Hc.
    rewrite !Forall_app, join_Forall by (constructor; [apply Hc; lia | done]).
    rewrite Forall_map, forallb_Forall.
    rewrite forallb_Forall in Hw.
    assert (Hiff : Forall (fun x => Forall encodable
                             (Encoder.encode_basestring (fst x) ++ [58; 32]
                              ++ pretty (snd x) (S level))) (kv :: d')
                   <-> Forall (fun x => str_surrogate_free (fst x) && surrogate_free (snd x) = true)
                         (kv :: d')).
    { rewrite !Forall_forall. rewrite Forall_forall in IH, Hw.
      split; intros H x Hx; specialize (H x Hx); specialize (Hw x Hx);
        apply andb_prop in Hw as [Hk Hv]; specialize (IH x Hx (S level) Hv);
        apply cps_of_forallb in Hk;
        pose proof (encode_basestring_encodable _ Hk) as Hkk.
      - rewrite !Forall_app in H. apply andb_true_intro. tauto.
      - apply andb_prop in H as [? ?]. rewrite !Forall_app.
        repeat split; [tauto| |tauto].
        repeat constructor; apply Hc; lia. }
    rewrite Hiff. split; [tauto|]. intros H. repeat split; try done.
    all: repeat constructor; apply Hc; lia.
Qed.

(** *** The statements of the script, one by one *)

Lemma with_open_load f w :
  with_open f RD (json_load f) w =
  (load (disk w) f, World (disk w) (trace w ++ attempt (disk w) f)).
Proof.
  unfold with_open, open, json_load, read, bind, load, attempt, close, log.
  destruct w as [fs tr]. simpl.
  destruct (fs !! f) as [b|] eqn:E; simpl; [|by rewrite app_nil_r].
  rewrite E. destruct (Utf8.decode b) as [s|]; simpl; [|by rewrite <- app_assoc].
  destruct (Decoder.loads (universal_newlines s)); simpl; by rewrite <- app_assoc.
Qed.

Lemma attempt_loaded fs f v : load fs f = Ok v -> attempt fs f = [Open f RD; Close f].
Proof. unfold load, attempt. by destruct (fs !! f). Qed.

Lemma for_file_in_ok todo : forall vs merged w,
  loaded (disk w) todo vs ->
  for_file_in todo merged w =
  (Ok (merged ++ vs), World (disk w) (trace w ++ reads todo)).
Proof.
  induction todo as [|f rest IH]; intros vs merged w H.
  - inversion H; subst. simpl. unfold ret. rewrite !app_nil_r. by destruct w.
  - inversion H as [|? v ? vs' Hv Hrest]; subst.
    simpl. unfold bind. rewrite with_open_load, Hv.
    rewrite (IH vs') by done. simpl.
    rewrite (attempt_loaded _ _ _ Hv), <- !app_assoc. done.
Qed.

Lemma for_file_in_fail pre : forall f post vs e merged w,
  loaded (disk w) pre vs -> load (disk w) f = Raise e ->
  for_file_in (pre ++ f :: post) merged w =
  (Raise e, World (disk w) (trace w ++ reads pre ++ attempt (disk w) f)).
Proof.
  induction pre as [|g pre IH]; intros f post vs e merged w H He.
  - simpl. unfold bind. by rewrite with_open_load, He.
  - inversion H as [|? v ? vs' Hv Hrest]; subst.
    simpl. unfold bind. rewrite with_open_load, Hv.
    rewrite (IH f post vs' e) by done. simpl.
    rewrite (attempt_loaded _ _ _ Hv), <- !app_assoc. done.
Qed.

Lemma loaded_or_not fs todo :
  (exists vs, loaded fs todo vs) \/
  (exists pre f post vs e,
     todo = pre ++ f :: post /\ loaded fs pre vs /\ load fs f = Raise e).
Proof.
  induction todo as [|f rest IH].
  - left. exists []. constructor.
  - destruct (load fs f) as [v|e] eqn:E.
    + destruct IH as [[vs H]|(pre & g & post & vs & e & -> & Hp & He)].
      * left. exists (v :: vs). by constructor.
      * right. exists (f :: pre), g, post, (v :: vs), e.
        split; [done|]. split; [by constructor | done].
    + right. exists [], f, rest, [], e. split; [done|]. split; [constructor | done].
Qed.



Lemma write_chunks_spec f cs : forall w old,
  disk w !! f = Some old ->
  write_chunks f cs w =
  (outcome (snd (written cs)),
   World (<[f := old ++ fst (written cs)]> (disk w)) (trace w)).
Proof.
  induction cs as [|[c|e] rest IH]; intros w old Hf; simpl.
  - unfold ret. rewrite app_nil_r, insert_id by done. by destruct w.
  - unfold bind, write. rewrite Hf. destruct (Utf8.encode c) as [b|] eqn:E.
    + rewrite (IH _ (old ++ b)); [|by apply lookup_insert_eq].
      destruct (written rest) as [bs err]. cbn [fst snd disk trace default from_option id].
      rewrite insert_insert_eq.
      by replace ((old ++ b) ++ bs) with (old ++ b ++ bs) by apply app_assoc.
    + simpl. rewrite app_nil_r, insert_id by done. by destruct w.
  - unfold raise. rewrite app_nil_r, insert_id by done. by destruct w.
Qed.

Lemma with_open_dump o w :
  with_open output_file WR (json_dump o output_file) w =
  (outcome (snd (written (Encoder.iterencode o))),
   World (<[output_file := fst (written (Encoder.iterencode o))]> (disk w))
         (trace w ++ [Open output_file WR; Close output_file])).
Proof.
  unfold with_open, open, json_dump. simpl.
  rewrite (write_chunks_spec _ _ _ []); [|simpl; by rewrite lookup_insert_eq].
  simpl. rewrite insert_insert_eq. unfold log. simpl. by rewrite <- app_assoc.
Qed.

Lemma exec_loaded fs vs :
  loaded fs files vs ->
  exec fs =
  let '(bs, err) := written (Encoder.iterencode (PList vs)) in
  (outcome err,
   World (<[output_file := bs]> fs)
         (reads files ++ [Open output_file WR; Close output_file]
          ++ match err with None => [Print message] | Some _ => [] end)).
Proof.
  intros H. unfold exec, main, bind.
  rewrite (for_file_in_ok files vs) by done. simpl app.
  rewrite with_open_dump. simpl disk. simpl trace.
  destruct (written (Encoder.iterencode (PList vs))) as [bs [e|]]; simpl.
  - done.
  - done.
Qed.

Lemma exec_not_loaded fs pre f post vs e :
  files = pre ++ f :: post -> loaded fs pre vs -> load fs f = Raise e ->
  exec fs = (Raise e, World fs (reads pre ++ attempt fs f)).
Proof.
  intros Hf Hp He. unfold exec, main, bind. rewrite Hf.
  by rewrite (for_file_in_fail pre f post vs e).
Qed.

(** ** What a run does *)

Lemma output_not_input : output_file ∉ files.
Proof.
  unfold files. rewrite !not_elem_of_cons. repeat split; try discriminate.
  apply not_elem_of_nil.
Qed.

Lemma load_ext fs fs' f : fs' !! f = fs !! f -> load fs' f = load fs f.
Proof. unfold load. by intros ->. Qed.

Lemma attempt_ext fs fs' f : fs' !! f = fs !! f -> attempt fs' f = attempt fs f.
Proof. unfold attempt. by intros ->. Qed.

Lemma loaded_ext fs fs' todo vs :
  (forall f, f ∈ todo -> fs' !! f = fs !! f) -> loaded fs todo vs -> loaded fs' todo vs.
Proof.
  intros Hext H. induction H as [|f v todo vs Hv Hrest IH]; [constructor|].
  constructor.
  - rewrite (load_ext fs); [done|]. apply Hext. by left.
  - apply IH. intros g Hg. apply Hext. by right.
Qed.

Lemma loaded_well_formed fs todo vs :
  loaded fs todo vs -> forallb well_formed vs = true.
Proof.
  induction 1 as [|f v todo vs Hv Hrest IH]; [done|]. simpl.
  by rewrite (load_well_formed _ _ _ Hv), IH.
Qed.

Lemma loaded_lookup fs todo vs i f :
  loaded fs todo vs -> todo !! i = Some f ->
  exists v, vs !! i = Some v /\ load fs f = Ok v.
Proof.
  intros H Hi. destruct (Forall2_lookup_l _ _ _ _ _ H Hi) as (v & Hv & Hl). eauto.
Qed.

Lemma loaded_elem fs todo vs f :
  loaded fs todo vs -> f ∈ todo -> exists v, load fs f = Ok v.
Proof.
  intros H Hf. apply list_elem_of_lookup in Hf as [i Hi].
  destruct (loaded_lookup _ _ _ _ _ H Hi) as (v & _ & Hv). eauto.
Qed.

(** What [json.dump] leaves in the file for a list of parsed documents. *)
Lemma dump_parsed vs :
  forallb well_formed vs = true ->
  written (Encoder.iterencode (PList vs)) =
  match Utf8.encode (pretty (PList vs) 0) with
  | Some bs => (bs, None)
  | None => (fst (written (Encoder.iterencode (PList vs))), Some UnicodeEncodeError)
  end.
Proof.
  intros Hw. destruct (iterencode_pretty (PList vs) 0 Hw) as [Hy Ht].
  unfold Encoder.iterencode. rewrite <- Ht. by apply written_yields.
Qed.

Lemma dump_encodes vs :
  forallb well_formed vs = true ->
  Utf8.encode (pretty (PList vs) 0) <> None <-> forallb surrogate_free vs = true.
Proof.
  intros Hw. rewrite <- encode_Some. by apply (pretty_encodable (PList vs)).
Qed.

Lemma reads_only_read todo ev : ev ∈ reads todo -> exists f, ev = Open f RD \/ ev = Close f.
Proof.
  induction todo as [|f rest IH]; simpl; [by intros ?%elem_of_nil|].
  rewrite !elem_of_cons. intros [->|[->|H]]; eauto.
Qed.

Lemma attempt_only_read fs g ev : ev ∈ attempt fs g -> exists f, ev = Open f RD \/ ev = Close f.
Proof.
  unfold attempt. destruct (fs !! g); [|by intros ?%elem_of_nil].
  rewrite !elem_of_cons. intros [->|[->|H]]; eauto. by apply elem_of_nil in H.
Qed.

Lemma exec_success fs vs :
  loaded fs files vs -> forallb surrogate_free vs = true ->
  exists bs,
    Utf8.encode (pretty (PList vs) 0) = Some bs /\
    exec fs = (Ok tt,
               World (<[output_file := bs]> fs)
                     (reads files ++ [Open output_file WR; Close output_file;
                                      Print message])).
Proof.
  intros Hl Hs. pose proof (loaded_well_formed _ _ _ Hl) as Hw.
  rewrite (exec_loaded fs vs Hl), (dump_parsed vs Hw).
  apply (dump_encodes vs Hw) in Hs.
  destruct (Utf8.encode (pretty (PList vs) 0)) as [bs|]; [|done].
  by exists bs.
Qed.

Lemma exec_encode_error fs vs :
  loaded fs files vs -> forallb surrogate_free vs = false ->
  exec fs = (Raise UnicodeEncodeError,
             World (<[output_file := fst (written (Encoder.iterencode (PList vs)))]> fs)
                   (reads files ++ [Open output_file WR; Close output_file])).
Proof.
  intros Hl Hs. pose proof (loaded_well_formed _ _ _ Hl) as Hw.
  rewrite (exec_loaded fs vs Hl).
  pose proof (dump_parsed vs Hw) as Hd. pose proof (dump_encodes vs Hw) as He.
  destruct (Utf8.encode (pretty (PList vs) 0)) as [bs|].
  - assert (forallb surrogate_free vs = true) by (by apply He). congruence.
  - by rewrite Hd.
Qed.

Lemma exec_loaded_eq fs vs :
  loaded fs files vs ->
  exec fs = (outcome (snd (written (Encoder.iterencode (PList vs)))),
             World (<[output_file := dumped vs]> fs)
                   (reads files ++ [Open output_file WR; Close output_file]
                    ++ match snd (written (Encoder.iterencode (PList vs))) with
                       | None => [Print message]
                       | Some _ => []
                       end)).
Proof.
  intros Hl. rewrite (exec_loaded fs vs Hl). unfold dumped.
  by destruct (written (Encoder.iterencode (PList vs))).
Qed.

Lemma exec_cases fs :
  (exists vs, loaded fs files vs) \/
  (exists pre f post vs e,
     files = pre ++ f :: post /\ loaded fs pre vs /\ load fs f = Raise e /\
     exec fs = (Raise e, World fs (reads pre ++ attempt fs f))).
Proof.
  destruct (loaded_or_not fs files)
    as [[vs Hl]|(pre & g & post & vs & e & Hfs & Hp & Hg)].
  - left. by exists vs.
  - right. exists pre, g, post, vs, e. repeat split; try done.
    by eapply exec_not_loaded.
Qed.

Lemma exec_ext fs fs' :
  (forall f, f ∈ files -> fs' !! f = fs !! f) ->
  fst (exec fs') = fst (exec fs) /\
  trace (snd (exec fs')) = trace (snd (exec fs)) /\
  ((exists vs, disk (snd (exec fs)) = <[output_file := dumped vs]> fs /\
               disk (snd (exec fs')) = <[output_file := dumped vs]> fs') \/
   (failed (fst (exec fs)) /\ disk (snd (exec fs)) = fs /\ disk (snd (exec fs')) = fs')).
Proof.
  intros Hext.
  destruct (exec_cases fs) as [(vs & Hl)|(pre & g & post & vs & e & Hfs & Hp & Hg & He)].
  - pose proof (loaded_ext fs fs' files vs Hext Hl) as Hl'.
    rewrite (exec_loaded_eq fs vs Hl), (exec_loaded_eq fs' vs Hl').
    split; [done|]. split; [done|]. left. by exists vs.
  - assert (Hp' : loaded fs' pre vs).
    { apply (loaded_ext fs); [|done]. intros f Hf. apply Hext.
      rewrite Hfs. apply elem_of_app. by left. }
    assert (Hg' : fs' !! g = fs !! g).
    { apply Hext. rewrite Hfs. apply elem_of_app. right. by left. }
    rewrite He, (exec_not_loaded fs' pre g post vs e Hfs Hp');
      [|by rewrite (load_ext fs)].
    cbn [fst snd disk trace]. rewrite (attempt_ext fs fs' g Hg').
    split; [done|]. split; [done|]. by right.
Qed.

Lemma inputs_kept (fs : gmap string bytes) (bs : bytes) f :
  f ∈ files -> <[output_file := bs]> fs !! f = fs !! f.
Proof.
  intros Hf. apply lookup_insert_ne. intros <-. by apply output_not_input.
Qed.


Lemma loaded_a_to_h : loaded dir_a_to_h files docs_a_to_h.
Proof. repeat constructor; vm_compute; reflexivity. Qed.











(** C6: a second run, started in the directory the first run left, ends
    the way the first did and leaves every file, the output file included,
    byte for byte as the first run left it; and two runs in directories
    whose eight input files are the same end the same way and, when they
    succeed, leave the same bytes in the output file. *)
Theorem second_run_changes_nothing fs :
  exec (disk (snd (exec fs))) = (fst (exec fs), snd (exec fs)) /\
  (forall fs',
     (forall f, f ∈ files -> fs' !! f = fs !! f) ->
     fst (exec fs') = fst (exec fs) /\
     (fst (exec fs) = Ok tt ->
      disk (snd (exec fs')) !! output_file = disk (snd (exec fs)) !! output_file)).
Proof.
  split.
  - destruct (exec_cases fs) as [(vs & Hl)|(pre & g & post & vs & e & Hfs & Hp & Hg & He)].
    + assert (Hl' : loaded (<[output_file := dumped vs]> fs) files vs).
      { apply (loaded_ext fs); [|done]. intros f Hf. by apply inputs_kept. }
      rewrite (exec_loaded_eq fs vs Hl). cbn [fst snd disk].
      rewrite (exec_loaded_eq _ vs Hl'). by rewrite insert_insert_eq.
    + rewrite He. cbn [fst snd disk]. by rewrite He.
  - intros fs' Hext. destruct (exec_ext fs fs' Hext) as (Hr & _ & Hd).
    split; [done|]. intros Hok.
    destruct Hd as [(vs & -> & ->)|[Hf _]]; [by rewrite !lookup_insert_eq|].
    by rewrite Hok in Hf.
Qed.



(** Documents of every shape run through the whole script. *)
Example any_shape_runs :
  loaded dir_any_shape files docs_any_shape /\ fst (exec dir_any_shape) = Ok tt.
Proof.
  split; [repeat constructor; vm_compute; reflexivity | vm_compute; reflexivity].
Qed.



(** C9: the output file is none of the input files, so the file of an
    earlier run is never read: with or without it, whatever it holds, the
    run ends the same way, does the same things in the same order, leaves
    every other file alone and, once it has opened the output file, leaves
    the same bytes in it. *)
Theorem earlier_output_is_never_read :
  (output_file ∉ files) /\
  forall (fs : gmap string bytes) (prev : bytes),
    let a := exec (<[output_file := prev]> fs) in
    let b := exec (delete output_file fs) in
    fst a = fst b /\
    trace (snd a) = trace (snd b) /\
    (forall f, f <> output_file -> disk (snd a) !! f = disk (snd b) !! f) /\
    ((Open output_file WR ∈ trace (snd a)) ->
     disk (snd a) !! output_file = disk (snd b) !! output_file).
Proof.
  split; [exact output_not_input|]. intros fs prev a b.
  assert (Hext : forall f, f ∈ files ->
            <[output_file := prev]> fs !! f = delete output_file fs !! f).
  { intros f Hf. assert (f <> output_file) by (intros ->; by apply output_not_input).
    by rewrite lookup_insert_ne, lookup_delete_ne. }
  destruct (exec_ext _ _ Hext) as (Hr & Ht & Hd). fold a b in Hr, Ht, Hd.
  split; [done|]. split; [done|].
  destruct Hd as [(vs & Hb & Ha)|(Hfail & Hb & Ha)]; rewrite Ha, Hb.
  - split; [|by rewrite !lookup_insert_eq].
    intros f Hf. by rewrite !lookup_insert_ne, lookup_delete_ne.
  - split; [intros f Hf; by rewrite lookup_insert_ne, lookup_delete_ne|].
    intros Hw. exfalso. rewrite Ht in Hw. unfold b in Hw, Hb.
    destruct (exec_cases (delete output_file fs))
      as [(vs & Hl)|(pre & g & post & vs & e & _ & _ & _ & He)].
    + rewrite (exec_loaded_eq _ vs Hl) in Hb. cbn [snd disk] in Hb.
      assert (Hx : <[output_file := dumped vs]> (delete output_file fs) !! output_file
                   = delete output_file fs !! output_file) by (by rewrite Hb).
      by rewrite lookup_insert_eq, lookup_delete_eq in Hx.
    + rewrite He in Hw. cbn [snd trace] in Hw.
      apply elem_of_app in Hw as [Hw|Hw];
        [apply reads_only_read in Hw | apply attempt_only_read in Hw];
        destruct Hw as [h [Hw|Hw]]; discriminate.
Qed.

(** C10 (as amended): once all eight inputs are parsed, [json.dump] can
    fail in one way only.  If no parsed string contains a surrogate code
    point it completes and the output file holds the whole text (integers,
    floats, NaN and the infinities, nested lists and objects are all
    written); if one does, it stops with [UnicodeEncodeError] where that
    string was due. *)
Theorem parsed_documents_are_written_whole fs vs w :
  loaded fs files vs ->
  (forallb surrogate_free vs = true ->
   exists bs,
     Utf8.encode (pretty (PList vs) 0) = Some bs /\
     with_open output_file WR (json_dump (PList vs) output_file) w
     = (Ok tt,
        World (<[output_file := bs]> (disk w))
              (trace w ++ [Open output_file WR; Close output_file]))) /\
  (forallb surrogate_free vs = false ->
   fst (with_open output_file WR (json_dump (PList vs) output_file) w)
   = Raise UnicodeEncodeError).
Proof.
  intros Hl. pose proof (loaded_well_formed _ _ _ Hl) as Hw.
  rewrite with_open_dump, (dump_parsed vs Hw).
  pose proof (dump_encodes vs Hw) as He.
  destruct (Utf8.encode (pretty (PList vs) 0)) as [bs|].
  - split; [intros _; by exists bs|].
    intros Hs. assert (forallb surrogate_free vs = true) by (by apply He). congruence.
  - split; [|done]. intros Hs. by apply He in Hs.
Qed.

Lemma parsed_documents_are_written_whole_witness :
  loaded dir_any_shape files docs_any_shape /\
  exists bs,
    Utf8.encode (pretty (PList docs_any_shape) 0) = Some bs /\
    with_open output_file WR (json_dump (PList docs_any_shape) output_file)
      (World dir_any_shape [])
    = (Ok tt,
       World (<[output_file := bs]> dir_any_shape)
             [Open output_file WR; Close output_file]).
Proof.
  assert (H : loaded dir_any_shape files docs_any_shape)
    by (repeat constructor; vm_compute; reflexivity).
  split; [exact H|].
  exact (proj1 (parsed_documents_are_written_whole dir_any_shape docs_any_shape
                  (World dir_any_shape []) H) eq_refl).
Defined.

(** C10 as stated fails: all eight files are read and parsed, and
    [json.dump] then raises [UnicodeEncodeError] with the output file
    already emptied and partly written: it is left holding the first seven
    elements and no closing bracket, which is no JSON text. *)
Lemma parsed_yet_partly_written :
  loaded dir_surrogate_last files docs_surrogate_last /\
  exec dir_surrogate_last
  = (Raise UnicodeEncodeError,
     World (<[output_file := text_cut_short]> dir_surrogate_last)
           (reads files ++ [Open output_file WR; Close output_file])) /\
  Decoder.loads text_cut_short = Raise JSONDecodeError.
Proof.
  assert (H : loaded dir_surrogate_last files docs_surrogate_last)
    by (repeat constructor; vm_compute; reflexivity).
  split; [exact H|]. split; [|vm_compute; reflexivity].
  rewrite (exec_encode_error _ _ H) by reflexivity.
  do 3 f_equal.
Qed.

Example accents_are_written_as_they_are :
  exec dir_accents
  = (Ok tt,
     World (<[output_file := text_accents]> dir_accents)
           (reads files ++ [Open output_file WR; Close output_file;
                            Print message])).
Proof.
  assert (H : loaded dir_accents files
                (PList [PStr [99; 97; 102; 0xE9]; PStr [0x4F60; 0x597D];
                        PStr [0x1F600]]
                 :: map (fun c => PList [PStr [c]]) [98; 99; 100; 101; 102; 103; 104]))
    by (repeat constructor; vm_compute; reflexivity).
  destruct (exec_success _ _ H eq_refl) as (bs & Hb & ->).
  do 3 f_equal. vm_compute in Hb. by injection Hb as <-.
Qed.

(** * Further properties *)

(** ** The UTF-8 codec, both ways *)

Lemma between_true lo b hi : lo <= b <= hi -> Utf8.between lo b hi = true.
Proof.
  intros H. unfold Utf8.between. apply andb_true_intro. split; apply Z.leb_le; lia.
Qed.

Lemma between_false lo b hi : b < lo \/ hi < b -> Utf8.between lo b hi = false.
Proof.
  intros H. unfold Utf8.between. apply andb_false_iff.
  destruct H; [left | right]; apply Z.leb_gt; lia.
Qed.

Ltac between_tac :=
  repeat match goal with
         | |- context [Utf8.between ?lo ?b ?hi] =>
             first [ rewrite (between_true lo b hi) by lia
                   | rewrite (between_false lo b hi) by lia ]
         | |- context [Utf8.cont ?b] =>
             change (Utf8.cont b) with (Utf8.between 0x80 b 0xBF)
         end.

Lemma decode_1 c rest :
  0 <= c < 0x80 ->
  Utf8.decode (c :: rest) = option_map (cons c) (Utf8.decode rest).
Proof. intros H. simpl. by between_tac. Qed.

Lemma decode_2 q m rest :
  2 <= q < 32 -> 0 <= m < 64 ->
  Utf8.decode (0xC0 + q :: 0x80 + m :: rest)
  = option_map (cons (64 * q + m)) (Utf8.decode rest).
Proof.
  intros Hq Hm. simpl. between_tac. do 2 f_equal. lia.
Qed.

Lemma decode_3 q m1 m0 rest :
  0 <= q < 16 -> 0 <= m1 < 64 -> 0 <= m0 < 64 ->
  (q = 0 -> 32 <= m1) -> (q = 13 -> m1 < 32) ->
  Utf8.decode (0xE0 + q :: 0x80 + m1 :: 0x80 + m0 :: rest)
  = option_map (cons (4096 * q + 64 * m1 + m0)) (Utf8.decode rest).
Proof.
  intros Hq H1 H0 Hlo Hhi. simpl. between_tac.
  destruct (Z.eqb_spec (224 + q) 224), (Z.eqb_spec (224 + q) 237);
    between_tac; simpl; do 2 f_equal; lia.
Qed.

Lemma decode_4 q m2 m1 m0 rest :
  0 <= q < 5 -> 0 <= m2 < 64 -> 0 <= m1 < 64 -> 0 <= m0 < 64 ->
  (q = 0 -> 16 <= m2) -> (q = 4 -> m2 < 16) ->
  Utf8.decode (0xF0 + q :: 0x80 + m2 :: 0x80 + m1 :: 0x80 + m0 :: rest)
  = option_map (cons (262144 * q + 4096 * m2 + 64 * m1 + m0)) (Utf8.decode rest).
Proof.
  intros Hq H2 H1 H0 Hlo Hhi. simpl. between_tac.
  destruct (Z.eqb_spec (240 + q) 240), (Z.eqb_spec (240 + q) 244);
    between_tac; simpl; do 2 f_equal; lia.
Qed.

Lemma split64 c :
  0 <= c -> c = 64 * (c / 64) + c mod 64 /\ 0 <= c mod 64 < 64 /\ 0 <= c / 64.
Proof.
  intros H. split; [apply Z.div_mod; lia|].
  split; [apply Z.mod_pos_bound; lia | apply Z.div_pos; lia].
Qed.

Lemma encode_char_decode c b rest :
  Utf8.encode_char c = Some b ->
  Utf8.decode (b ++ rest) = option_map (cons c) (Utf8.decode rest).
Proof.
  unfold Utf8.encode_char, Utf8.is_surrogate. intros H.
  destruct (Z.ltb_spec c 0); [discriminate|].
  destruct (split64 c) as (Hc & Hm0 & Hd0); [lia|].
  destruct (split64 (c / 64)) as (Hc1 & Hm1 & Hd1); [lia|].
  destruct (split64 (c / 64 / 64)) as (Hc2 & Hm2 & Hd2); [lia|].
  assert (E1 : c / 4096 = c / 64 / 64) by (rewrite Z.div_div by lia; done).
  assert (E2 : c / 262144 = c / 64 / 64 / 64) by (rewrite !Z.div_div by lia; done).
  rewrite E1, E2 in H.
  set (d1 := c / 64) in *. set (m0 := c mod 64) in *.
  set (d2 := d1 / 64) in *. set (m1 := d1 mod 64) in *.
  set (d3 := d2 / 64) in *. set (m2 := d2 mod 64) in *.
  clearbody d1 m0 d2 m1 d3 m2. clear E1 E2.
  destruct (Z.ltb_spec c 128); [injection H as <-; apply decode_1; lia|].
  destruct (Z.ltb_spec c 2048).
  { injection H as <-. cbn [app]. rewrite decode_2 by lia. do 2 f_equal. lia. }
  destruct ((55296 <=? c) && (c <=? 57343)) eqn:Es; [discriminate|].
  assert (Hs : c < 55296 \/ 57343 < c).
  { apply andb_false_iff in Es as [Es|Es]; apply Z.leb_gt in Es; lia. }
  clear Es. destruct (Z.ltb_spec c 65536).
  - injection H as <-. cbn [app].
    rewrite (decode_3 d2 m1 m0) by lia. do 2 f_equal. lia.
  - destruct (Z.ltb_spec c 1114112); [|discriminate].
    injection H as <-. cbn [app].
    rewrite (decode_4 d3 m2 m1 m0) by lia. do 2 f_equal. lia.
Qed.

Lemma utf8_roundtrip s : forall bs,
  Utf8.encode s = Some bs -> Utf8.decode bs = Some s.
Proof.
  induction s as [|c r IH]; intros bs H; simpl in H.
  - by injection H as <-.
  - destruct (Utf8.encode_char c) as [b|] eqn:Ec; [|discriminate].
    destruct (Utf8.encode r) as [br|]; [|discriminate].
    injection H as <-. rewrite (encode_char_decode c b br Ec), (IH br); done.
Qed.

Lemma div_mod_digits q m b : 0 < b -> 0 <= m < b -> (b * q + m) / b = q /\ (b * q + m) mod b = m.
Proof.
  intros Hb Hm. split.
  - rewrite Z.mul_comm, Z.div_add_l by lia. rewrite Z.div_small by lia. lia.
  - rewrite Z.mul_comm, Z.add_comm, Z.mod_add by lia. by apply Z.mod_small.
Qed.

Lemma encode_char_1 c : 0 <= c < 0x80 -> Utf8.encode_char c = Some [c].
Proof.
  intros H. unfold Utf8.encode_char.
  destruct (Z.ltb_spec c 0); [lia|]. destruct (Z.ltb_spec c 128); [done | lia].
Qed.

Lemma encode_char_2 q m :
  2 <= q < 32 -> 0 <= m < 64 ->
  Utf8.encode_char (64 * q + m) = Some [0xC0 + q; 0x80 + m].
Proof.
  intros Hq Hm. unfold Utf8.encode_char.
  destruct (div_mod_digits q m 64) as [-> ->]; [lia..|].
  destruct (Z.ltb_spec (64 * q + m) 0); [lia|].
  destruct (Z.ltb_spec (64 * q + m) 128); [lia|].
  destruct (Z.ltb_spec (64 * q + m) 2048); [done | lia].
Qed.

Lemma encode_char_3 q m1 m0 :
  0 <= q < 16 -> 0 <= m1 < 64 -> 0 <= m0 < 64 ->
  (q = 0 -> 32 <= m1) -> (q = 13 -> m1 < 32) ->
  Utf8.encode_char (4096 * q + 64 * m1 + m0)
  = Some [0xE0 + q; 0x80 + m1; 0x80 + m0].
Proof.
  intros Hq H1 H0 Hlo Hhi. unfold Utf8.encode_char, Utf8.is_surrogate.
  replace (4096 * q + 64 * m1 + m0) with (64 * (64 * q + m1) + m0) by lia.
  destruct (div_mod_digits (64 * q + m1) m0 64) as [E1 ->]; [lia..|].
  rewrite E1.
  assert (E2 : (64 * (64 * q + m1) + m0) / 4096 = q).
  { replace 4096 with (64 * 64) by done. rewrite <- Z.div_div, E1 by lia.
    by destruct (div_mod_digits q m1 64) as [-> _]; [lia..|]. }
  rewrite E2. destruct (div_mod_digits q m1 64) as [_ ->]; [lia..|].
  destruct (Z.ltb_spec (64 * (64 * q + m1) + m0) 0); [lia|].
  destruct (Z.ltb_spec (64 * (64 * q + m1) + m0) 128); [lia|].
  destruct (Z.ltb_spec (64 * (64 * q + m1) + m0) 2048); [lia|].
  destruct (Z.leb_spec 55296 (64 * (64 * q + m1) + m0)),
           (Z.leb_spec (64 * (64 * q + m1) + m0) 57343); simpl; try lia;
    (destruct (Z.ltb_spec (64 * (64 * q + m1) + m0) 65536); [done | lia]).
Qed.

Lemma encode_char_4 q m2 m1 m0 :
  0 <= q < 5 -> 0 <= m2 < 64 -> 0 <= m1 < 64 -> 0 <= m0 < 64 ->
  (q = 0 -> 16 <= m2) -> (q = 4 -> m2 < 16) ->
  Utf8.encode_char (262144 * q + 4096 * m2 + 64 * m1 + m0)
  = Some [0xF0 + q; 0x80 + m2; 0x80 + m1; 0x80 + m0].
Proof.
  intros Hq H2 H1 H0 Hlo Hhi. unfold Utf8.encode_char, Utf8.is_surrogate.
  replace (262144 * q + 4096 * m2 + 64 * m1 + m0)
    with (64 * (64 * (64 * q + m2) + m1) + m0) by lia.
  set (c := 64 * (64 * (64 * q + m2) + m1) + m0).
  destruct (div_mod_digits (64 * (64 * q + m2) + m1) m0 64) as [E1 E1']; [lia..|].
  fold c in E1, E1'.
  assert (E2 : c / 4096 = 64 * q + m2).
  { replace 4096 with (64 * 64) by done. rewrite <- Z.div_div, E1 by lia.
    by destruct (div_mod_digits (64 * q + m2) m1 64) as [-> _]; [lia..|]. }
  assert (E3 : c / 262144 = q).
  { replace 262144 with (4096 * 64) by done. rewrite <- Z.div_div, E2 by lia.
    by destruct (div_mod_digits q m2 64) as [-> _]; [lia..|]. }
  rewrite E1, E1', E2, E3.
  destruct (div_mod_digits (64 * q + m2) m1 64) as [_ ->]; [lia..|].
  destruct (div_mod_digits q m2 64) as [_ ->]; [lia..|].
  assert (65536 <= c < 1114112) by (unfold c; lia).
  destruct (Z.ltb_spec c 0); [lia|].
  destruct (Z.ltb_spec c 128); [lia|].
  destruct (Z.ltb_spec c 2048); [lia|].
  destruct (Z.leb_spec 55296 c), (Z.leb_spec c 57343); simpl; try lia;
    destruct (Z.ltb_spec c 65536); try lia;
    (destruct (Z.ltb_spec c 1114112); [done | lia]).
Qed.

Lemma between_spec lo b hi : Utf8.between lo b hi = true -> lo <= b <= hi.
Proof. unfold Utf8.between. intros [H1 H2]%andb_prop. lia. Qed.

Lemma cont_spec b : Utf8.cont b = true -> 0x80 <= b <= 0xBF.
Proof. apply between_spec. Qed.

Lemma encode_cons c s b bs :
  Utf8.encode_char c = Some b -> Utf8.encode s = Some bs ->
  Utf8.encode (c :: s) = Some (b ++ bs).
Proof. intros Hc Hs. simpl. by rewrite Hc, Hs. Qed.

(** What decodes is the one encoding of its text. *)
Lemma utf8_decode_encode bs : forall s,
  Utf8.decode bs = Some s -> Utf8.encode s = Some bs.
Proof.
  induction bs as [bs IH] using (induction_ltof1 _ (@length _)). unfold ltof in IH.
  intros s H. destruct bs as [|b0 r]; [simpl in H; by injection H as <-|].
  cbn [Utf8.decode] in H.
  destruct (Utf8.between 0 b0 127) eqn:E1.
  { apply between_spec in E1.
    destruct (Utf8.decode r) as [s'|] eqn:Er; [|discriminate]. injection H as <-.
    apply (encode_cons _ _ [b0]); [apply encode_char_1; lia | apply IH; [simpl; lia | done]]. }
  destruct (Utf8.between 194 b0 223) eqn:E2.
  { apply between_spec in E2. destruct r as [|b1 r1]; [discriminate|].
    destruct (Utf8.cont b1) eqn:C1; [|discriminate]. apply cont_spec in C1.
    destruct (Utf8.decode r1) as [s'|] eqn:Er; [|discriminate]. injection H as <-.
    replace ((b0 - 192) * 64 + (b1 - 128)) with (64 * (b0 - 192) + (b1 - 128)) by lia.
    apply (encode_cons _ _ [b0; b1]); [|apply IH; [simpl; lia | done]].
    rewrite encode_char_2 by lia. do 2 f_equal; [lia|]. f_equal. lia. }
  destruct (Utf8.between 224 b0 239) eqn:E3.
  { apply between_spec in E3. destruct r as [|b1 [|b2 r2]]; try discriminate.
    destruct (Utf8.between _ b1 _) eqn:B1; [|discriminate].
    destruct (Utf8.cont b2) eqn:C2; [|discriminate].
    apply between_spec in B1. apply cont_spec in C2.
    destruct (Utf8.decode r2) as [s'|] eqn:Er; [|discriminate]. injection H as <-.
    replace ((b0 - 224) * 4096 + (b1 - 128) * 64 + (b2 - 128))
      with (4096 * (b0 - 224) + 64 * (b1 - 128) + (b2 - 128)) by lia.
    apply (encode_cons _ _ [b0; b1; b2]); [|apply IH; [simpl; lia | done]].
    destruct (Z.eqb_spec b0 224), (Z.eqb_spec b0 237);
      (rewrite encode_char_3 by lia); repeat (f_equal; try lia). }
  destruct (Utf8.between 240 b0 244) eqn:E4; [|discriminate].
  apply between_spec in E4. destruct r as [|b1 [|b2 [|b3 r3]]]; try discriminate.
  destruct (Utf8.between _ b1 _) eqn:B1; [|discriminate].
  destruct (Utf8.cont b2) eqn:C2; [|discriminate].
  destruct (Utf8.cont b3) eqn:C3; [|discriminate].
  apply between_spec in B1. apply cont_spec in C2, C3.
  destruct (Utf8.decode r3) as [s'|] eqn:Er; [|discriminate]. injection H as <-.
  replace ((b0 - 240) * 262144 + (b1 - 128) * 4096 + (b2 - 128) * 64 + (b3 - 128))
    with (262144 * (b0 - 240) + 4096 * (b1 - 128) + 64 * (b2 - 128) + (b3 - 128)) by lia.
  apply (encode_cons _ _ [b0; b1; b2; b3]); [|apply IH; [simpl; lia | done]].
  destruct (Z.eqb_spec b0 240), (Z.eqb_spec b0 244);
    (rewrite encode_char_4 by lia); repeat (f_equal; try lia).
Qed.

(** ** Strings and integers read back *)

Lemma scanstring_replace s : forall chunks rest,
  Forall (fun c => 0 <= c) s ->
  Decoder.scanstring (flat_map Encoder.replace s ++ QUOTE :: rest) chunks
  = Ok (chunks ++ s, rest).
Proof.
  induction s as [|c r IH]; intros chunks rest Hs.
  - simpl. by rewrite app_nil_r.
  - inversion Hs as [|? ? Hc Hr]; subst.
    assert (Hgoal : Decoder.scanstring
                      (Encoder.replace c ++ flat_map Encoder.replace r ++ QUOTE :: rest)
                      chunks
                    = Decoder.scanstring (flat_map Encoder.replace r ++ QUOTE :: rest)
                        (chunks ++ [c])).
    { unfold Encoder.replace, Encoder.ESCAPE.
      destruct (Z.leb_spec c 31).
      - assert (Hcase : c = 0 \/ c = 1 \/ c = 2 \/ c = 3 \/ c = 4 \/ c = 5 \/ c = 6 \/
                        c = 7 \/ c = 8 \/ c = 9 \/ c = 10 \/ c = 11 \/ c = 12 \/
                        c = 13 \/ c = 14 \/ c = 15 \/ c = 16 \/ c = 17 \/ c = 18 \/
                        c = 19 \/ c = 20 \/ c = 21 \/ c = 22 \/ c = 23 \/ c = 24 \/
                        c = 25 \/ c = 26 \/ c = 27 \/ c = 28 \/ c = 29 \/ c = 30 \/
                        c = 31) by lia.
        repeat (destruct Hcase as [->|Hcase]; [reflexivity|]). by subst.
      - destruct (Z.leb_spec 0 c); [|lia]. simpl.
        destruct (Z.eqb_spec c BSLASH) as [->|Hb]; [reflexivity|].
        destruct (Z.eqb_spec c QUOTE) as [->|Hq]; [reflexivity|].
        simpl. destruct (Z.eqb_spec c QUOTE); [done|].
        destruct (Z.eqb_spec c BSLASH); [done|].
        destruct (Z.ltb_spec c 32); [lia | done]. }
    simpl. rewrite <- app_assoc, Hgoal, IH by done. by rewrite <- app_assoc.
Qed.

Lemma chars_uint_uint_chars u : PyInt.chars_uint (PyInt.uint_chars u) = u.
Proof. induction u; simpl; by f_equal. Qed.

Lemma length_uint_chars u : length (PyInt.uint_chars u) = Decimal.nb_digits u.
Proof. induction u; simpl; by f_equal. Qed.

Lemma uint_chars_digits u : forallb PyInt.is_digit (PyInt.uint_chars u) = true.
Proof. induction u; simpl; done. Qed.

Lemma span_digits_delimited ds : forall rest,
  forallb PyInt.is_digit ds = true -> delimited rest = true ->
  Decoder.span_digits (ds ++ rest) = (ds, rest).
Proof.
  induction ds as [|c r IH]; intros rest Hd Hr.
  - destruct rest as [|c t]; [done|]. simpl in *.
    assert (PyInt.is_digit c = false) as ->; [|done].
    unfold PyInt.is_digit. apply orb_prop in Hr as [H|H]; apply Z.eqb_eq in H as ->; done.
  - simpl in *. apply andb_prop in Hd as [-> Hd]. by rewrite IH.
Qed.

(** The digits of an integer: a single 0, or a digit 1-9 and more
    digits. *)
Lemma abs_uint_shape z :
  PyInt.abs_uint z = Decimal.D0 Decimal.Nil \/
  Decimal.nzhead (PyInt.abs_uint z) = PyInt.abs_uint z /\ PyInt.abs_uint z <> Decimal.Nil.
Proof.
  unfold PyInt.abs_uint.
  pose proof (DecimalZ.to_of (Z.to_int z)) as H. rewrite DecimalZ.of_to in H.
  destruct (Z.to_int z) as [u|u]; simpl in H.
  - injection H as H. unfold Decimal.unorm in H.
    destruct (Decimal.nzhead u) eqn:E; try (right; split; congruence).
    by left.
  - destruct (Decimal.nzhead u) eqn:E; try discriminate;
      injection H as H; right; split; congruence.
Qed.

Lemma match_integer_to_str z rest :
  delimited rest = true ->
  Decoder.match_integer (PyInt.to_str z ++ rest)
  = Some (z <? 0, PyInt.uint_chars (PyInt.abs_uint z), rest).
Proof.
  intros Hr. unfold PyInt.to_str, Decoder.match_integer.
  assert (G : forall s, match s with
                        | c :: r => (c =? 45) = false
                        | [] => True
                        end ->
              s = PyInt.uint_chars (PyInt.abs_uint z) ++ rest ->
              match s with
              | [] => None
              | c :: r =>
                  if c =? 48 then Some (z <? 0, [48], r)
                  else if (49 <=? c) && (c <=? 57)
                       then let '(d, t) := Decoder.span_digits r in Some (z <? 0, c :: d, t)
                       else None
              end = Some (z <? 0, PyInt.uint_chars (PyInt.abs_uint z), rest)).
  { intros s _ ->.
    destruct (abs_uint_shape z) as [->|[Hnz Hne]]; [done|].
    pose proof (uint_chars_digits (PyInt.abs_uint z)) as Hd.
    pose proof (nzhead_nonzero (PyInt.abs_uint z)) as H0. rewrite Hnz in H0.
    destruct (PyInt.abs_uint z) as [|u|u|u|u|u|u|u|u|u|u]; try done;
      try (by exfalso; eapply H0); simpl in *;
      by rewrite span_digits_delimited. }
  assert (Hhead : match PyInt.uint_chars (PyInt.abs_uint z) ++ rest with
                  | c :: r => (c =? 45) = false
                  | [] => True
                  end).
  { destruct (PyInt.abs_uint z); simpl; try done.
    destruct rest as [|c t]; [done|]. simpl in Hr.
    apply orb_prop in Hr as [H|H]; apply Z.eqb_eq in H as ->; done. }
  destruct (z <? 0) eqn:Ez.
  - simpl. by apply G.
  - simpl. specialize (G _ Hhead eq_refl).
    destruct (PyInt.uint_chars (PyInt.abs_uint z) ++ rest) as [|c r] eqn:E; [done|].
    by rewrite Hhead.
Qed.

Lemma of_literal_to_str z :
  int_ok z = true ->
  PyInt.of_literal (z <? 0) (PyInt.uint_chars (PyInt.abs_uint z)) = Ok z.
Proof.
  unfold int_ok, PyInt.of_literal, PyInt.digits_value. intros Hok.
  rewrite length_uint_chars, chars_uint_uint_chars.
  destruct (PyInt.int_max_str_digits <? _)%nat eqn:E.
  - apply Nat.ltb_lt in E. apply Nat.leb_le in Hok. lia.
  - f_equal. pose proof (DecimalZ.of_to z) as H. unfold PyInt.abs_uint.
    destruct z as [|p|p]; simpl in *; done.
Qed.

Lemma match_frac_delimited rest :
  delimited rest = true -> Decoder.match_frac rest = (None, rest).
Proof.
  destruct rest as [|c t]; [done|]. simpl. intros H.
  apply orb_prop in H as [H|H]; apply Z.eqb_eq in H as ->; done.
Qed.

Lemma match_exp_delimited rest :
  delimited rest = true -> Decoder.match_exp rest = (None, rest).
Proof.
  destruct rest as [|c t]; [done|]. simpl. intros H.
  apply orb_prop in H as [H|H]; apply Z.eqb_eq in H as ->; done.
Qed.

Lemma constant_other_head name v x p c r :
  lit name = x :: p -> x <> c -> Decoder.constant name v (c :: r) = None.
Proof.
  intros E Hx. unfold Decoder.constant. rewrite E. simpl.
  by destruct (Z.eqb_spec x c).
Qed.

Lemma scan_once_number fuel c r n t :
  PyInt.is_digit c || (c =? 45) = true ->
  Decoder.match_number (c :: r) = Some (n, t) ->
  Decoder.scan_once (S fuel) (c :: r)
  = Some (match Decoder.number_value n with
          | Ok v => Ok (v, t)
          | Raise e => Raise e
          end).
Proof.
  intros Hc Hm. cbn [Decoder.scan_once]. rewrite Hm.
  assert (Hr : 45 <= c <= 57).
  { unfold PyInt.is_digit in Hc. apply orb_prop in Hc as [H|H].
    - apply andb_prop in H as [H1 H2]. lia.
    - apply Z.eqb_eq in H. lia. }
  unfold QUOTE.
  destruct (Z.eqb_spec c 34); [lia|].
  destruct (Z.eqb_spec c 123); [lia|].
  destruct (Z.eqb_spec c 91); [lia|].
  rewrite (constant_other_head "null" _ 110 (lit "ull")); [|done|lia].
  rewrite (constant_other_head "true" _ 116 (lit "rue")); [|done|lia].
  rewrite (constant_other_head "false" _ 102 (lit "alse")); [|done|lia].
  done.
Qed.

Lemma to_str_head z rest :
  exists c r, PyInt.to_str z ++ rest = c :: r /\
              PyInt.is_digit c || (c =? 45) = true.
Proof.
  unfold PyInt.to_str. destruct (z <? 0); [by eexists _, _|].
  destruct (abs_uint_shape z) as [->|[_ Hne]]; [by eexists _, _|].
  destruct (PyInt.abs_uint z); try done; by eexists _, _.
Qed.

Lemma scan_once_int fuel z rest :
  int_ok z = true -> delimited rest = true ->
  Decoder.scan_once (S fuel) (PyInt.to_str z ++ rest) = Some (Ok (PInt z, rest)).
Proof.
  intros Hz Hr.
  destruct (to_str_head z rest) as (c & r & E & Hc).
  assert (Hm : Decoder.match_number (PyInt.to_str z ++ rest)
               = Some (Decoder.Number (z <? 0) (PyInt.uint_chars (PyInt.abs_uint z))
                         None None, rest)).
  { unfold Decoder.match_number.
    by rewrite match_integer_to_str, match_frac_delimited, match_exp_delimited. }
  rewrite E in *. rewrite (scan_once_number fuel c r _ _ Hc Hm).
  unfold Decoder.number_value. simpl. by rewrite of_literal_to_str.
Qed.

(** ** Keys of objects *)

Lemma str_eqb_eq a : forall b, str_eqb a b = true <-> a = b.
Proof.
  induction a as [|x a IH]; intros [|y b]; simpl; try done.
  rewrite andb_true_iff, Z.eqb_eq, IH. split; [by intros [-> ->] | by intros [= -> ->]].
Qed.

Lemma has_key_elem d k : has_key d k = true <-> k ∈ d.*1.
Proof.
  unfold has_key. induction d as [|[k' v] d IH]; simpl.
  - split; [done | by intros ?%elem_of_nil].
  - rewrite orb_true_iff, elem_of_cons, str_eqb_eq, IH. split; intros [?|?]; auto.
Qed.

Lemma unique_keys_NoDup d : unique_keys d = true <-> NoDup d.*1.
Proof.
  induction d as [|[k v] d IH]; simpl.
  - split; [constructor | done].
  - rewrite andb_true_iff, negb_true_iff, NoDup_cons, IH, <- not_true_iff_false,
      has_key_elem. done.
Qed.

Lemma dict_setitem_keys d k v :
  (dict_setitem d k v).*1 = if has_key d k then d.*1 else d.*1 ++ [k].
Proof.
  unfold has_key. induction d as [|[k' v'] d IH]; [done|].
  cbn [dict_setitem existsb fst]. destruct (str_eqb k' k); cbn [orb].
  - done.
  - rewrite !fmap_cons, IH. by destruct (existsb _ d).
Qed.

Lemma dict_setitem_new d k v :
  has_key d k = false -> dict_setitem d k v = d ++ [(k, v)].
Proof.
  unfold has_key. induction d as [|[k' v'] d IH]; simpl; [done|].
  intros [H1 H2]%orb_false_elim. rewrite H1. f_equal. by apply IH.
Qed.

Lemma dict_setitem_unique d k v :
  unique_keys d = true -> unique_keys (dict_setitem d k v) = true.
Proof.
  rewrite !unique_keys_NoDup, dict_setitem_keys.
  destruct (has_key d k) eqn:E; [done|].
  intros Hd. apply NoDup_app. split; [done|]. split; [|apply NoDup_singleton].
  intros x Hx Hx2. apply list_elem_of_singleton in Hx2 as ->.
  apply has_key_elem in Hx. congruence.
Qed.

Lemma dict_of_pairs_unique pairs : unique_keys (dict_of_pairs pairs) = true.
Proof.
  unfold dict_of_pairs.
  assert (G : forall acc, unique_keys acc = true ->
              unique_keys (fold_left (fun d kv => dict_setitem d (fst kv) (snd kv))
                             pairs acc) = true).
  { induction pairs as [|kv r IH]; intros acc Ha; simpl; [done|].
    by apply IH, dict_setitem_unique. }
  by apply G.
Qed.

Lemma dict_of_pairs_id d : unique_keys d = true -> dict_of_pairs d = d.
Proof.
  unfold dict_of_pairs.
  assert (G : forall acc, unique_keys (acc ++ d) = true ->
              fold_left (fun d kv => dict_setitem d (fst kv) (snd kv)) d acc = acc ++ d).
  { induction d as [|[k v] r IH]; intros acc Ha; simpl; [by rewrite app_nil_r|].
    rewrite dict_setitem_new.
    - rewrite IH; rewrite <- app_assoc; done.
    - apply not_true_iff_false. rewrite has_key_elem.
      apply unique_keys_NoDup in Ha. rewrite fmap_app in Ha. simpl in Ha.
      apply NoDup_app in Ha as (_ & Ha & _). intros Hk. apply (Ha k Hk). left. }
  intros Hd. by apply (G []).
Qed.

Lemma dict_setitem_values (P : py -> bool) d k v :
  forallb (fun kv => P (snd kv)) d = true -> P v = true ->
  forallb (fun kv => P (snd kv)) (dict_setitem d k v) = true.
Proof.
  intros Hd Hv. induction d as [|[k' v'] r IH]; simpl in *; [by rewrite Hv|].
  apply andb_prop in Hd as [H1 H2]. destruct (str_eqb k' k); simpl.
  - by rewrite Hv, H2.
  - by rewrite H1, IH.
Qed.

Lemma dict_of_pairs_values (P : py -> bool) pairs :
  forallb (fun kv => P (snd kv)) pairs = true ->
  forallb (fun kv => P (snd kv)) (dict_of_pairs pairs) = true.
Proof.
  unfold dict_of_pairs.
  assert (G : forall acc, forallb (fun kv => P (snd kv)) acc = true ->
              forallb (fun kv => P (snd kv)) pairs = true ->
              forallb (fun kv => P (snd kv))
                (fold_left (fun d kv => dict_setitem d (fst kv) (snd kv)) pairs acc) = true).
  { induction pairs as [|[k v] r IH]; intros acc Ha Hp; simpl in *; [done|].
    apply andb_prop in Hp as [H1 H2]. apply IH; [|done]. by apply dict_setitem_values. }
  by apply G.
Qed.

(** ** The loops of the decoder on the text of the encoder *)

Lemma skip_ws_newline_indent level s :
  Decoder.skip_ws (Encoder.newline_indent level ++ s) = Decoder.skip_ws s.
Proof.
  unfold Encoder.newline_indent. simpl.
  induction level as [|n IH]; [done|]. simpl. exact IH.
Qed.

Lemma delimited_newline_indent level s :
  delimited (Encoder.newline_indent level ++ s) = true.
Proof. done. Qed.

Lemma pretty_starts_a_value v level :
  float_free v = true -> starts_a_value (pretty v level).
Proof.
  destruct v as [|[]|z|f|s|[|x l]|[|kv d]]; simpl; try discriminate; intros _;
    unfold starts_a_value; eauto 10.
  destruct (to_str_head z []) as (c & r & E & Hc). rewrite app_nil_r in E.
  exists c, r. split; [done|].
  assert (45 <= c <= 57).
  { unfold PyInt.is_digit in Hc. apply orb_prop in Hc as [H|H].
    - apply andb_prop in H as [H1 H2]. lia.
    - apply Z.eqb_eq in H. lia. }
  unfold Decoder.is_ws.
  destruct (Z.eqb_spec c 32); [lia|]. destruct (Z.eqb_spec c 9); [lia|].
  destruct (Z.eqb_spec c 10); [lia|]. destruct (Z.eqb_spec c 13); [lia|].
  destruct (Z.eqb_spec c 93); [lia|]. destruct (Z.eqb_spec c 65279); [lia|]. done.
Qed.

Lemma skip_ws_value s : starts_a_value s -> Decoder.skip_ws s = s.
Proof. intros (c & t & -> & Hw & _). simpl. by rewrite Hw. Qed.

Lemma starts_a_value_app s t : starts_a_value s -> starts_a_value (s ++ t).
Proof. intros (c & r & -> & Hw & Hb & Hm). exists c, (r ++ t). by repeat split. Qed.

Lemma join_cons sep x rest :
  join sep (x :: rest)
  = x ++ match rest with [] => [] | _ :: _ => sep ++ join sep rest end.
Proof. destruct rest; simpl; [by rewrite app_nil_r | done]. Qed.

Lemma join_length_part sep parts p :
  p ∈ parts -> (length p <= length (join sep parts))%nat.
Proof.
  induction parts as [|x rest IH]; [by intros ?%elem_of_nil|].
  rewrite join_cons, length_app. intros [->|H]%elem_of_cons; [lia|].
  specialize (IH H). destruct rest as [|y r]; [by apply elem_of_nil in H|].
  rewrite length_app. lia.
Qed.

Lemma join_length_parts sep parts :
  Forall (fun p => p <> []) parts -> (length parts <= length (join sep parts))%nat.
Proof.
  induction 1 as [|x rest Hx Hrest IH]; [done|].
  rewrite join_cons, length_app. destruct x as [|c x]; [done|].
  destruct rest as [|y r]; simpl in *; [lia|]. rewrite length_app. simpl. lia.
Qed.

Section LoopsRoundTrip.

Variable scan : Decoder.scanner.
Variable level : nat.

Lemma array_loop_roundtrip l : forall vals n rest,
  l <> [] -> (length l <= n)%nat -> Forall (reads_back scan level) l ->
  Decoder.array_loop scan n
    (join (44 :: Encoder.newline_indent (S level)) (map (fun v => pretty v (S level)) l)
     ++ Encoder.newline_indent level ++ 93 :: rest) vals
  = Some (Ok (PList (vals ++ l), rest)).
Proof.
  induction l as [|v l IH]; intros vals n rest Hne Hn Hl; [done|].
  inversion Hl as [|? ? [Hp Hv] Hrest]; subst.
  destruct n as [|n]; [simpl in Hn; lia|].
  assert (IH' := IH (vals ++ [v]) n rest).
  destruct l as [|v' l']; cbn [map] in *; rewrite join_cons, <- app_assoc;
    cbn [Decoder.array_loop].
  - rewrite Hv by done. cbn [app]. rewrite skip_ws_newline_indent.
    change (Decoder.skip_ws (93 :: rest)) with (93 :: rest).
    by change (93 =? 93) with true.
  - rewrite Hv by done.
    rewrite <- app_assoc.
    change ((44 :: Encoder.newline_indent (S level)) ++ ?x)
      with (44 :: (Encoder.newline_indent (S level) ++ x)).
    change (Decoder.skip_ws (44 :: ?x)) with (44 :: x).
    change (44 =? 93) with false. change (44 =? 44) with true. cbv iota.
    rewrite skip_ws_newline_indent, skip_ws_value.
    + rewrite IH'; [by rewrite <- app_assoc | done | simpl in *; lia | done].
    + apply starts_a_value_app. rewrite join_cons. apply starts_a_value_app.
      inversion Hrest as [|? ? [Hp' _] _]; by subst.
Qed.

Lemma JSONArray_roundtrip l rest :
  l <> [] -> Forall (reads_back scan level) l ->
  Decoder.JSONArray scan
    (Encoder.newline_indent (S level)
     ++ join (44 :: Encoder.newline_indent (S level)) (map (fun v => pretty v (S level)) l)
     ++ Encoder.newline_indent level ++ 93 :: rest)
  = Some (Ok (PList l, rest)).
Proof.
  intros Hne Hl. unfold Decoder.JSONArray.
  rewrite skip_ws_newline_indent.
  assert (Hs : starts_a_value
                 (join (44 :: Encoder.newline_indent (S level))
                    (map (fun v => pretty v (S level)) l)
                  ++ Encoder.newline_indent level ++ 93 :: rest)).
  { apply starts_a_value_app. destruct l as [|v l']; [done|].
    cbn [map]. rewrite join_cons. apply starts_a_value_app.
    inversion Hl as [|? ? [Hp _] _]; by subst. }
  rewrite skip_ws_value by done.
  destruct Hs as (c & t & E & _ & Hc & _). rewrite E, Hc, <- E.
  apply (array_loop_roundtrip l []); [done| |done].
  rewrite !length_app.
  assert (Nat.le (length l)
            (length (join (44 :: Encoder.newline_indent (S level))
                       (map (fun v => pretty v (S level)) l)))); [|lia].
  rewrite <- (length_map (fun v => pretty v (S level)) l) at 1.
  apply join_length_parts. apply Forall_map.
  eapply Forall_impl; [exact Hl|]. intros v [(c' & t' & E' & _) _]. simpl. by rewrite E'.
Qed.

Lemma members_start_with_a_quote d rest :
  d <> [] ->
  exists s, join (44 :: Encoder.newline_indent (S level))
              (map (member_text (fun v => pretty v (S level))) d) ++ rest
            = QUOTE :: s.
Proof.
  destruct d as [|kv d']; [done|]. intros _.
  cbn [map]. rewrite join_cons. unfold member_text at 1, Encoder.encode_basestring.
  eexists. reflexivity.
Qed.

Lemma object_loop_roundtrip d : forall pairs n rest s,
  d <> [] -> (length d <= n)%nat -> Forall (member_reads_back scan level) d ->
  QUOTE :: s
  = join (44 :: Encoder.newline_indent (S level))
      (map (member_text (fun v => pretty v (S level))) d)
    ++ Encoder.newline_indent level ++ 125 :: rest ->
  Decoder.object_loop scan n s pairs
  = Some (Ok (PDict (dict_of_pairs (pairs ++ d)), rest)).
Proof.
  induction d as [|[k v] d IH]; intros pairs n rest s Hne Hn Hd Hs; [done|].
  inversion Hd as [|? ? [Hk [Hp Hv]] Hrest]; subst. simpl in Hk, Hp, Hv.
  destruct n as [|n]; [simpl in Hn; lia|].
  assert (IH' := IH (pairs ++ [(k, v)]) n rest).
  assert (Hkey : forall tail, delimited tail = true ->
            Decoder.object_loop scan (S n)
              (flat_map Encoder.replace k ++ QUOTE :: 58 :: 32 :: pretty v (S level) ++ tail)
              pairs
            = match Decoder.skip_ws tail with
              | d :: s4 =>
                  if d =? 125
                  then Some (Ok (PDict (dict_of_pairs (pairs ++ [(k, v)])), s4))
                  else if d =? 44 then
                    match Decoder.skip_ws s4 with
                    | q :: s5 =>
                        if q =? QUOTE
                        then Decoder.object_loop scan n s5 (pairs ++ [(k, v)])
                        else Some (Raise JSONDecodeError)
                    | [] => Some (Raise JSONDecodeError)
                    end
                  else Some (Raise JSONDecodeError)
              | [] => Some (Raise JSONDecodeError)
              end).
  { intros tail Ht. cbn [Decoder.object_loop].
    rewrite scanstring_replace by done.
    change (Decoder.skip_ws (58 :: ?x)) with (58 :: x). cbv beta iota.
    change (58 =? 58) with true. cbv iota.
    change (Decoder.skip_ws (32 :: ?x)) with (Decoder.skip_ws x).
    rewrite skip_ws_value by (by apply starts_a_value_app).
    by rewrite (Hv tail Ht). }
  assert (Es : s = flat_map Encoder.replace k ++ QUOTE :: 58 :: 32 :: pretty v (S level)
                   ++ match d with
                      | [] => []
                      | _ :: _ =>
                          (44 :: Encoder.newline_indent (S level))
                          ++ join (44 :: Encoder.newline_indent (S level))
                               (map (member_text (fun v => pretty v (S level))) d)
                      end ++ Encoder.newline_indent level ++ 125 :: rest).
  { cbn [map] in Hs. rewrite join_cons in Hs.
    unfold member_text at 1, Encoder.encode_basestring in Hs.
    change (QUOTE :: s = QUOTE :: (((flat_map Encoder.replace k ++ [QUOTE])
                                    ++ [58; 32] ++ pretty v (S level))
                                   ++ match map (member_text (fun v => pretty v (S level))) d with
                                      | [] => []
                                      | _ :: _ =>
                                          (44 :: Encoder.newline_indent (S level))
                                          ++ join (44 :: Encoder.newline_indent (S level))
                                               (map (member_text (fun v => pretty v (S level))) d)
                                      end)
                                  ++ Encoder.newline_indent level ++ 125 :: rest) in Hs.
    injection Hs as ->. rewrite <- !app_assoc. do 3 f_equal. by destruct d. }
  rewrite Es, Hkey.
  - destruct d as [|kv' d'].
    + rewrite app_nil_l, skip_ws_newline_indent.
      change (Decoder.skip_ws (125 :: rest)) with (125 :: rest).
      by change (125 =? 125) with true.
    + rewrite <- app_assoc.
      change ((44 :: Encoder.newline_indent (S level)) ++ ?x)
        with (44 :: (Encoder.newline_indent (S level) ++ x)).
      change (Decoder.skip_ws (44 :: ?x)) with (44 :: x). cbv beta iota.
      change (44 =? 125) with false. change (44 =? 44) with true. cbv iota.
      rewrite skip_ws_newline_indent.
      destruct (members_start_with_a_quote (kv' :: d')
                  (Encoder.newline_indent level ++ 125 :: rest)) as [s5 E]; [done|].
      rewrite E. change (Decoder.skip_ws (QUOTE :: s5)) with (QUOTE :: s5).
      cbv beta iota. change (QUOTE =? QUOTE) with true. cbv iota.
      rewrite (IH' s5); [by rewrite <- app_assoc | done | simpl in *; lia | done | done].
  - destruct d; [done|]. by rewrite <- app_assoc.
Qed.

Lemma JSONObject_roundtrip d rest :
  d <> [] -> Forall (member_reads_back scan level) d ->
  Decoder.JSONObject scan
    (Encoder.newline_indent (S level)
     ++ join (44 :: Encoder.newline_indent (S level))
          (map (member_text (fun v => pretty v (S level))) d)
     ++ Encoder.newline_indent level ++ 125 :: rest)
  = Some (Ok (PDict (dict_of_pairs d), rest)).
Proof.
  intros Hne Hd. unfold Decoder.JSONObject.
  rewrite skip_ws_newline_indent.
  destruct (members_start_with_a_quote d
              (Encoder.newline_indent level ++ 125 :: rest)) as [s E]; [done|].
  rewrite E. change (Decoder.skip_ws (QUOTE :: s)) with (QUOTE :: s).
  change (QUOTE =? 125) with false. change (QUOTE =? QUOTE) with true. cbv iota.
  apply (object_loop_roundtrip d []); [done| |done|done].
  rewrite <- E, !length_app.
  assert (Nat.le (length d)
            (length (join (44 :: Encoder.newline_indent (S level))
                       (map (member_text (fun v => pretty v (S level))) d)))); [|lia].
  rewrite <- (length_map (member_text (fun v => pretty v (S level))) d) at 1.
  apply join_length_parts. apply Forall_map.
  eapply Forall_impl; [exact Hd|]. intros kv _.
  unfold member_text, Encoder.encode_basestring. simpl. done.
Qed.

End LoopsRoundTrip.

Lemma pretty_list_cons x l level :
  pretty (PList (x :: l)) level
  = 91 :: Encoder.newline_indent (S level)
    ++ join (44 :: Encoder.newline_indent (S level))
         (map (fun v => pretty v (S level)) (x :: l))
    ++ Encoder.newline_indent level ++ [93].
Proof. reflexivity. Qed.

Lemma pretty_dict_cons kv d level :
  pretty (PDict (kv :: d)) level
  = 123 :: Encoder.newline_indent (S level)
    ++ join (44 :: Encoder.newline_indent (S level))
         (map (member_text (fun v => pretty v (S level))) (kv :: d))
    ++ Encoder.newline_indent level ++ [125].
Proof. reflexivity. Qed.

Lemma forallb_code_points_nonneg s :
  forallb is_code_point s = true -> Forall (fun c => 0 <= c) s.
Proof.
  intros H. apply forallb_Forall in H. eapply Forall_impl; [exact H|].
  intros c Hc. unfold is_code_point in Hc. apply andb_prop in Hc as [Hc _]. lia.
Qed.

Lemma scan_once_string fuel s rest :
  Forall (fun c => 0 <= c) s ->
  Decoder.scan_once (S fuel) (Encoder.encode_basestring s ++ rest)
  = Some (Ok (PStr s, rest)).
Proof.
  intros Hs. unfold Encoder.encode_basestring.
  rewrite <- app_comm_cons, <- app_assoc. cbn [Decoder.scan_once].
  change (QUOTE =? QUOTE) with true. cbv iota.
  change ([QUOTE] ++ rest) with (QUOTE :: rest).
  by rewrite scanstring_replace.
Qed.

Lemma to_str_nonempty z : PyInt.to_str z <> [].
Proof.
  destruct (to_str_head z []) as (c & r & E & _). rewrite app_nil_r in E. by rewrite E.
Qed.

(** What is written for a document without floats is read back as that
    document, whatever delimiter follows it. *)
Lemma scan_once_pretty v :
  well_formed v = true -> float_free v = true -> keys_unique v = true ->
  forall level fuel rest,
    (length (pretty v level) <= fuel)%nat -> delimited rest = true ->
    Decoder.scan_once fuel (pretty v level ++ rest) = Some (Ok (v, rest)).
Proof.
  induction v as [|b|z|f|s|l IH|d IH] using py_ind';
    intros Hw Hf Hk level fuel rest Hfuel Hrest.
  - destruct fuel as [|fuel]; [simpl in Hfuel; lia|]. reflexivity.
  - destruct fuel as [|fuel]; [destruct b; simpl in Hfuel; lia|]. by destruct b.
  - destruct fuel as [|fuel].
    + pose proof (to_str_nonempty z) as Hne. simpl in Hfuel.
      destruct (PyInt.to_str z); [done | simpl in Hfuel; lia].
    + by apply scan_once_int.
  - discriminate.
  - destruct fuel as [|fuel]; [simpl in Hfuel; lia|].
    apply scan_once_string. by apply forallb_code_points_nonneg.
  - destruct l as [|x l].
    + destruct fuel as [|fuel]; [simpl in Hfuel; lia|]. reflexivity.
    + rewrite pretty_list_cons in *.
      destruct fuel as [|fuel]; [simpl in Hfuel; lia|].
      rewrite <- app_comm_cons, <- !app_assoc. cbn [Decoder.scan_once].
      change (91 =? QUOTE) with false. change (91 =? 123) with false.
      change (91 =? 91) with true. cbv iota.
      change ([93] ++ rest) with (93 :: rest).
      apply JSONArray_roundtrip; [done|].
      change (forallb well_formed (x :: l) = true) in Hw.
      change (forallb float_free (x :: l) = true) in Hf.
      change (forallb keys_unique (x :: l) = true) in Hk.
      apply forallb_Forall in Hw, Hf, Hk.
      rewrite Forall_forall in IH, Hw, Hf, Hk. apply Forall_forall.
      intros v Hv. split; [by apply pretty_starts_a_value, Hf|].
      intros rest' Hrest'. apply IH; try auto.
      assert (Hpart : Nat.le (length (pretty v (S level)))
                        (length (join (44 :: Encoder.newline_indent (S level))
                                   (map (fun v => pretty v (S level)) (x :: l))))).
      { apply join_length_part. apply list_elem_of_fmap. by exists v. }
      change (length (91 :: ?t)) with (S (length t)) in Hfuel.
      rewrite !length_app in Hfuel. lia.
  - destruct d as [|kv d].
    + destruct fuel as [|fuel]; [simpl in Hfuel; lia|]. reflexivity.
    + rewrite pretty_dict_cons in *.
      destruct fuel as [|fuel]; [simpl in Hfuel; lia|].
      rewrite <- app_comm_cons, <- !app_assoc. cbn [Decoder.scan_once].
      change (123 =? QUOTE) with false. change (123 =? 123) with true. cbv iota.
      change ([125] ++ rest) with (125 :: rest).
      change (unique_keys (kv :: d)
              && forallb (fun kv => keys_unique (snd kv)) (kv :: d) = true) in Hk.
      apply andb_prop in Hk as [Hu Hk].
      rewrite JSONObject_roundtrip; [by rewrite dict_of_pairs_id | done |].
      change (forallb (fun kv => forallb is_code_point (fst kv) && well_formed (snd kv))
                (kv :: d) = true) in Hw.
      change (forallb (fun kv => float_free (snd kv)) (kv :: d) = true) in Hf.
      apply forallb_Forall in Hw, Hf, Hk.
      rewrite Forall_forall in IH, Hw, Hf, Hk. apply Forall_forall.
      intros m Hm. specialize (Hw m Hm). apply andb_prop in Hw as [Hw1 Hw2].
      split; [by apply forallb_code_points_nonneg|].
      split; [by apply pretty_starts_a_value, Hf|].
      intros rest' Hrest'. apply IH; try auto.
      assert (Hpart : Nat.le (length (member_text (fun v => pretty v (S level)) m))
                        (length (join (44 :: Encoder.newline_indent (S level))
                                   (map (member_text (fun v => pretty v (S level)))
                                      (kv :: d))))).
      { apply join_length_part. apply list_elem_of_fmap. by exists m. }
      unfold member_text in Hpart at 1. rewrite !length_app in Hpart.
      change (length (123 :: ?t)) with (S (length t)) in Hfuel.
      rewrite !length_app in Hfuel. lia.
Qed.

(** ** Parsed objects have no key twice *)

Lemma number_value_keys n v : Decoder.number_value n = Ok v -> keys_unique v = true.
Proof.
  unfold Decoder.number_value. intros H.
  destruct (Decoder.n_frac n), (Decoder.n_exp n); try (by injection H as <-).
  destruct (PyInt.of_literal _ _); [by injection H as <- | discriminate].
Qed.

Lemma constant_keys name v s r t o :
  keys_unique v = true ->
  Decoder.constant name v s = Some r -> r = Ok (o, t) -> keys_unique o = true.
Proof.
  unfold Decoder.constant. intros Hv H ->.
  destruct (strip_prefix (lit name) s); [|discriminate]. by injection H as <- <-.
Qed.

Section KeysLoops.
Variable scan : Decoder.scanner.
Hypothesis keys : scan_keys scan.

Lemma array_loop_keys n : forall s vals v t,
  Decoder.array_loop scan n s vals = Some (Ok (v, t)) ->
  forallb keys_unique vals = true -> keys_unique v = true.
Proof.
  induction n as [|n IH]; intros s vals v t H Hvals; [discriminate|].
  simpl in H.
  destruct (scan s) as [[[value s1]|e]|] eqn:E; try discriminate.
  apply keys in E.
  assert (Hv : forallb keys_unique (vals ++ [value]) = true).
  { rewrite forallb_app, Hvals. simpl. by rewrite E. }
  destruct (Decoder.skip_ws s1) as [|c s2]; [discriminate|].
  destruct (c =? 93).
  - by injection H as <- <-.
  - destruct (c =? 44); [|discriminate]. by eapply IH.
Qed.

Lemma object_loop_keys n : forall s pairs v t,
  Decoder.object_loop scan n s pairs = Some (Ok (v, t)) ->
  forallb (fun kv => keys_unique (snd kv)) pairs = true -> keys_unique v = true.
Proof.
  induction n as [|n IH]; intros s pairs v t H Hpairs; [discriminate|].
  simpl in H.
  destruct (Decoder.scanstring s []) as [[key s1]|e]; [|discriminate].
  destruct (Decoder.skip_ws s1) as [|c s2]; [discriminate|].
  destruct (c =? 58); [|discriminate].
  destruct (scan (Decoder.skip_ws s2)) as [[[value s3]|e]|] eqn:E; try discriminate.
  apply keys in E.
  assert (Hp : forallb (fun kv => keys_unique (snd kv)) (pairs ++ [(key, value)]) = true).
  { rewrite forallb_app, Hpairs. simpl. by rewrite E. }
  destruct (Decoder.skip_ws s3) as [|d s4]; [discriminate|].
  destruct (d =? 125).
  - injection H as <- <-.
    change (unique_keys (dict_of_pairs (pairs ++ [(key, value)]))
            && forallb (fun kv => keys_unique (snd kv))
                 (dict_of_pairs (pairs ++ [(key, value)])) = true).
    by rewrite dict_of_pairs_unique, dict_of_pairs_values.
  - destruct (d =? 44); [|discriminate].
    destruct (Decoder.skip_ws s4) as [|q s5]; [discriminate|].
    destruct (q =? QUOTE); [|discriminate]. by eapply IH.
Qed.

Lemma JSONArray_keys s v t :
  Decoder.JSONArray scan s = Some (Ok (v, t)) -> keys_unique v = true.
Proof.
  unfold Decoder.JSONArray. intros H.
  destruct (Decoder.skip_ws s) as [|c r].
  - by eapply array_loop_keys.
  - destruct (c =? 93); [by injection H as <- <-|]. by eapply array_loop_keys.
Qed.

Lemma JSONObject_keys s v t :
  Decoder.JSONObject scan s = Some (Ok (v, t)) -> keys_unique v = true.
Proof.
  unfold Decoder.JSONObject. intros H.
  destruct (Decoder.skip_ws s) as [|c r]; [discriminate|].
  destruct (c =? 125); [by injection H as <- <-|].
  destruct (c =? QUOTE); [|discriminate]. by eapply object_loop_keys.
Qed.

End KeysLoops.

Lemma scan_once_keys fuel : scan_keys (Decoder.scan_once fuel).
Proof.
  induction fuel as [|fuel IH]; intros s v t H; [discriminate|].
  simpl in H. destruct s as [|c r]; [discriminate|].
  destruct (c =? QUOTE).
  { destruct (Decoder.scanstring r []) as [[str t']|e]; [|discriminate].
    by injection H as <- <-. }
  destruct (c =? 123); [by eapply JSONObject_keys|].
  destruct (c =? 91); [by eapply JSONArray_keys|].
  repeat match type of H with
  | match Decoder.constant ?n ?x ?s with _ => _ end = _ =>
      let E := fresh "E" in
      destruct (Decoder.constant n x s) eqn:E;
      [ injection H as H; by eapply (constant_keys n x s) | clear E ]
  | match Decoder.match_number ?s with _ => _ end = _ =>
      let E := fresh "E" in
      destruct (Decoder.match_number s) as [[n t']|] eqn:E;
      [ destruct (Decoder.number_value n) eqn:En; [|discriminate];
        injection H as <- <-; by eapply number_value_keys
      | clear E ]
  end.
  discriminate.
Qed.

Lemma loads_keys_unique s v : Decoder.loads s = Ok v -> keys_unique v = true.
Proof.
  assert (G : forall s, Decoder.decode s = Ok v -> keys_unique v = true).
  { clear s. intros s. unfold Decoder.decode.
    destruct (Decoder.scan_once (S (length s)) (Decoder.skip_ws s))
      as [[[obj rest]|e]|] eqn:E; try discriminate.
    destruct (Decoder.skip_ws rest); [|discriminate]. intros [= <-].
    by apply scan_once_keys in E. }
  unfold Decoder.loads. destruct s as [|c r]; [apply G|].
  destruct (c =? 65279); [discriminate | apply G].
Qed.

Lemma load_keys_unique fs f v : load fs f = Ok v -> keys_unique v = true.
Proof.
  unfold load. destruct (fs !! f) as [b|]; [|discriminate].
  destruct (Utf8.decode b) as [s|]; [|discriminate]. apply loads_keys_unique.
Qed.

(** ** Reading the written file *)

Lemma universal_newlines_no_cr s : no_cr s -> universal_newlines s = s.
Proof.
  induction 1 as [|c r Hc Hr IH]; [done|]. simpl.
  destruct (Z.eqb_spec c 13); [done|]. by rewrite IH.
Qed.

Lemma no_cr_newline_indent level : no_cr (Encoder.newline_indent level).
Proof.
  unfold Encoder.newline_indent. constructor; [done|].
  induction level as [|n IH]; [constructor|]. simpl. by repeat constructor.
Qed.

Lemma no_cr_uint_chars u : no_cr (PyInt.uint_chars u).
Proof. induction u; simpl; by constructor. Qed.

Lemma no_cr_replace c : no_cr (Encoder.replace c).
Proof.
  unfold Encoder.replace, Encoder.ESCAPE.
  destruct (((0 <=? c) && (c <=? 31)) || (c =? BSLASH) || (c =? QUOTE)) eqn:E.
  - unfold Encoder.ESCAPE_DCT, Encoder.hex_char.
    destruct (c =? BSLASH) eqn:Eb; [by repeat constructor|].
    destruct (c =? QUOTE) eqn:Eq; [by repeat constructor|].
    rewrite !orb_false_r in E. apply andb_prop in E as [E1 E2].
    assert (0 <= c / 16) by (apply Z.div_pos; lia).
    pose proof (Z.mod_pos_bound c 16 eq_refl).
    repeat match goal with
           | |- context [if ?b then _ else _] => destruct b
           end; repeat constructor; unfold BSLASH, QUOTE; lia.
  - constructor; [|constructor]. intros ->. done.
Qed.

Lemma no_cr_encode_basestring s : no_cr (Encoder.encode_basestring s).
Proof.
  unfold Encoder.encode_basestring. constructor; [done|].
  apply Forall_app. split; [|by repeat constructor].
  induction s as [|c r IH]; [constructor|]. simpl.
  apply Forall_app. split; [apply no_cr_replace | exact IH].
Qed.

Lemma no_cr_pretty v : forall level, float_free v = true -> no_cr (pretty v level).
Proof.
  induction v as [|b|z|f|s|l IH|d IH] using py_ind'; intros level Hf.
  - by repeat constructor.
  - destruct b; by repeat constructor.
  - unfold pretty, PyInt.to_str. apply Forall_app. split.
    + destruct (z <? 0); by repeat constructor.
    + apply no_cr_uint_chars.
  - discriminate.
  - apply no_cr_encode_basestring.
  - destruct l as [|x l]; [by repeat constructor|].
    rewrite pretty_list_cons. constructor; [done|].
    change (forallb float_free (x :: l) = true) in Hf. apply forallb_Forall in Hf.
    rewrite !Forall_app. split; [apply no_cr_newline_indent|].
    split; [|split; [apply no_cr_newline_indent | by repeat constructor]].
    apply join_Forall; [constructor; [done | apply no_cr_newline_indent]|].
    apply Forall_map. rewrite Forall_forall in IH, Hf. apply Forall_forall.
    intros v Hv. apply IH; auto.
  - destruct d as [|kv d]; [by repeat constructor|].
    rewrite pretty_dict_cons. constructor; [done|].
    change (forallb (fun kv => float_free (snd kv)) (kv :: d) = true) in Hf.
    apply forallb_Forall in Hf.
    rewrite !Forall_app. split; [apply no_cr_newline_indent|].
    split; [|split; [apply no_cr_newline_indent | by repeat constructor]].
    apply join_Forall; [constructor; [done | apply no_cr_newline_indent]|].
    apply Forall_map. rewrite Forall_forall in IH, Hf. apply Forall_forall.
    intros m Hm. unfold member_text. rewrite !Forall_app.
    split; [apply no_cr_encode_basestring|]. split; [by repeat constructor|].
    apply IH; auto.
Qed.

(** [json.loads] of the text of a document without floats is the
    document. *)
Lemma loads_pretty v level :
  well_formed v = true -> float_free v = true -> keys_unique v = true ->
  Decoder.loads (pretty v level) = Ok v.
Proof.
  intros Hw Hf Hk.
  destruct (pretty_starts_a_value v level Hf) as (c & t & E & Hws & _ & Hbom).
  assert (Hd : Decoder.decode (pretty v level) = Ok v).
  { unfold Decoder.decode.
    rewrite skip_ws_value by (by apply pretty_starts_a_value).
    rewrite <- (app_nil_r (pretty v level)) at 2.
    rewrite scan_once_pretty; [done..| lia | done]. }
  unfold Decoder.loads. rewrite E in *. by rewrite Hbom.
Qed.

(** Reading a file that holds the UTF-8 text of a document. *)
Lemma load_pretty (fs : gmap string bytes) f bs v level :
  well_formed v = true -> float_free v = true -> keys_unique v = true ->
  Utf8.encode (pretty v level) = Some bs ->
  load (<[f := bs]> fs) f = Ok v.
Proof.
  intros Hw Hf Hk He. unfold load.
  rewrite lookup_insert_eq, (utf8_roundtrip _ _ He).
  rewrite universal_newlines_no_cr by (by apply no_cr_pretty).
  by apply loads_pretty.
Qed.

Lemma loaded_keys_unique fs todo vs :
  loaded fs todo vs -> forallb keys_unique vs = true.
Proof.
  induction 1 as [|f v todo vs Hv Hrest IH]; [done|]. simpl.
  by rewrite (load_keys_unique _ _ _ Hv), IH.
Qed.

(** ** Looking a key up *)





(** ** The order of events *)

Lemma one_file_at_a_time_app a b : forall opened,
  one_file_at_a_time opened a = true ->
  one_file_at_a_time opened (a ++ b) = one_file_at_a_time None b.
Proof.
  induction a as [|[p m|q|line] r IH]; intros [o|] Ha; simpl in *; try done.
  - by apply IH.
  - apply andb_prop in Ha as [-> Ha]. simpl. by apply IH.
  - by apply IH.
  - by apply IH.
Qed.

Lemma one_file_at_a_time_reads todo : one_file_at_a_time None (reads todo) = true.
Proof.
  induction todo as [|f r IH]; [done|]. simpl. by rewrite String.eqb_refl.
Qed.

Lemma one_file_at_a_time_attempt fs f : one_file_at_a_time None (attempt fs f) = true.
Proof.
  unfold attempt. destruct (fs !! f); [|done]. simpl. by rewrite String.eqb_refl.
Qed.

(** ** Inputs that are refused *)

Lemma exec_fails_on fs f e :
  f ∈ files -> load fs f = Raise e ->
  failed (fst (exec fs)) /\ disk (snd (exec fs)) = fs.
Proof.
  intros Hf He.
  destruct (exec_cases fs) as [(vs & Hl)|(pre & g & post & vs & e' & _ & _ & _ & Hx)].
  - destruct (loaded_elem _ _ _ _ Hl Hf) as [v Hv]. congruence.
  - by rewrite Hx.
Qed.

Lemma decode_byte_order_mark rest :
  Utf8.decode (0xEF :: 0xBB :: 0xBF :: rest)
  = option_map (cons 0xFEFF) (Utf8.decode rest).
Proof. reflexivity. Qed.

Lemma load_byte_order_mark (fs : gmap string bytes) f rest :
  fs !! f = Some (0xEF :: 0xBB :: 0xBF :: rest) ->
  load fs f = Raise (match Utf8.decode rest with
                     | Some _ => JSONDecodeError
                     | None => UnicodeDecodeError
                     end).
Proof.
  intros H. unfold load. destruct (fs !! f) as [b|] eqn:E; [|congruence].
  assert (b = 0xEF :: 0xBB :: 0xBF :: rest) as -> by congruence.
  rewrite decode_byte_order_mark. by destruct (Utf8.decode rest).
Qed.

Lemma decode_blank bs :
  forallb Decoder.is_ws bs = true -> Utf8.decode bs = Some bs.
Proof.
  induction bs as [|b r IH]; [done|]. simpl. intros [Hb Hr]%andb_prop.
  assert (Utf8.between 0 b 127 = true) as ->.
  { unfold Decoder.is_ws in Hb. unfold Utf8.between.
    repeat (apply orb_prop in Hb as [Hb|Hb]); apply Z.eqb_eq in Hb as ->; done. }
  by rewrite IH.
Qed.

Lemma universal_newlines_blank s :
  forallb Decoder.is_ws s = true -> forallb Decoder.is_ws (universal_newlines s) = true.
Proof.
  induction s as [s IH] using (induction_ltof1 _ (@length _)). unfold ltof in IH.
  destruct s as [|c r]; [done|]. cbn [universal_newlines forallb].
  intros [Hc Hr]%andb_prop. destruct (c =? 13).
  - destruct r as [|d r']; [done|]. cbn [forallb] in Hr.
    apply andb_prop in Hr as [Hd Hr'].
    destruct (d =? 10); cbn [forallb]; change (Decoder.is_ws 10) with true; cbn [andb].
    + apply IH; [simpl; lia | done].
    + apply IH; [simpl; lia | cbn [forallb]; by rewrite Hd].
  - cbn [forallb]. rewrite Hc. apply IH; [simpl; lia | done].
Qed.

Lemma skip_ws_blank s : forallb Decoder.is_ws s = true -> Decoder.skip_ws s = [].
Proof.
  induction s as [|c r IH]; [done|]. simpl. intros [-> Hr]%andb_prop. by apply IH.
Qed.

Lemma loads_blank s : forallb Decoder.is_ws s = true -> Decoder.loads s = Raise JSONDecodeError.
Proof.
  intros Hs.
  assert (Hd : Decoder.decode s = Raise JSONDecodeError).
  { unfold Decoder.decode. by rewrite skip_ws_blank. }
  unfold Decoder.loads. destruct s as [|c r]; [done|].
  simpl in Hs. apply andb_prop in Hs as [Hc _].
  assert ((c =? 65279) = false) as ->; [|done].
  unfold Decoder.is_ws in Hc.
  repeat (apply orb_prop in Hc as [Hc|Hc]); apply Z.eqb_eq in Hc as ->; done.
Qed.

Lemma load_blank (fs : gmap string bytes) f bs :
  fs !! f = Some bs -> forallb Decoder.is_ws bs = true ->
  load fs f = Raise JSONDecodeError.
Proof.
  intros H Hb. unfold load. destruct (fs !! f) as [b|] eqn:E; [|congruence].
  assert (b = bs) as -> by congruence. rewrite decode_blank by done.
  by apply loads_blank, universal_newlines_blank.
Qed.

(** ** A dump that fails *)

Lemma text_of_yielded before c after :
  text_of (map Ok before ++ Ok c :: after) = concat before ++ c ++ text_of after.
Proof.
  induction before as [|b r IH]; [done|]. simpl. by rewrite IH, app_assoc.
Qed.

Lemma written_stops cs :
  Forall yields cs -> snd (written cs) <> None ->
  exists before c after,
    cs = map Ok before ++ Ok c :: after /\
    Utf8.encode c = None /\
    Utf8.encode (concat before) = Some (fst (written cs)).
Proof.
  induction 1 as [|r cs Hr Hcs IH]; [done|].
  destruct r as [c|]; [|done]. simpl.
  destruct (Utf8.encode c) as [b|] eqn:E.
  - destruct (written cs) as [bs e] eqn:Ew. simpl. intros He.
    destruct (IH He) as (before & c' & after & -> & Hc' & Hb).
    exists (c :: before), c', after. split; [done|]. split; [done|].
    simpl. by rewrite encode_app, E, Hb.
  - intros _. by exists [], c, cs.
Qed.

(** ** Text after the document *)


(** ** Integers keep their digits *)







(** ** Texts without escapes *)

Lemma unescaped_suffix s t : t `suffix_of` s -> unescaped s -> unescaped t.
Proof. intros [pre ->] H. unfold unescaped in *. by apply Forall_app in H as [_ H]. Qed.

Lemma scanstring_unescaped s : forall chunks str t,
  unescaped s -> str_surrogate_free chunks = true ->
  Decoder.scanstring s chunks = Ok (str, t) -> str_surrogate_free str = true.
Proof.
  induction s as [|c r IH]; intros chunks str t Hs Hc H; [discriminate|].
  inversion Hs as [|? ? [Hb Hsur] Hr]; subst. cbn [Decoder.scanstring] in H.
  destruct (c =? QUOTE); [by injection H as <- <-|].
  destruct (Z.eqb_spec c BSLASH); [done|].
  destruct (c <? 32); [discriminate|].
  eapply IH; [done| |exact H].
  unfold str_surrogate_free in *. rewrite forallb_app, Hc. simpl. by rewrite Hsur.
Qed.

Lemma number_value_surrogate_free n v :
  Decoder.number_value n = Ok v -> surrogate_free v = true.
Proof.
  unfold Decoder.number_value. intros H.
  destruct (Decoder.n_frac n), (Decoder.n_exp n); try (by injection H as <-).
  destruct (PyInt.of_literal _ _); [by injection H as <- | discriminate].
Qed.

Lemma constant_surrogate_free name v s r t o :
  surrogate_free v = true ->
  Decoder.constant name v s = Some r -> r = Ok (o, t) -> surrogate_free o = true.
Proof.
  unfold Decoder.constant. intros Hv H ->.
  destruct (strip_prefix (lit name) s); [|discriminate]. by injection H as <- <-.
Qed.

Lemma dict_setitem_pairs (P : pystr * py -> bool) d k v :
  forallb P d = true -> P (k, v) = true ->
  (forall k' v', P (k', v') = true -> P (k', v) = true) ->
  forallb P (dict_setitem d k v) = true.
Proof.
  intros Hd Hkv Hval. induction d as [|[k' v'] r IH]; simpl in *; [by rewrite Hkv|].
  apply andb_prop in Hd as [H1 H2]. destruct (str_eqb k' k); simpl.
  - by rewrite (Hval _ _ H1), H2.
  - by rewrite H1, IH.
Qed.

Lemma dict_of_pairs_surrogate_free pairs :
  forallb pair_surrogate_free pairs = true ->
  forallb pair_surrogate_free (dict_of_pairs pairs) = true.
Proof.
  unfold dict_of_pairs.
  assert (G : forall acc, forallb pair_surrogate_free acc = true ->
              forallb pair_surrogate_free pairs = true ->
              forallb pair_surrogate_free
                (fold_left (fun d kv => dict_setitem d (fst kv) (snd kv)) pairs acc) = true).
  { induction pairs as [|[k v] r IH]; intros acc Ha Hp; simpl in *; [done|].
    apply andb_prop in Hp as [H1 H2]. apply IH; [|done].
    apply dict_setitem_pairs; [done..|].
    unfold pair_surrogate_free in *. simpl in *. intros k' v' [Hk' _]%andb_prop.
    apply andb_prop in H1 as [_ Hv]. by rewrite Hk', Hv. }
  by apply G.
Qed.

Section UnescapedLoops.
Variable scan : Decoder.scanner.
Hypothesis sound : scan_sound scan.
Hypothesis plain : scan_unescaped scan.

Lemma array_loop_unescaped n : forall s vals v t,
  Decoder.array_loop scan n s vals = Some (Ok (v, t)) ->
  unescaped s -> forallb surrogate_free vals = true -> surrogate_free v = true.
Proof.
  induction n as [|n IH]; intros s vals v t H Hs Hvals; [discriminate|].
  simpl in H.
  destruct (scan s) as [[[value s1]|e]|] eqn:E; try discriminate.
  pose proof (plain _ _ _ Hs E) as Hvalue.
  apply sound in E as (Hs1 & _ & _).
  pose proof (skip_ws_suffix s1) as Hws.
  destruct (Decoder.skip_ws s1) as [|c s2] eqn:E2; [discriminate|].
  assert (Hv : forallb surrogate_free (vals ++ [value]) = true).
  { rewrite forallb_app, Hvals. simpl. by rewrite Hvalue. }
  destruct (c =? 93).
  - by injection H as <- <-.
  - destruct (c =? 44); [|discriminate].
    eapply IH; [exact H| |exact Hv].
    eapply unescaped_suffix; [|exact Hs].
    etrans; [apply skip_ws_suffix|]. etrans; [by apply suffix_cons_r|]. by etrans.
Qed.

Lemma object_loop_unescaped n : forall s pairs v t,
  Decoder.object_loop scan n s pairs = Some (Ok (v, t)) ->
  unescaped s -> forallb pair_surrogate_free pairs = true -> surrogate_free v = true.
Proof.
  induction n as [|n IH]; intros s pairs v t H Hs Hpairs; [discriminate|].
  simpl in H.
  destruct (Decoder.scanstring s []) as [[key s1]|e] eqn:Ek; [|discriminate].
  pose proof (scanstring_unescaped s [] key s1 Hs eq_refl Ek) as Hkey.
  apply (scanstring_spec (length s)) in Ek as (Hs1 & _ & _); [|done].
  pose proof (skip_ws_suffix s1) as Hws1.
  destruct (Decoder.skip_ws s1) as [|c s2] eqn:E2; [discriminate|].
  destruct (c =? 58); [|discriminate].
  pose proof (skip_ws_suffix s2) as Hws2.
  assert (Hs2 : s2 `suffix_of` s) by (etrans; [by apply suffix_cons_r|by etrans]).
  destruct (scan (Decoder.skip_ws s2)) as [[[value s3]|e]|] eqn:E; try discriminate.
  assert (Hvalue : surrogate_free value = true).
  { eapply plain; [|exact E]. eapply unescaped_suffix; [|exact Hs]. by etrans. }
  apply sound in E as (Hs3 & _ & _).
  pose proof (skip_ws_suffix s3) as Hws3.
  destruct (Decoder.skip_ws s3) as [|d s4] eqn:E4; [discriminate|].
  assert (Hs4 : s4 `suffix_of` s).
  { etrans; [by apply suffix_cons_r|]. etrans; [exact Hws3|].
    etrans; [exact Hs3|]. by etrans. }
  assert (Hp : forallb pair_surrogate_free (pairs ++ [(key, value)]) = true).
  { rewrite forallb_app, Hpairs. simpl. unfold pair_surrogate_free at 1. simpl.
    by rewrite Hkey, Hvalue. }
  destruct (d =? 125).
  - injection H as <- <-. by apply dict_of_pairs_surrogate_free.
  - destruct (d =? 44); [|discriminate].
    pose proof (skip_ws_suffix s4) as Hws4.
    destruct (Decoder.skip_ws s4) as [|q s5] eqn:E5; [discriminate|].
    destruct (q =? QUOTE); [|discriminate].
    eapply IH; [exact H| |exact Hp].
    eapply unescaped_suffix; [|exact Hs].
    etrans; [by apply suffix_cons_r|]. by etrans.
Qed.

Lemma JSONArray_unescaped s v t :
  Decoder.JSONArray scan s = Some (Ok (v, t)) -> unescaped s ->
  surrogate_free v = true.
Proof.
  unfold Decoder.JSONArray. intros H Hs.
  pose proof (skip_ws_suffix s) as Hws.
  destruct (Decoder.skip_ws s) as [|c r] eqn:E.
  - eapply array_loop_unescaped; [exact H | constructor | done].
  - destruct (c =? 93); [by injection H as <- <-|].
    eapply array_loop_unescaped; [exact H| |done]. by eapply unescaped_suffix.
Qed.

Lemma JSONObject_unescaped s v t :
  Decoder.JSONObject scan s = Some (Ok (v, t)) -> unescaped s ->
  surrogate_free v = true.
Proof.
  unfold Decoder.JSONObject. intros H Hs.
  pose proof (skip_ws_suffix s) as Hws.
  destruct (Decoder.skip_ws s) as [|c r] eqn:E; [discriminate|].
  destruct (c =? 125); [by injection H as <- <-|].
  destruct (c =? QUOTE); [|discriminate].
  eapply object_loop_unescaped; [exact H| |done].
  eapply unescaped_suffix; [|exact Hs]. etrans; [by apply suffix_cons_r|done].
Qed.

End UnescapedLoops.

Lemma scan_once_unescaped fuel : scan_unescaped (Decoder.scan_once fuel).
Proof.
  induction fuel as [|fuel IH]; intros s v t Hs H; [discriminate|].
  simpl in H. destruct s as [|c r]; [discriminate|].
  assert (Hr : unescaped r) by (by inversion Hs).
  destruct (c =? QUOTE).
  { destruct (Decoder.scanstring r []) as [[str t']|e] eqn:E; [|discriminate].
    injection H as <- <-. by eapply (scanstring_unescaped r []). }
  destruct (c =? 123).
  { eapply JSONObject_unescaped; [apply scan_once_sound | exact IH | exact H | done]. }
  destruct (c =? 91).
  { eapply JSONArray_unescaped; [apply scan_once_sound | exact IH | exact H | done]. }
  repeat match type of H with
  | match Decoder.constant ?n ?x ?s with _ => _ end = _ =>
      let E := fresh "E" in
      destruct (Decoder.constant n x s) eqn:E;
      [ injection H as H; by eapply (constant_surrogate_free n x s) | clear E ]
  | match Decoder.match_number ?s with _ => _ end = _ =>
      let E := fresh "E" in
      destruct (Decoder.match_number s) as [[n t']|] eqn:E;
      [ destruct (Decoder.number_value n) eqn:En; [|discriminate];
        injection H as <- <-; by eapply number_value_surrogate_free
      | clear E ]
  end.
  discriminate.
Qed.

Lemma loads_unescaped s v :
  unescaped s -> Decoder.loads s = Ok v -> surrogate_free v = true.
Proof.
  intros Hs.
  assert (G : Decoder.decode s = Ok v -> surrogate_free v = true).
  { unfold Decoder.decode.
    destruct (Decoder.scan_once (S (length s)) (Decoder.skip_ws s))
      as [[[obj rest]|e]|] eqn:E; try discriminate.
    destruct (Decoder.skip_ws rest); [|discriminate]. intros [= <-].
    eapply scan_once_unescaped; [|exact E].
    eapply unescaped_suffix; [apply skip_ws_suffix | done]. }
  unfold Decoder.loads. destruct s as [|c r]; [apply G|].
  destruct (c =? 65279); [discriminate | apply G].
Qed.

Lemma universal_newlines_unescaped s :
  unescaped s -> unescaped (universal_newlines s).
Proof.
  induction s as [s IH] using (induction_ltof1 _ (@length _)). unfold ltof in IH.
  destruct s as [|c r]; [done|]. cbn [universal_newlines].
  intros Hs. inversion Hs as [|? ? Hc Hr]; subst.
  destruct (c =? 13).
  - destruct r as [|d r']; [by repeat constructor|].
    inversion Hr as [|? ? Hd Hr']; subst.
    destruct (d =? 10); (constructor; [done|]); apply IH; simpl; try lia; done.
  - constructor; [done|]. apply IH; [simpl; lia | done].
Qed.

(** An ASCII character of a text is a byte of its encoding. *)
Lemma encode_keeps_ascii s : forall bs c,
  Utf8.encode s = Some bs -> 0 <= c < 0x80 -> c ∈ s -> c ∈ bs.
Proof.
  induction s as [|x r IH]; intros bs c H Hc Hin; [by apply elem_of_nil in Hin|].
  simpl in H. destruct (Utf8.encode_char x) as [b|] eqn:Ex; [|discriminate].
  destruct (Utf8.encode r) as [br|] eqn:Er; [|discriminate]. injection H as <-.
  apply elem_of_app. apply elem_of_cons in Hin as [->|Hin].
  - left. rewrite encode_char_1 in Ex by done. injection Ex as <-. by left.
  - right. by eapply IH.
Qed.

Lemma decode_unescaped bs s :
  Utf8.decode bs = Some s -> BSLASH ∉ bs -> unescaped s.
Proof.
  intros Hd Hb. apply utf8_decode_encode in Hd.
  assert (He : Forall encodable s) by (apply encode_Some; congruence).
  apply Forall_forall. intros c Hc. split.
  - intros ->. apply Hb. eapply encode_keeps_ascii; [exact Hd | done | done].
  - rewrite Forall_forall in He. by apply encodable_iff, He.
Qed.

Lemma load_unescaped (fs : gmap string bytes) f bs v :
  fs !! f = Some bs -> BSLASH ∉ bs -> load fs f = Ok v -> surrogate_free v = true.
Proof.
  intros Hf Hb. unfold load. destruct (fs !! f) as [b|] eqn:E; [|discriminate].
  assert (b = bs) as -> by congruence.
  destruct (Utf8.decode bs) as [s|] eqn:Ed; [|discriminate].
  apply loads_unescaped, universal_newlines_unescaped. by eapply decode_unescaped.
Qed.

(** ** Line ends *)

Lemma universal_newlines_crlf s : no_cr s -> universal_newlines (crlf s) = s.
Proof.
  induction 1 as [|c r Hc Hr IH]; [done|].
  unfold crlf in *. cbn [flat_map]. destruct (Z.eqb_spec c 10) as [->|Hn].
  - cbn [app universal_newlines]. change (13 =? 13) with true.
    change (10 =? 10) with true. cbv iota. by rewrite IH.
  - cbn [app universal_newlines]. destruct (Z.eqb_spec c 13); [done|]. by rewrite IH.
Qed.

Lemma crlf_encodable s : Forall encodable s -> Forall encodable (crlf s).
Proof.
  induction 1 as [|c r Hc Hr IH]; [constructor|].
  unfold crlf in *. cbn [flat_map]. apply Forall_app. split; [|exact IH].
  destruct (c =? 10); [|by constructor].
  repeat constructor; by apply ascii_char_encodable.
Qed.

(** ** The properties *)

(** X1: after a run that succeeds on documents without floats, reading the
    output file the way the inputs were read ([open] as UTF-8 text, then
    [json.load]) gives the list of the eight parsed documents. *)
Theorem written_output_reads_back fs vs :
  loaded fs files vs -> forallb surrogate_free vs = true ->
  forallb float_free vs = true ->
  fst (exec fs) = Ok tt /\
  load (disk (snd (exec fs))) output_file = Ok (PList vs).
Proof.
  intros Hl Hs Hf.
  destruct (exec_success fs vs Hl Hs) as (bs & He & ->). split; [done|].
  cbn [snd disk]. eapply (load_pretty _ _ _ _ 0); [| | |exact He].
  - by apply (loaded_well_formed _ _ _ Hl).
  - done.
  - by apply (loaded_keys_unique _ _ _ Hl).
Qed.

Lemma written_output_reads_back_witness :
  loaded dir_phrase_records files docs_phrase_records /\
  forallb surrogate_free docs_phrase_records = true /\
  forallb float_free docs_phrase_records = true /\
  fst (exec dir_phrase_records) = Ok tt /\
  load (disk (snd (exec dir_phrase_records))) output_file
  = Ok (PList docs_phrase_records).
Proof.
  assert (H : loaded dir_phrase_records files docs_phrase_records)
    by (repeat constructor; vm_compute; reflexivity).
  split; [exact H|]. split; [reflexivity|]. split; [reflexivity|].
  exact (written_output_reads_back dir_phrase_records docs_phrase_records
           H eq_refl eq_refl).
Defined.

(** X2: [json.loads] undoes [json.dump]: for a document without floats,
    made of code points and integers within the digit limit, no object
    having a key twice, the encoder yields every chunk and the decoder
    reads their text back as the document. *)
Theorem dumped_text_loads_back v :
  well_formed v = true -> float_free v = true -> keys_unique v = true ->
  Forall yields (Encoder.iterencode v) /\
  Decoder.loads (text_of (Encoder.iterencode v)) = Ok v.
Proof.
  intros Hw Hf Hk. destruct (iterencode_pretty v 0 Hw) as [Hy Ht].
  split; [exact Hy|]. unfold Encoder.iterencode. rewrite Ht. by apply loads_pretty.
Qed.

Lemma dumped_text_loads_back_witness :
  well_formed doc_nested = true /\ float_free doc_nested = true /\
  keys_unique doc_nested = true /\
  Forall yields (Encoder.iterencode doc_nested) /\
  Decoder.loads (text_of (Encoder.iterencode doc_nested)) = Ok doc_nested.
Proof.
  split; [reflexivity|]. split; [reflexivity|]. split; [reflexivity|].
  exact (dumped_text_loads_back doc_nested eq_refl eq_refl eq_refl).
Defined.

(** X3: the UTF-8 codec of the text files is one to one: the bytes [encode]
    gives for a text are the only bytes [decode] reads as that text. *)
Theorem utf8_codec_is_one_to_one s bs :
  Utf8.encode s = Some bs <-> Utf8.decode bs = Some s.
Proof. split; [apply utf8_roundtrip | apply utf8_decode_encode]. Qed.

(** X4: what the encoder writes for a string, whatever its characters
    (quotes, backslashes, controls, lone surrogates), the scanner reads back
    as that string, leaving the text that follows. *)
Theorem escaped_string_reads_back s rest fuel :
  Forall (fun c => 0 <= c) s ->
  Decoder.scan_once (S fuel) (Encoder.encode_basestring s ++ rest)
  = Some (Ok (PStr s, rest)).
Proof. apply scan_once_string. Qed.

Lemma escaped_string_reads_back_witness :
  Forall (fun c => 0 <= c) str_awkward /\
  Decoder.scan_once 1 (Encoder.encode_basestring str_awkward ++ lit ", 1]")
  = Some (Ok (PStr str_awkward, lit ", 1]")).
Proof.
  assert (H : Forall (fun c => 0 <= c) str_awkward)
    by (unfold str_awkward; repeat constructor; lia).
  split; [exact H|].
  exact (escaped_string_reads_back str_awkward (lit ", 1]") 0%nat H).
Defined.

(** X5: no object of a document [json.load] returns has a key twice. *)
Theorem parsed_objects_have_no_key_twice fs f v :
  load fs f = Ok v -> keys_unique v = true.
Proof. apply load_keys_unique. Qed.

Lemma parsed_objects_have_no_key_twice_witness :
  load dir_key_twice "core-phrase-list-01-request.json"%string
  = Ok (PDict [(lit "a", PInt 3); (lit "b", PInt 2)]) /\
  keys_unique (PDict [(lit "a", PInt 3); (lit "b", PInt 2)]) = true.
Proof.
  assert (H : load dir_key_twice "core-phrase-list-01-request.json"%string
              = Ok (PDict [(lit "a", PInt 3); (lit "b", PInt 2)]))
    by (vm_compute; reflexivity).
  split; [exact H|].
  exact (parsed_objects_have_no_key_twice _ _ _ H).
Defined.


(** X7: an input file that starts with a UTF-8 byte order mark is refused
    ([JSONDecodeError], or [UnicodeDecodeError] when the bytes after the
    mark are no UTF-8); the run fails and leaves the directory as it
    was. *)
Theorem byte_order_mark_is_refused (fs : gmap string bytes) f rest :
  f ∈ files -> fs !! f = Some (0xEF :: 0xBB :: 0xBF :: rest) ->
  (load fs f = Raise JSONDecodeError \/ load fs f = Raise UnicodeDecodeError) /\
  failed (fst (exec fs)) /\ disk (snd (exec fs)) = fs.
Proof.
  intros Hf H. pose proof (load_byte_order_mark fs f rest H) as Hl.
  split; [destruct (Utf8.decode rest); auto|].
  by eapply exec_fails_on.
Qed.

Lemma byte_order_mark_is_refused_witness :
  "core-phrase-list-01-request.json"%string ∈ files /\
  dir_byte_order_mark !! "core-phrase-list-01-request.json"%string
  = Some (0xEF :: 0xBB :: 0xBF :: js "['a']") /\
  (load dir_byte_order_mark "core-phrase-list-01-request.json"%string
   = Raise JSONDecodeError \/
   load dir_byte_order_mark "core-phrase-list-01-request.json"%string
   = Raise UnicodeDecodeError) /\
  failed (fst (exec dir_byte_order_mark)) /\
  disk (snd (exec dir_byte_order_mark)) = dir_byte_order_mark.
Proof.
  assert (H1 : "core-phrase-list-01-request.json"%string ∈ files)
    by (unfold files; rewrite !elem_of_cons; auto 10).
  assert (H2 : dir_byte_order_mark !! "core-phrase-list-01-request.json"%string
               = Some (0xEF :: 0xBB :: 0xBF :: js "['a']"))
    by (vm_compute; reflexivity).
  split; [exact H1|]. split; [exact H2|].
  exact (byte_order_mark_is_refused dir_byte_order_mark _ _ H1 H2).
Defined.

(** X8: an input file that is empty, or holds blanks only, is refused with
    [JSONDecodeError]; the run fails and leaves the directory as it was. *)
Theorem blank_input_is_refused (fs : gmap string bytes) f bs :
  f ∈ files -> fs !! f = Some bs -> forallb Decoder.is_ws bs = true ->
  load fs f = Raise JSONDecodeError /\
  failed (fst (exec fs)) /\ disk (snd (exec fs)) = fs.
Proof.
  intros Hf H Hb. pose proof (load_blank fs f bs H Hb) as Hl.
  split; [exact Hl|]. by eapply exec_fails_on.
Qed.

Lemma blank_input_is_refused_witness :
  "core-phrase-list-03-direct.json"%string ∈ files /\
  dir_empty_file !! "core-phrase-list-03-direct.json"%string = Some [] /\
  forallb Decoder.is_ws [] = true /\
  load dir_empty_file "core-phrase-list-03-direct.json"%string
  = Raise JSONDecodeError /\
  failed (fst (exec dir_empty_file)) /\
  disk (snd (exec dir_empty_file)) = dir_empty_file.
Proof.
  assert (H1 : "core-phrase-list-03-direct.json"%string ∈ files)
    by (unfold files; rewrite !elem_of_cons; auto 10).
  assert (H2 : dir_empty_file !! "core-phrase-list-03-direct.json"%string = Some [])
    by (vm_compute; reflexivity).
  split; [exact H1|]. split; [exact H2|]. split; [reflexivity|].
  exact (blank_input_is_refused dir_empty_file _ _ H1 H2 eq_refl).
Defined.

(** X9: in every run, failed or not, each file that is opened is closed
    before anything else is opened, and none is left open at the end. *)
Theorem files_are_closed_one_at_a_time fs :
  one_file_at_a_time None (trace (snd (exec fs))) = true.
Proof.
  destruct (exec_cases fs) as [(vs & Hl)|(pre & g & post & vs & e & _ & _ & _ & He)].
  - rewrite (exec_loaded_eq fs vs Hl). cbn [snd trace].
    rewrite one_file_at_a_time_app by apply one_file_at_a_time_reads.
    by destruct (snd (written (Encoder.iterencode (PList vs)))).
  - rewrite He. cbn [snd trace].
    rewrite one_file_at_a_time_app by apply one_file_at_a_time_reads.
    apply one_file_at_a_time_attempt.
Qed.

(** X10: a run opens no file but the eight inputs, for reading, and the
    output file, for writing. *)
Theorem opens_only_its_nine_files fs p m :
  Open p m ∈ trace (snd (exec fs)) ->
  (m = RD /\ p ∈ files) \/ (m = WR /\ p = output_file).
Proof.
  assert (Hreads : forall todo, Open p m ∈ reads todo -> m = RD /\ p ∈ todo).
  { induction todo as [|f r IH]; simpl; [by intros ?%elem_of_nil|].
    rewrite !elem_of_cons. intros [[= -> ->]|[?|H]]; [by auto | done |].
    destruct (IH H). auto. }
  destruct (exec_cases fs) as [(vs & Hl)|(pre & g & post & vs & e & Hfs & _ & _ & He)].
  - rewrite (exec_loaded_eq fs vs Hl). cbn [snd trace].
    rewrite !elem_of_app. intros [H|[H|H]].
    + left. by apply Hreads.
    + right. apply elem_of_cons in H as [[= -> ->]|H]; [done|].
      apply elem_of_cons in H as [?|H]; [done|]. by apply elem_of_nil in H.
    + destruct (snd (written (Encoder.iterencode (PList vs)))).
      * by apply elem_of_nil in H.
      * apply elem_of_cons in H as [?|H]; [done|]. by apply elem_of_nil in H.
  - rewrite He. cbn [snd trace]. rewrite elem_of_app. intros [H|H]; left.
    + destruct (Hreads _ H) as [-> Hp]. split; [done|].
      rewrite Hfs. apply elem_of_app. by left.
    + unfold attempt in H. destruct (fs !! g); [|by apply elem_of_nil in H].
      apply elem_of_cons in H as [[= -> ->]|H].
      * split; [done|]. rewrite Hfs. apply elem_of_app. right. by left.
      * apply elem_of_cons in H as [?|H]; [done|]. by apply elem_of_nil in H.
Qed.

Lemma opens_only_its_nine_files_witness :
  Open output_file WR ∈ trace (snd (exec dir_a_to_h)) /\
  ((WR = RD /\ output_file ∈ files) \/ (WR = WR /\ output_file = output_file)).
Proof.
  assert (H : Open output_file WR ∈ trace (snd (exec dir_a_to_h))).
  { destruct (exec_success _ _ loaded_a_to_h eq_refl) as (bs & _ & ->).
    cbn [snd trace]. apply elem_of_app. right. by left. }
  split; [exact H|].
  exact (opens_only_its_nine_files dir_a_to_h output_file WR H).
Defined.

(** X11: whatever the run does, no file but the output file is created,
    changed or removed. *)
Theorem only_the_output_file_changes fs f :
  f <> output_file -> disk (snd (exec fs)) !! f = fs !! f.
Proof.
  intros Hf.
  destruct (exec_cases fs) as [(vs & Hl)|(pre & g & post & vs & e & _ & _ & _ & He)].
  - rewrite (exec_loaded_eq fs vs Hl). cbn [snd disk]. by rewrite lookup_insert_ne.
  - by rewrite He.
Qed.

Lemma only_the_output_file_changes_witness :
  "core-phrase-list-01-request.json"%string <> output_file /\
  disk (snd (exec dir_a_to_h)) !! "core-phrase-list-01-request.json"%string
  = dir_a_to_h !! "core-phrase-list-01-request.json"%string.
Proof.
  assert (H : "core-phrase-list-01-request.json"%string <> output_file)
    by discriminate.
  split; [exact H|].
  exact (only_the_output_file_changes dir_a_to_h _ H).
Defined.

(** X12: when every input is parsed and [json.dump] fails, the output file
    is left holding the UTF-8 bytes of the chunks yielded before the first
    one the codec refuses: a beginning of the text a complete dump would
    have written, the rest of it missing. *)
Theorem failed_dump_leaves_a_prefix fs vs :
  loaded fs files vs -> forallb surrogate_free vs = false ->
  exists before c after bs,
    Encoder.iterencode (PList vs) = map Ok before ++ Ok c :: after /\
    pretty (PList vs) 0 = concat before ++ c ++ text_of after /\
    Utf8.encode c = None /\
    Utf8.encode (concat before) = Some bs /\
    exec fs = (Raise UnicodeEncodeError,
               World (<[output_file := bs]> fs)
                     (reads files ++ [Open output_file WR; Close output_file])).
Proof.
  intros Hl Hs. pose proof (loaded_well_formed _ _ _ Hl) as Hw.
  destruct (iterencode_pretty (PList vs) 0 Hw) as [Hy Ht].
  fold (Encoder.iterencode (PList vs)) in Hy, Ht.
  pose proof (exec_encode_error fs vs Hl Hs) as He.
  assert (Herr : snd (written (Encoder.iterencode (PList vs))) <> None).
  { pose proof (exec_loaded_eq fs vs Hl) as He'. rewrite He in He'.
    injection He' as He' _. by destruct (snd (written (Encoder.iterencode (PList vs)))). }
  destruct (written_stops _ Hy Herr) as (before & c & after & E & Hc & Hb).
  exists before, c, after, (fst (written (Encoder.iterencode (PList vs)))).
  split; [done|]. split; [by rewrite <- Ht, E, text_of_yielded|]. done.
Qed.

Lemma failed_dump_leaves_a_prefix_witness :
  loaded dir_surrogate_last files docs_surrogate_last /\
  forallb surrogate_free docs_surrogate_last = false /\
  exists before c after bs,
    Encoder.iterencode (PList docs_surrogate_last) = map Ok before ++ Ok c :: after /\
    pretty (PList docs_surrogate_last) 0 = concat before ++ c ++ text_of after /\
    Utf8.encode c = None /\
    Utf8.encode (concat before) = Some bs /\
    exec dir_surrogate_last
    = (Raise UnicodeEncodeError,
       World (<[output_file := bs]> dir_surrogate_last)
             (reads files ++ [Open output_file WR; Close output_file])).
Proof.
  assert (H : loaded dir_surrogate_last files docs_surrogate_last)
    by (repeat constructor; vm_compute; reflexivity).
  split; [exact H|]. split; [reflexivity|].
  exact (failed_dump_leaves_a_prefix dir_surrogate_last docs_surrogate_last H eq_refl).
Defined.





(** X15: when the eight input files parse and none of them holds a
    backslash (so no escape of any kind), no parsed string holds a
    surrogate and the run succeeds: [json.dump] cannot fail. *)
Theorem inputs_without_escapes_are_merged fs vs :
  loaded fs files vs -> inputs_unescaped fs = true ->
  forallb surrogate_free vs = true /\ fst (exec fs) = Ok tt.
Proof.
  intros Hl Hu.
  assert (Hs : forallb surrogate_free vs = true).
  { unfold inputs_unescaped in Hu. revert Hu.
    induction Hl as [|f v todo vs Hv Hrest IH]; [done|]. simpl.
    intros [Hf Htodo]%andb_prop. rewrite (IH Htodo), andb_true_r.
    destruct (fs !! f) as [bs|] eqn:E; [|by unfold load in Hv; rewrite E in Hv].
    eapply (load_unescaped fs f bs); [done| |done].
    intros Hin. unfold no_backslash in Hf. rewrite forallb_forall in Hf.
    apply list_elem_of_In, Hf in Hin. by rewrite Z.eqb_refl in Hin. }
  split; [exact Hs|]. by destruct (exec_success fs vs Hl Hs) as (bs & _ & ->).
Qed.

Lemma inputs_without_escapes_are_merged_witness :
  loaded dir_phrase_records files docs_phrase_records /\
  inputs_unescaped dir_phrase_records = true /\
  forallb surrogate_free docs_phrase_records = true /\
  fst (exec dir_phrase_records) = Ok tt.
Proof.
  assert (H : loaded dir_phrase_records files docs_phrase_records)
    by (repeat constructor; vm_compute; reflexivity).
  assert (H2 : inputs_unescaped dir_phrase_records = true) by (vm_compute; reflexivity).
  split; [exact H|]. split; [exact H2|].
  exact (inputs_without_escapes_are_merged dir_phrase_records docs_phrase_records H H2).
Defined.

(** X16: the output depends on the parsed documents only, not on how the
    input files spell them: two directories whose eight files parse to the
    same documents end the same way and get the same bytes in the output
    file. *)
Theorem same_documents_same_output fs fs' vs :
  loaded fs files vs -> loaded fs' files vs ->
  fst (exec fs) = fst (exec fs') /\
  trace (snd (exec fs)) = trace (snd (exec fs')) /\
  disk (snd (exec fs)) !! output_file = disk (snd (exec fs')) !! output_file.
Proof.
  intros Hl Hl'. rewrite (exec_loaded_eq fs vs Hl), (exec_loaded_eq fs' vs Hl').
  cbn [fst snd disk trace]. by rewrite !lookup_insert_eq.
Qed.

Lemma same_documents_same_output_witness :
  loaded dir_a_to_h files docs_a_to_h /\
  loaded dir_a_to_h_spaced files docs_a_to_h /\
  fst (exec dir_a_to_h) = fst (exec dir_a_to_h_spaced) /\
  trace (snd (exec dir_a_to_h)) = trace (snd (exec dir_a_to_h_spaced)) /\
  disk (snd (exec dir_a_to_h)) !! output_file
  = disk (snd (exec dir_a_to_h_spaced)) !! output_file.
Proof.
  assert (H : loaded dir_a_to_h_spaced files docs_a_to_h)
    by (repeat constructor; vm_compute; reflexivity).
  split; [exact loaded_a_to_h|]. split; [exact H|].
  exact (same_documents_same_output dir_a_to_h dir_a_to_h_spaced docs_a_to_h
           loaded_a_to_h H).
Defined.

(** X17: a file that holds the text [json.dump] writes for a document, its
    line ends turned into carriage return and line feed, is read by
    [open] and [json.load] as that document: the translation of line ends
    on reading undoes the change. *)
Theorem windows_line_ends_are_read_the_same (fs : gmap string bytes) f v :
  well_formed v = true -> float_free v = true -> keys_unique v = true ->
  surrogate_free v = true ->
  exists bs,
    Utf8.encode (crlf (text_of (Encoder.iterencode v))) = Some bs /\
    load (<[f := bs]> fs) f = Ok v.
Proof.
  intros Hw Hf Hk Hs. destruct (iterencode_pretty v 0 Hw) as [_ Ht].
  unfold Encoder.iterencode. rewrite Ht.
  assert (He : Forall encodable (crlf (pretty v 0))).
  { apply crlf_encodable. by apply pretty_encodable. }
  apply encode_Some in He.
  destruct (Utf8.encode (crlf (pretty v 0))) as [bs|] eqn:E; [|done].
  exists bs. split; [done|]. unfold load.
  rewrite lookup_insert_eq, (utf8_roundtrip _ _ E).
  rewrite universal_newlines_crlf by (by apply no_cr_pretty).
  by apply loads_pretty.
Qed.

Lemma windows_line_ends_are_read_the_same_witness :
  well_formed doc_nested = true /\ float_free doc_nested = true /\
  keys_unique doc_nested = true /\ surrogate_free doc_nested = true /\
  exists bs,
    Utf8.encode (crlf (text_of (Encoder.iterencode doc_nested))) = Some bs /\
    load (<[output_file := bs]> dir_a_to_h) output_file = Ok doc_nested.
Proof.
  split; [reflexivity|]. split; [reflexivity|]. split; [reflexivity|].
  split; [reflexivity|].
  exact (windows_line_ends_are_read_the_same dir_a_to_h output_file doc_nested
           eq_refl eq_refl eq_refl eq_refl).
Defined.
